(** * IngressSyncTraversalWorker: a shallow embedding

    Source: [src/grape/worker/ingress_sync_traversal_worker.h].

    The worker drives a traversal kernel ([APP_T]) over a partitioned graph in
    bulk-synchronous rounds: [Query] runs the batch fixed point and then, when
    an update file is configured, [deltaCompute] (reset of the dependency
    subtree, rebuild of the fragment, kickoff round) before the batch loop
    resumes.

    All workers execute the same code and meet at [FinishARound] and
    [ToTerminate]; a run is therefore modelled in lock step: the code between
    two synchronisation points is a function on one worker, and the
    synchronisation points act on the list of all workers.  Every call that
    the worker makes on the message manager, on the channels and on the kernel
    is appended to the worker's [trace], so that the order of calls can be
    stated.  The parallel loops ([ForEach], [ForEachSimple], [ForEachCilk]) are
    run in the order of the vertex range, one of the schedules the engine may
    choose. *)

From stdpp Require Import base gmap sets list functions strings.


(** ** Identifiers *)

(** [vid_t]: global vertex ids (gids).  [vertex_t]: local vertex handles. *)
Definition vid_t := N.
Definition vertex_t := nat.
Definition fid_t := nat.

(** [grape::kCoordinatorRank] *)
Definition kCoordinatorRank : nat := 0.

(** ** The fragment facade

    What the worker calls on [fragment_t]: the two vertex ranges, the
    translation between handles and gids, the outgoing adjacency list, and
    (through [SyncStateOnOuterVertex]) the owner of an outer vertex. *)

Record nbr_t := { neighbor : vertex_t; data : N }.

Record fragment_t := {
  InnerVertices : list vertex_t;
  OuterVertices : list vertex_t;
  Vertex2Gid : vertex_t → vid_t;
  Gid2Vertex : vid_t → option vertex_t;
  IsInnerGid : vid_t → bool;
  GetOutgoingAdjList : vertex_t → list nbr_t;
  GetFragId : vertex_t → fid_t;
}.

(** [fragment_->Vertices()]: inner vertices followed by outer vertices. *)
Definition Vertices (frag : fragment_t) : list vertex_t :=
  InnerVertices frag ++ OuterVertices frag.

(** ** Kernel state *)

(** [DependencyData<vid_t, value_t>]: a delta and the gid of the neighbour
    that produced it. *)
Record DependencyData (value_t : Type) := {
  parent_gid : vid_t;
  value : value_t;
}.
Arguments parent_gid {value_t} _.
Arguments value {value_t} _.

(** [DenseVertexSet<vid_t>] *)
Abbreviation DenseVertexSet := (gset vertex_t).

(** The state containers owned by the kernel instance and addressed by the
    worker: [values_], [deltas_], [curr_modified_], [next_modified_]. *)
Record app_state (value_t : Type) := {
  values_ : vertex_t → value_t;
  deltas_ : vertex_t → DependencyData value_t;
  curr_modified_ : DenseVertexSet;
  next_modified_ : DenseVertexSet;
}.
Arguments values_ {value_t} _.
Arguments deltas_ {value_t} _.
Arguments curr_modified_ {value_t} _.
Arguments next_modified_ {value_t} _.

(** The kernel interface, [APP_T].  The kernel is a template parameter of the
    worker; its operations are the ones the worker calls.  [value_ne] is
    [operator!=] on [value_t]; [Reset] is [DependencyData::Reset].  [Compute]
    and [AccumulateTo] write the delta array (and, for [Compute], the vertex
    set they are handed). *)
Class TraversalApp (value_t : Type) := {
  GetIdentityElement : value_t;
  value_ne : value_t → value_t → bool;
  Reset : value_t → DependencyData value_t → DependencyData value_t;
  Init : fragment_t → app_state value_t;
  AccumulateTo :
    vertex_t → DependencyData value_t → (vertex_t → DependencyData value_t) →
    bool * (vertex_t → DependencyData value_t);
  CombineValueDelta :
    value_t → DependencyData value_t → bool * value_t * DependencyData value_t;
  Compute :
    fragment_t → vertex_t → value_t → DependencyData value_t →
    (vertex_t → DependencyData value_t) → DenseVertexSet →
    (vertex_t → DependencyData value_t) * DenseVertexSet;
}.

(** ** The incremental fragment builder and the flags *)

Record IncFragmentBuilder := {
  GetDeletedEdgesGid : list (vid_t * vid_t);
  Build : fragment_t;
}.

Record flags := {
  FLAGS_cilk : bool;
  FLAGS_directed : bool;
  FLAGS_efile_update : string;
  (** [IncFragmentBuilder<fragment_t>(fragment_, FLAGS_directed)] followed by
      [Init(FLAGS_efile_update)] *)
  inc_fragment_builder : fragment_t → bool → string → IncFragmentBuilder;
}.

(** ** Results of a run *)

Inductive result (A : Type) :=
| Ok (a : A)
| CheckFailed   (* a [CHECK] aborted the worker *)
| OutOfFuel.    (* the round budget of the model was used up *)
Arguments Ok {A} _.
Arguments CheckFailed {A}.
Arguments OutOfFuel {A}.

Definition rbind {A B} (r : result A) (k : A → result B) : result B :=
  match r with
  | Ok a => k a
  | CheckFailed => CheckFailed
  | OutOfFuel => OutOfFuel
  end.

Fixpoint rmapM {A B} (f : A → result B) (l : list A) : result (list B) :=
  match l with
  | [] => Ok []
  | a :: l' => rbind (f a) (λ b, rbind (rmapM f l') (λ bs, Ok (b :: bs)))
  end.

(** ** Events, the message manager and the worker *)

Section Worker.
Context {value_t : Type} `{K : !TraversalApp value_t}.
Variable FLAGS : flags.

Abbreviation delta_t := (DependencyData value_t).

(** A message payload: [None] is [grape::EmptyType] (the reset loop), [Some d]
    a [DependencyData] (the batch loop and the kickoff round). *)
Abbreviation payload_t := (option delta_t).

(** What the log sees. *)
Inductive severity := INFO | ERROR.

(** Calls of the worker on its collaborators, in program order. *)
Inductive event :=
| EvBarrier                                   (* MPI_Barrier *)
| EvStart                                     (* messages_.Start *)
| EvStartARound                               (* messages_.StartARound *)
| EvInitChannels                              (* messages_.InitChannels *)
| EvFinishARound                              (* messages_.FinishARound *)
| EvForceContinue                             (* messages_.ForceContinue *)
| EvToTerminate (b : bool)                    (* messages_.ToTerminate and its answer *)
| EvProcess (v : vertex_t) (msg : payload_t)  (* a handler call of ParallelProcess *)
| EvSync (v : vertex_t) (msg : payload_t)     (* SyncStateOnOuterVertex *)
| EvAppInit                                   (* app_->Init *)
| EvCombineValueDelta (u : vertex_t)
| EvCompute (u : vertex_t) (last : value_t) (delta : delta_t)
| EvBuild                                     (* inc_fragment_builder.Build *)
| EvSum (local : nat)                         (* communicator.Sum *)
| EvLog (s : severity) (text : string).

(** Modelled from the spec: the message manager ([ParallelMessageManager],
    whose code is not part of the worker's file), after section 4.4 and the
    ordering guarantees of section 5.  [SyncStateOnOuterVertex] enqueues a
    payload for the owner of an outer vertex; [FinishARound] ends the round
    for all workers, delivers what was enqueued and records whether the round
    was quiescent (nothing in flight and no [ForceContinue] vote);
    [ToTerminate] reports what the previous [FinishARound] saw;
    [StartARound] opens a round, with no vote cast yet. *)
Record message_manager_t := {
  inbox : list (vertex_t * payload_t);        (* delivered, as local handles *)
  outbox : list (fid_t * vid_t * payload_t);  (* enqueued in this round *)
  force_continue : bool;                      (* this round's vote *)
  to_terminate : bool;                        (* what the last FinishARound saw *)
}.

(** The local variables of [deltaCompute] (lines 81-103), which live across
    its rounds. *)
Record deltaCompute_locals := {
  inner_vertices : list vertex_t;             (* of the fragment at entry *)
  outer_vertices : list vertex_t;             (* re-read after Build *)
  builder : IncFragmentBuilder;
  curr_modified : DenseVertexSet;
  next_modified : DenseVertexSet;
  reset_vertices : DenseVertexSet;
}.

Record worker := {
  app_ : app_state value_t;
  fragment_ : fragment_t;
  messages_ : message_manager_t;
  worker_id : nat;                            (* comm_spec_.worker_id() *)
  frame : deltaCompute_locals;                (* meaningful inside deltaCompute *)
  trace : list event;
}.

Definition emit (e : event) (w : worker) : worker :=
  {| app_ := app_ w; fragment_ := fragment_ w; messages_ := messages_ w;
     worker_id := worker_id w; frame := frame w; trace := trace w ++ [e] |}.

Definition set_app (a : app_state value_t) (w : worker) : worker :=
  {| app_ := a; fragment_ := fragment_ w; messages_ := messages_ w;
     worker_id := worker_id w; frame := frame w; trace := trace w |}.

Definition set_fragment (f : fragment_t) (w : worker) : worker :=
  {| app_ := app_ w; fragment_ := f; messages_ := messages_ w;
     worker_id := worker_id w; frame := frame w; trace := trace w |}.

Definition set_messages (m : message_manager_t) (w : worker) : worker :=
  {| app_ := app_ w; fragment_ := fragment_ w; messages_ := m;
     worker_id := worker_id w; frame := frame w; trace := trace w |}.

Definition set_frame (l : deltaCompute_locals) (w : worker) : worker :=
  {| app_ := app_ w; fragment_ := fragment_ w; messages_ := messages_ w;
     worker_id := worker_id w; frame := l; trace := trace w |}.

Definition set_values (f : vertex_t → value_t) (a : app_state value_t) :=
  {| values_ := f; deltas_ := deltas_ a;
     curr_modified_ := curr_modified_ a; next_modified_ := next_modified_ a |}.

Definition set_deltas (f : vertex_t → delta_t) (a : app_state value_t) :=
  {| values_ := values_ a; deltas_ := f;
     curr_modified_ := curr_modified_ a; next_modified_ := next_modified_ a |}.

Definition set_curr_modified_ (s : DenseVertexSet) (a : app_state value_t) :=
  {| values_ := values_ a; deltas_ := deltas_ a;
     curr_modified_ := s; next_modified_ := next_modified_ a |}.

Definition set_next_modified_ (s : DenseVertexSet) (a : app_state value_t) :=
  {| values_ := values_ a; deltas_ := deltas_ a;
     curr_modified_ := curr_modified_ a; next_modified_ := s |}.

Definition set_outer_vertices (r : list vertex_t) (l : deltaCompute_locals) :=
  {| inner_vertices := inner_vertices l; outer_vertices := r;
     builder := builder l; curr_modified := curr_modified l;
     next_modified := next_modified l; reset_vertices := reset_vertices l |}.

Definition set_curr_modified (s : DenseVertexSet) (l : deltaCompute_locals) :=
  {| inner_vertices := inner_vertices l; outer_vertices := outer_vertices l;
     builder := builder l; curr_modified := s;
     next_modified := next_modified l; reset_vertices := reset_vertices l |}.

Definition set_next_modified (s : DenseVertexSet) (l : deltaCompute_locals) :=
  {| inner_vertices := inner_vertices l; outer_vertices := outer_vertices l;
     builder := builder l; curr_modified := curr_modified l;
     next_modified := s; reset_vertices := reset_vertices l |}.

Definition set_reset_vertices (s : DenseVertexSet) (l : deltaCompute_locals) :=
  {| inner_vertices := inner_vertices l; outer_vertices := outer_vertices l;
     builder := builder l; curr_modified := curr_modified l;
     next_modified := next_modified l; reset_vertices := s |}.

(** [app_->DeltaParentGid(v)]: the parent recorded in [deltas_[v]]. *)
Definition DeltaParentGid (a : app_state value_t) (v : vertex_t) : vid_t :=
  parent_gid (deltas_ a v).

(** [LOG(INFO)] guarded by [comm_spec_.worker_id() == grape::kCoordinatorRank]. *)
Definition coordinator_log (text : string) (w : worker) : worker :=
  if decide (worker_id w = kCoordinatorRank) then emit (EvLog INFO text) w else w.

(** Modelled from the spec: [ForEach(set, range, f)] and its variants
    [ForEachSimple] and [ForEachCilk] of the parallel engine (sections 4.5
    and 4.6: "for every u in set ∩ range"), run in the order of [range]. *)
Definition ForEach {S : Type} (set : DenseVertexSet) (range : list vertex_t)
    (f : vertex_t → S → S) (s : S) : S :=
  foldl (λ s u, f u s) s (filter (λ u, u ∈ set) range).

(** *** Message manager operations (one worker's side) *)

(** Modelled from the spec: [StartARound] opens a round (section 4.4);
    nothing is enqueued and no vote is cast yet. *)
Definition StartARound (w : worker) : worker :=
  emit EvStartARound
    (set_messages {| inbox := inbox (messages_ w); outbox := [];
                     force_continue := false;
                     to_terminate := to_terminate (messages_ w) |} w).

(** Modelled from the spec: [InitChannels] allocates the per-thread channels
    (section 4.1); it moves no message. *)
Definition InitChannels (w : worker) : worker := emit EvInitChannels w.

(** Modelled from the spec: [ForceContinue] votes "not done" for the
    current round (section 4.4). *)
Definition ForceContinue (w : worker) : worker :=
  emit EvForceContinue
    (set_messages {| inbox := inbox (messages_ w); outbox := outbox (messages_ w);
                     force_continue := true;
                     to_terminate := to_terminate (messages_ w) |} w).

(** Modelled from the spec: [channels[tid].SyncStateOnOuterVertex( *fragment_,
    v, msg)] enqueues [msg] for the worker that owns the inner counterpart of
    the outer vertex [v] (section 4.4). *)
Definition SyncStateOnOuterVertex (v : vertex_t) (msg : payload_t) (w : worker) : worker :=
  let frag := fragment_ w in
  emit (EvSync v msg)
    (set_messages {| inbox := inbox (messages_ w);
                     outbox := outbox (messages_ w) ++
                               [(GetFragId frag v, Vertex2Gid frag v, msg)];
                     force_continue := force_continue (messages_ w);
                     to_terminate := to_terminate (messages_ w) |} w).

(** Modelled from the spec: [ParallelProcess] dispatches the received
    messages (section 4.4); it takes them out of the manager. *)
Definition take_inbox (w : worker) : list (vertex_t * payload_t) * worker :=
  (inbox (messages_ w),
   set_messages {| inbox := []; outbox := outbox (messages_ w);
                   force_continue := force_continue (messages_ w);
                   to_terminate := to_terminate (messages_ w) |} w).

(** *** Synchronisation points (all workers) *)

(** Modelled from the spec: the messages of a round that are addressed to
    fragment [fid], translated to the handles of the receiving fragment
    (section 4.4: the vertex handle "is already translated to the local
    fragment"). *)
Definition deliver_to (fid : fid_t) (frag : fragment_t)
    (sent : list (fid_t * vid_t * payload_t)) : list (vertex_t * payload_t) :=
  omap (λ m : fid_t * vid_t * payload_t,
          let '(dst, gid, msg) := m in
          if decide (dst = fid)
          then (λ v, (v, msg)) <$> Gid2Vertex frag gid
          else None) sent.

(** Modelled from the spec: a worker keeps the round from being quiescent
    when it has messages in flight or has voted with [ForceContinue]
    (section 4.4). *)
Definition active (w : worker) : bool :=
  negb (bool_decide (length (outbox (messages_ w)) = 0)) || force_continue (messages_ w).

(** Modelled from the spec: [FinishARound] ends the round for all workers:
    what was sent in the round is delivered for the next one (section 5) and
    the round's quiescence is recorded (section 4.4). *)
Definition FinishARound (ws : list worker) : list worker :=
  let sent := concat (map (λ w, outbox (messages_ w)) ws) in
  let quiescent := forallb (λ w, negb (active w)) ws in
  imap (λ fid w,
          emit EvFinishARound
            (set_messages {| inbox := inbox (messages_ w) ++
                                      deliver_to fid (fragment_ w) sent;
                             outbox := [];
                             force_continue := force_continue (messages_ w);
                             to_terminate := quiescent |} w)) ws.

(** Modelled from the spec: [ToTerminate] is true iff the previous
    [FinishARound] saw global quiescence (section 4.4). *)
Definition ToTerminate (ws : list worker) : bool * list worker :=
  let b := forallb (λ w, to_terminate (messages_ w)) ws in
  (b, map (emit (EvToTerminate b)) ws).

(** ** [deltaCompute] *)

(** Lines 92-96: the gids of all vertices of the fragment. *)
Definition local_gid_set (frag : fragment_t) : gset vid_t :=
  list_to_set (map (Vertex2Gid frag) (Vertices frag)).

(** Lines 106-119: one deleted edge.  [CHECK] aborts when a gid cannot be
    translated. *)
Definition seed_edge (frag : fragment_t) (a : app_state value_t)
    (edge : vid_t * vid_t) (curr : DenseVertexSet) : result DenseVertexSet :=
  let u_gid := edge.1 in
  let v_gid := edge.2 in
  if bool_decide (u_gid ∈ local_gid_set frag) && IsInnerGid frag v_gid then
    match Gid2Vertex frag u_gid with
    | None => CheckFailed
    | Some u =>
        match Gid2Vertex frag v_gid with
        | None => CheckFailed
        | Some v =>
            let parent_gid := DeltaParentGid a v in
            if decide (parent_gid = u_gid) then Ok ({[v]} ∪ curr) else Ok curr
        end
    end
  else Ok curr.

(** Lines 105-120: the loop over the deleted edges. *)
Fixpoint seed_edges (frag : fragment_t) (a : app_state value_t)
    (deleted_edges : list (vid_t * vid_t)) (curr : DenseVertexSet)
    : result DenseVertexSet :=
  match deleted_edges with
  | [] => Ok curr
  | edge :: rest =>
      rbind (seed_edge frag a edge curr) (seed_edges frag a rest)
  end.

(** Lines 81-126: the builder is initialised, the ranges are read, the three
    vertex sets are initialised (empty) and [curr_modified] is seeded. *)
Definition deltaCompute_seed (w : worker) : result worker :=
  let b := inc_fragment_builder FLAGS (fragment_ w) (FLAGS_directed FLAGS)
             (FLAGS_efile_update FLAGS) in
  let w := coordinator_log "Parsing update file" w in
  let frag := fragment_ w in
  rbind (seed_edges frag (app_ w) (GetDeletedEdgesGid b) ∅)
    (λ curr,
       let l := {| inner_vertices := InnerVertices frag;
                   outer_vertices := OuterVertices frag;
                   builder := b;
                   curr_modified := curr;
                   next_modified := ∅;
                   reset_vertices := ∅ |} in
       Ok (coordinator_log "Resetting" (set_frame l w))).

(** Lines 130-134: every received vertex is inserted into [curr_modified]. *)
Definition reset_process (w : worker) : worker :=
  let (msgs, w) := take_inbox w in
  foldl (λ w (m : vertex_t * payload_t),
           set_frame (set_curr_modified ({[m.1]} ∪ curr_modified (frame w)) (frame w))
             (emit (EvProcess m.1 m.2) w))
        w msgs.

(** Lines 138-147: the out-neighbours of [u] whose recorded parent is [u]. *)
Definition reset_mark (frag : fragment_t) (a : app_state value_t)
    (u : vertex_t) (next : DenseVertexSet) : DenseVertexSet :=
  let u_gid := Vertex2Gid frag u in
  foldl (λ next (e : nbr_t),
           let v := neighbor e in
           if decide (DeltaParentGid a v = u_gid) then {[v]} ∪ next else next)
        next (GetOutgoingAdjList frag u).

(** Lines 152-154: [u] is cleared. *)
Definition reset_clear (u : vertex_t) (w : worker) : worker :=
  let a := app_ w in
  let a := set_values (<[u := GetIdentityElement]> (values_ a)) a in
  let a := set_deltas (<[u := Reset GetIdentityElement (deltas_ a u)]> (deltas_ a)) a in
  set_frame (set_reset_vertices ({[u]} ∪ reset_vertices (frame w)) (frame w))
    (set_app a w).

(** Lines 159-161: an empty payload for the owner of [v]; the mirror is reset. *)
Definition reset_send (v : vertex_t) (w : worker) : worker :=
  let w := SyncStateOnOuterVertex v None w in
  let a := app_ w in
  set_app (set_deltas (<[v := Reset GetIdentityElement (deltas_ a v)]> (deltas_ a)) a) w.

(** Lines 129-162: a round of the reset loop up to [FinishARound]. *)
Definition reset_round (w : worker) : worker :=
  let w := StartARound w in
  let w := reset_process w in
  let l := frame w in
  let next :=
    ForEach (curr_modified l) (inner_vertices l)
      (reset_mark (fragment_ w) (app_ w)) (next_modified l) in
  let w := set_frame (set_next_modified next l) w in
  let w := ForEach (curr_modified l) (inner_vertices l) reset_clear w in
  ForEach next (outer_vertices l) reset_send w.

(** Lines 165-170: the vote and the swap, after [FinishARound]. *)
Definition reset_round_end (w : worker) : worker :=
  let w := if decide (0 < size (next_modified (frame w))) then ForceContinue w else w in
  let l := frame w in
  (* curr_modified.Clear(); curr_modified.Swap(next_modified) *)
  set_frame (set_next_modified ∅ (set_curr_modified (next_modified l) l)) w.

(** Lines 128-171: the do-while loop, for all workers. *)
Fixpoint reset_loop (fuel : nat) (ws : list worker) : result (list worker) :=
  match fuel with
  | 0 => OutOfFuel
  | S fuel =>
      let ws := map reset_round ws in
      let ws := FinishARound ws in
      let ws := map reset_round_end ws in
      let (terminate, ws) := ToTerminate ws in
      if terminate then Ok ws else reset_loop fuel ws
  end.

(** ** What the reset phase clears *)

(** The condition under which line 117 runs for a deleted edge: [v] is the
    vertex of the inner gid [edge.2], the gid [edge.1] belongs to a vertex of
    the fragment, and it is the parent recorded for [v]. *)
Definition seeds (frag : fragment_t) (a : app_state value_t)
    (edge : vid_t * vid_t) (v : vertex_t) : Prop :=
  edge.1 ∈ local_gid_set frag ∧ IsInnerGid frag edge.2 = true ∧
  Gid2Vertex frag edge.2 = Some v ∧ DeltaParentGid a v = edge.1.

(** The vertices a worker has grounds to clear, with the kernel state [a] it
    had when [deltaCompute] was entered: the seeds, the vertices [named] by
    the invalidation messages it received, and every out-neighbour of such an
    inner vertex [u] whose recorded parent is [u]. *)
Inductive invalidated (frag : fragment_t) (a : app_state value_t)
    (deleted_edges : list (vid_t * vid_t)) (named : vertex_t → Prop)
    : vertex_t → Prop :=
| invalidated_seed edge v :
    edge ∈ deleted_edges → seeds frag a edge v →
    invalidated frag a deleted_edges named v
| invalidated_named v :
    named v → invalidated frag a deleted_edges named v
| invalidated_child u e :
    invalidated frag a deleted_edges named u →
    u ∈ InnerVertices frag →
    e ∈ GetOutgoingAdjList frag u →
    DeltaParentGid a (neighbor e) = Vertex2Gid frag u →
    invalidated frag a deleted_edges named (neighbor e).

(** The handler calls among some events: the vertices named by messages. *)
Definition named_in (es : list event) (v : vertex_t) : Prop :=
  ∃ msg, EvProcess v msg ∈ es.

(** Seeding and the reset loop (lines 80-171), for all workers. *)
Definition reset_phase (fuel : nat) (ws : list worker) : result (list worker) :=
  rbind (rmapM deltaCompute_seed ws) (reset_loop fuel).

(** *** The reset claim as the specification words it (P3)

    The parent recorded for a gid is read where the gid is owned. *)
Definition parent_of (ws : list worker) (g : vid_t) : option vid_t :=
  match list_find (λ w, IsInnerGid (fragment_ w) g = true) ws with
  | Some (_, w) => DeltaParentGid (app_ w) <$> Gid2Vertex (fragment_ w) g
  | None => None
  end.

(** The chain of recorded parents of [g] reaches a root (a vertex whose
    recorded parent is no vertex) without traversing a deleted edge. *)
Inductive reaches_root (ws : list worker) (deleted_edges : list (vid_t * vid_t))
    : vid_t → Prop :=
| reaches_root_here g p :
    parent_of ws g = Some p → parent_of ws p = None →
    reaches_root ws deleted_edges g
| reaches_root_up g p :
    parent_of ws g = Some p → (p, g) ∉ deleted_edges →
    reaches_root ws deleted_edges p →
    reaches_root ws deleted_edges g.

(** The chain of recorded parents of [g] traverses a deleted edge. *)
Inductive through_deleted (ws : list worker) (deleted_edges : list (vid_t * vid_t))
    : vid_t → Prop :=
| through_deleted_here g p :
    parent_of ws g = Some p → (p, g) ∈ deleted_edges →
    through_deleted ws deleted_edges g
| through_deleted_up g p :
    parent_of ws g = Some p → through_deleted ws deleted_edges p →
    through_deleted ws deleted_edges g.

(** P3 for the workers [ws] that enter [deltaCompute] and the workers [ws']
    that leave the reset loop. *)
Definition reset_subtree_sound (deleted_edges : list (vid_t * vid_t))
    (ws ws' : list worker) : Prop :=
  ∀ i w w' v,
    ws !! i = Some w → ws' !! i = Some w' → v ∈ InnerVertices (fragment_ w) →
    let g := Vertex2Gid (fragment_ w) v in
    (through_deleted ws deleted_edges g →
     values_ (app_ w') v = GetIdentityElement) ∧
    (reaches_root ws deleted_edges g → v ∉ reset_vertices (frame w')).

(** *** The end of a reset round as the specification words it

    Section 4.6, steps 5 and 6: "If [next_modified.Count() > 0],
    ForceContinue.  FinishARound.  Swap curr/next."  The vote comes before
    [FinishARound], as in the batch loop (lines 311-317); in the source it
    comes after (lines 163-167, [reset_round_end]). *)
Definition reset_vote (w : worker) : worker :=
  if decide (0 < size (next_modified (frame w))) then ForceContinue w else w.

Definition reset_swap (w : worker) : worker :=
  let l := frame w in
  set_frame (set_next_modified ∅ (set_curr_modified (next_modified l) l)) w.

Fixpoint reset_loop_as_specified (fuel : nat) (ws : list worker)
    : result (list worker) :=
  match fuel with
  | 0 => OutOfFuel
  | S fuel =>
      let ws := map reset_round ws in
      let ws := map reset_vote ws in
      let ws := FinishARound ws in
      let ws := map reset_swap ws in
      let (terminate, ws) := ToTerminate ws in
      if terminate then Ok ws else reset_loop_as_specified fuel ws
  end.

(** Lines 173-184: the count of reset vertices is summed and logged. *)
Definition deltaCompute_count (w : worker) : worker :=
  let w := emit (EvSum (size (reset_vertices (frame w)))) w in
  coordinator_log "Start a round from all vertices"
    (coordinator_log "# of reset vertices" w).

(** Lines 188-197: [VertexArray]s over the inner vertices, filled from the
    kernel's arrays. *)
Definition snapshot {A : Type} (range : list vertex_t) (arr : vertex_t → A)
    : gmap vertex_t A :=
  foldl (λ m v, <[v := arr v]> m) ∅ range.

(** Lines 208-209: one vertex is copied to the new arrays. *)
Definition copy_back (values : gmap vertex_t value_t) (deltas : gmap vertex_t delta_t)
    (v : vertex_t) (a : app_state value_t) : app_state value_t :=
  let a := match values !! v with
           | Some x => set_values (<[v := x]> (values_ a)) a
           | None => a
           end in
  match deltas !! v with
  | Some d => set_deltas (<[v := d]> (deltas_ a)) a
  | None => a
  end.

(** Lines 188-210: snapshot, [Build], [app_->Init], copy back. *)
Definition deltaCompute_rebuild (w : worker) : worker :=
  let l := frame w in
  let values := snapshot (inner_vertices l) (values_ (app_ w)) in
  let deltas := snapshot (inner_vertices l) (deltas_ (app_ w)) in
  let w := emit EvBuild (set_fragment (Build (builder l)) w) in
  let w := set_frame (set_outer_vertices (OuterVertices (fragment_ w)) l) w in
  let w := emit EvAppInit (set_app (Init (fragment_ w)) w) in
  set_app (foldl (λ a v, copy_back values deltas v a) (app_ w) (inner_vertices l)) w.

(** Lines 215-220: the body of the kickoff loop. *)
Definition kickoff_compute (u : vertex_t) (w : worker) : worker :=
  let a := app_ w in
  let val := values_ a u in
  let delta := deltas_ a u in
  if value_ne (value delta) GetIdentityElement then
    let r := Compute (fragment_ w) u val delta (deltas_ a)
               (next_modified (frame w)) in
    set_frame (set_next_modified r.2 (frame w))
      (set_app (set_deltas r.1 a) (emit (EvCompute u val delta) w))
  else w.

(** Lines 225-229 and 303-308: a delta is sent unless its value is the
    identity element. *)
Definition send_delta (v : vertex_t) (w : worker) : worker :=
  let delta_to_send := deltas_ (app_ w) v in
  if value_ne (value delta_to_send) GetIdentityElement
  then SyncStateOnOuterVertex v (Some delta_to_send) w
  else w.

(** Lines 213-230: the kickoff round up to [FinishARound]. *)
Definition kickoff_round (w : worker) : worker :=
  let w := StartARound w in
  let w := foldl (λ w u, kickoff_compute u w) w (inner_vertices (frame w)) in
  ForEach (next_modified (frame w)) (outer_vertices (frame w)) send_delta w.

(** Line 232: [app_->next_modified_.Swap(next_modified)]. *)
Definition kickoff_end (w : worker) : worker :=
  let a := app_ w in
  let l := frame w in
  set_frame (set_next_modified (next_modified_ a) l)
    (set_app (set_next_modified_ (next_modified l) a) w).

(** Lines 80-233, for all workers. *)
Definition deltaCompute (fuel : nat) (ws : list worker) : result (list worker) :=
  rbind (rmapM deltaCompute_seed ws) (λ ws,
  rbind (reset_loop fuel ws) (λ ws,
    let ws := map (λ w, kickoff_round (deltaCompute_rebuild (deltaCompute_count w))) ws in
    let ws := FinishARound ws in
    Ok (map kickoff_end ws))).

(** ** [Query] *)

(** Lines 261-268: received deltas are accumulated. *)
Definition batch_process (w : worker) : worker :=
  let (msgs, w) := take_inbox w in
  foldl (λ w (m : vertex_t * payload_t),
           match m.2 with
           | Some msg =>
               let w := emit (EvProcess m.1 (Some msg)) w in
               let a := app_ w in
               let r := AccumulateTo m.1 msg (deltas_ a) in
               let a := set_deltas r.2 a in
               set_app (if r.1 then set_curr_modified_ ({[m.1]} ∪ curr_modified_ a) a
                        else a) w
           | None => w (* not a DependencyData payload *)
           end)
        w msgs.

(** Lines 275-281 and 286-294: the body of the compute loop. *)
Definition batch_compute (u : vertex_t) (w : worker) : worker :=
  let a := app_ w in
  let val := values_ a u in
  let last_value := val in
  let delta := deltas_ a u in
  let c := CombineValueDelta val delta in
  let a := set_deltas (<[u := c.2]> (deltas_ a))
             (set_values (<[u := c.1.2]> (values_ a)) a) in
  let w := set_app a (emit (EvCombineValueDelta u) w) in
  if c.1.1 then
    let r := Compute (fragment_ w) u last_value c.2 (deltas_ a) (next_modified_ a) in
    set_app (set_next_modified_ r.2 (set_deltas r.1 a))
      (emit (EvCompute u last_value c.2) w)
  else w.

(** Lines 257-313: a round of the batch loop up to [FinishARound], on the
    ranges read at lines 254-255. *)
Definition batch_round_on (inner_vertices outer_vertices : list vertex_t)
    (w : worker) : worker :=
  let w := StartARound w in
  let w := set_app (set_next_modified_ ∅ (app_ w)) w in
  let w := batch_process w in
  let w := if FLAGS_cilk FLAGS
           then ForEach (curr_modified_ (app_ w)) inner_vertices batch_compute w
           else ForEach (curr_modified_ (app_ w)) inner_vertices batch_compute w in
  let w := ForEach (next_modified_ (app_ w)) outer_vertices send_delta w in
  if decide (0 < size (next_modified_ (app_ w))) then ForceContinue w else w.

(** Lines 253-313: the ranges are read from the worker's fragment at the
    start of the round. *)
Definition batch_round (w : worker) : worker :=
  let inner_vertices := InnerVertices (fragment_ w) in
  let outer_vertices := OuterVertices (fragment_ w) in
  batch_round_on inner_vertices outer_vertices w.

(** Lines 347-348: [app_->next_modified_.Swap(app_->curr_modified_)]. *)
Definition round_end (w : worker) : worker :=
  let a := app_ w in
  set_app (set_curr_modified_ (next_modified_ a)
             (set_next_modified_ (curr_modified_ a) a)) w.

(** Lines 236-249: the start of [Query] up to the first [FinishARound]. *)
Definition Query_begin (w : worker) : worker :=
  let w := emit EvBarrier w in
  let w := emit EvAppInit (set_app (Init (fragment_ w)) w) in
  let w := emit EvStart w in
  let w := StartARound w in
  InitChannels w.

Definition missing_update : string := "Missing efile_update or efile_updated".

(** Lines 252-349: the loop of [Query], for all workers. *)
Fixpoint Query_loop (fuel : nat) (batch_stage : bool) (ws : list worker)
    : result (list worker) :=
  match fuel with
  | 0 => OutOfFuel
  | S fuel =>
      let ws := FinishARound (map batch_round ws) in
      let (terminate, ws) := ToTerminate ws in
      if terminate then
        if batch_stage then
          let ws := map (coordinator_log "Batch time") ws in
          if negb (String.eqb (FLAGS_efile_update FLAGS) EmptyString) then
            rbind (deltaCompute fuel ws)
              (λ ws, Query_loop fuel false (map round_end ws))
          else Ok (map (emit (EvLog ERROR missing_update)) ws)
        else Ok (map (coordinator_log "Inc time") ws)
      else Query_loop fuel batch_stage (map round_end ws)
  end.

(** The batch phase alone (section 4.5): rounds of the batch loop until
    [ToTerminate]. *)
Fixpoint batch_phase (fuel : nat) (ws : list worker) : result (list worker) :=
  match fuel with
  | 0 => OutOfFuel
  | S fuel =>
      let ws := FinishARound (map batch_round ws) in
      let (terminate, ws) := ToTerminate ws in
      if terminate then Ok ws else batch_phase fuel (map round_end ws)
  end.

(** A round of the batch loop that does not terminate it (lines 253-321 and
    347-348), for all workers. *)
Definition batch_iteration (ws : list worker) : list worker :=
  map round_end (ToTerminate (FinishARound (map batch_round ws))).2.

(** Lines 235-351. *)
Definition Query (fuel : nat) (ws : list worker) : result (list worker) :=
  let ws := FinishARound (map Query_begin ws) in
  rbind (Query_loop fuel true ws) (λ ws, Ok (map (emit EvBarrier) ws)).
End Worker.

(** ** A kernel: single-source shortest paths

    Modelled from the spec: the kernel of scenarios S1-S5 (the kernels are
    not part of the worker's file), after the kernel contract of section 6.1.
    Values are distances, the identity element is the largest value,
    accumulation keeps the smaller distance together with the gid of the
    neighbour that offered it, and [Compute] relaxes the outgoing edges. *)
Module SSSP.

(** Modelled from the spec: the identity element, "no information". *)
Definition infinity : N := 18446744073709551615.

(** Modelled from the spec: the parent recorded where no neighbour produced
    the delta; it is the gid of no vertex. *)
Definition no_parent : vid_t := 18446744073709551615%N.

(** Modelled from the spec: the delta every entry holds after [Init]. *)
Definition identity_delta : DependencyData N :=
  {| parent_gid := no_parent; value := infinity |}.

(** Modelled from the spec: [AccumulateTo(v, msg)] merges [msg] into [D[v]]
    and returns true iff [D[v]] strictly improved (section 6.1). *)
Definition accumulate (v : vertex_t) (msg : DependencyData N)
    (deltas : vertex_t → DependencyData N) : bool * (vertex_t → DependencyData N) :=
  if (value msg <? value (deltas v))%N then (true, <[v := msg]> deltas)
  else (false, deltas).

(** Modelled from the spec: [Compute] emits a delta onto one neighbour and
    inserts it into the set when its delta was updated (section 6.1). *)
Definition relax (frag : fragment_t) (u : vertex_t) (delta : DependencyData N)
    (st : (vertex_t → DependencyData N) * DenseVertexSet) (e : nbr_t) :=
  let msg := {| parent_gid := Vertex2Gid frag u;
                value := (value delta + data e)%N |} in
  let r := accumulate (neighbor e) msg st.1 in
  (r.2, if r.1 then {[neighbor e]} ∪ st.2 else st.2).

(** Modelled from the spec: [Init] sets all entries to the identity
    (section 6.1); the source, where it is an inner vertex, starts with the
    delta 0 and is the initial frontier (scenario S1). *)
Definition init (source : vid_t) (frag : fragment_t) : app_state N :=
  let is_source v := bool_decide (v ∈ InnerVertices frag ∧ Vertex2Gid frag v = source) in
  {| values_ := λ _, infinity;
     deltas_ := λ v, if is_source v
                     then {| parent_gid := no_parent; value := 0%N |}
                     else identity_delta;
     curr_modified_ := list_to_set (filter (λ v, Vertex2Gid frag v = source)
                                      (InnerVertices frag));
     next_modified_ := ∅ |}.

(** Modelled from the spec: the kernel of section 6.1 for shortest paths.
    [CombineValueDelta] returns true iff the delta strictly improves the
    value and merges it; the delta is left in place. *)
#[export] Instance kernel (source : vid_t) : TraversalApp N := {|
  GetIdentityElement := infinity;
  value_ne := λ a b, negb (a =? b)%N;
  Reset := λ x _, {| parent_gid := no_parent; value := x |};
  Init := init source;
  AccumulateTo := accumulate;
  CombineValueDelta := λ val delta,
    if (value delta <? val)%N then (true, value delta, delta)
    else (false, val, delta);
  Compute := λ frag u _ delta deltas next,
    foldl (relax frag u delta) (deltas, next) (GetOutgoingAdjList frag u);
|}.

End SSSP.

(** ** Concrete fragments and runs *)

(** A fragment given by tables: inner vertices with their gids, outer
    vertices with their gids and owners, and the edges out of inner
    vertices. *)
Record fragment_table := {
  ft_inner : list (vertex_t * vid_t);
  ft_outer : list (vertex_t * vid_t * fid_t);
  ft_edges : list (vertex_t * vertex_t * N);
}.

Definition table_gids (t : fragment_table) : list (vertex_t * vid_t) :=
  ft_inner t ++ map fst (ft_outer t).

Definition fragment_of (t : fragment_table) : fragment_t := {|
  InnerVertices := map fst (ft_inner t);
  OuterVertices := map (λ o, o.1.1) (ft_outer t);
  Vertex2Gid := λ v,
    default 0%N ((λ x, x.2.2) <$> list_find (λ p, p.1 = v) (table_gids t));
  Gid2Vertex := λ g,
    (λ x, x.2.1) <$> list_find (λ p, p.2 = g) (table_gids t);
  IsInnerGid := λ g, bool_decide (g ∈ map snd (ft_inner t));
  GetOutgoingAdjList := λ u,
    omap (λ e, if decide (e.1.1 = u)
               then Some {| neighbor := e.1.2; data := e.2 |} else None)
         (ft_edges t);
  GetFragId := λ v,
    default 0 ((λ x, x.2.2) <$> list_find (λ o, o.1.1 = v) (ft_outer t));
|}.

Definition no_messages {value_t} : message_manager_t (value_t := value_t) :=
  {| inbox := []; outbox := []; force_continue := false; to_terminate := false |}.

Definition no_frame : deltaCompute_locals :=
  {| inner_vertices := []; outer_vertices := [];
     builder := {| GetDeletedEdgesGid := []; Build := fragment_of {| ft_inner := []; ft_outer := []; ft_edges := [] |} |};
     curr_modified := ∅; next_modified := ∅; reset_vertices := ∅ |}.

(** The worker as constructed (lines 55-57) and initialised. *)
Definition new_worker {value_t} `{K : !TraversalApp value_t}
    (id : nat) (frag : fragment_t) : worker :=
  {| app_ := Init frag; fragment_ := frag; messages_ := no_messages;
     worker_id := id; frame := no_frame; trace := [] |}.

(** ** Two runs of the shortest-path kernel *)

Module Examples.
#[local] Open Scope N_scope.

(** A result that is [Ok], or no workers. *)
Definition workers_of {value_t} (r : result (list (worker (value_t := value_t))))
    : list worker :=
  match r with Ok ws => ws | _ => [] end.

Definition is_ok {A} (r : result A) : bool :=
  match r with Ok _ => true | _ => false end.

(** The workers that enter [deltaCompute]: the batch loop has terminated and
    the batch time has been logged (lines 321-331). *)
Definition after_batch (FLAGS : flags) (source : vid_t) (fuel : nat)
    (ws : list (worker (value_t := N))) : list worker :=
  map (coordinator_log "Batch time")
    (workers_of (batch_phase (K := SSSP.kernel source) FLAGS fuel
                   (FinishARound (map (Query_begin (K := SSSP.kernel source)) ws)))).

(** *** A chain on one worker (scenario S5)

    The path 1 → 2 → 3 → 4 → 5 with weights 1 and source 1; the update
    deletes the edge 2 → 3.  Handles are gids minus one. *)
Module Chain.

Definition graph : fragment_table :=
  {| ft_inner := [(0%nat, 1); (1%nat, 2); (2%nat, 3); (3%nat, 4); (4%nat, 5)];
     ft_outer := [];
     ft_edges := [(0%nat, 1%nat, 1); (1%nat, 2%nat, 1); (2%nat, 3%nat, 1);
                  (3%nat, 4%nat, 1)] |}.

Definition updated_graph : fragment_table :=
  {| ft_inner := [(0%nat, 1); (1%nat, 2); (2%nat, 3); (3%nat, 4); (4%nat, 5)];
     ft_outer := [];
     ft_edges := [(0%nat, 1%nat, 1); (2%nat, 3%nat, 1); (3%nat, 4%nat, 1)] |}.

(** The update file deletes 2 → 3. *)
Definition FLAGS : flags :=
  {| FLAGS_cilk := false; FLAGS_directed := true; FLAGS_efile_update := "update.e";
     inc_fragment_builder := λ _ _ _,
       {| GetDeletedEdgesGid := [(2, 3)]; Build := fragment_of updated_graph |} |}.

(** An update file without records. *)
Definition FLAGS_empty_update : flags :=
  {| FLAGS_cilk := false; FLAGS_directed := true; FLAGS_efile_update := "empty.e";
     inc_fragment_builder := λ frag _ _,
       {| GetDeletedEdgesGid := []; Build := frag |} |}.

Definition workers : list (worker (value_t := N)) :=
  [new_worker (K := SSSP.kernel 1) 0 (fragment_of graph)].

Definition workers_on_updated_graph : list (worker (value_t := N)) :=
  [new_worker (K := SSSP.kernel 1) 0 (fragment_of updated_graph)].

(** [Query] on the graph and the update. *)
Definition incremental : result (list (worker (value_t := N))) :=
  Query (K := SSSP.kernel 1) FLAGS 20 workers.

(** [Query] on the updated graph with an empty update. *)
Definition from_scratch : result (list (worker (value_t := N))) :=
  Query (K := SSSP.kernel 1) FLAGS_empty_update 20 workers_on_updated_graph.

(** The values of the inner vertices after a run. *)
Definition inner_values (r : result (list (worker (value_t := N)))) : list (list N) :=
  map (λ w, map (values_ (app_ w)) (InnerVertices (fragment_ w))) (workers_of r).

(** The worker that enters the reset loop. *)
Definition seeded : list (worker (value_t := N)) :=
  workers_of (rmapM (deltaCompute_seed FLAGS)
                (after_batch FLAGS 1 20 workers)).

End Chain.

(** *** Two workers and a mirror

    The graph s → a (10), a → v (1), s → v (1) with source s; gids s = 1,
    a = 2, v = 3.  Worker 0 owns a and mirrors v (handle 1) and s (handle 2);
    worker 1 owns s (handle 0) and v (handle 1) and mirrors a (handle 2):
    a fragment mirrors the sources and the targets of the edges at its inner
    vertices.  The update deletes s → a. *)
Module Mirror.

Definition graph0 : fragment_table :=
  {| ft_inner := [(0%nat, 2)];
     ft_outer := [(1%nat, 3, 1%nat); (2%nat, 1, 1%nat)];
     ft_edges := [(0%nat, 1%nat, 1)] |}.

Definition graph1 : fragment_table :=
  {| ft_inner := [(0%nat, 1); (1%nat, 3)];
     ft_outer := [(2%nat, 2, 0%nat)];
     ft_edges := [(0%nat, 2%nat, 10); (0%nat, 1%nat, 1)] |}.

Definition updated_graph0 : fragment_table :=
  {| ft_inner := [(0%nat, 2)];
     ft_outer := [(1%nat, 3, 1%nat)];
     ft_edges := [(0%nat, 1%nat, 1)] |}.

Definition updated_graph1 : fragment_table :=
  {| ft_inner := [(0%nat, 1); (1%nat, 3)];
     ft_outer := [(2%nat, 2, 0%nat)];
     ft_edges := [(0%nat, 1%nat, 1)] |}.

Definition deleted_edges : list (vid_t * vid_t) := [(1, 2)].

Definition FLAGS : flags :=
  {| FLAGS_cilk := false; FLAGS_directed := true; FLAGS_efile_update := "update.e";
     inc_fragment_builder := λ frag _ _,
       {| GetDeletedEdgesGid := deleted_edges;
          Build := if decide (length (InnerVertices frag) = 1%nat)
                   then fragment_of updated_graph0
                   else fragment_of updated_graph1 |} |}.

(** No update file. *)
Definition FLAGS_no_update : flags :=
  {| FLAGS_cilk := false; FLAGS_directed := true; FLAGS_efile_update := EmptyString;
     inc_fragment_builder := λ frag _ _,
       {| GetDeletedEdgesGid := []; Build := frag |} |}.

Definition workers : list (worker (value_t := N)) :=
  [new_worker (K := SSSP.kernel 1) 0 (fragment_of graph0);
   new_worker (K := SSSP.kernel 1) 1 (fragment_of graph1)].

(** The workers that enter [deltaCompute], and those that leave the reset
    loop. *)
Definition before_reset : list (worker (value_t := N)) :=
  after_batch FLAGS 1 20 workers.

Definition after_reset : list (worker (value_t := N)) :=
  workers_of (reset_phase (K := SSSP.kernel 1) FLAGS 20 before_reset).

End Mirror.

End Examples.

(** * Properties *)

Section Properties.
Context {value_t : Type} `{K : !TraversalApp value_t}.
Variable FLAGS : flags.

Implicit Types (w : worker (value_t := value_t)) (frag : fragment_t)
  (a : app_state value_t) (v u : vertex_t).

(** ** Logging leaves everything but the trace alone *)

Definition is_log (e : event (value_t := value_t)) : Prop :=
  ∃ s text, e = EvLog s text.

Lemma coordinator_log_app text w : app_ (coordinator_log text w) = app_ w.
Proof. unfold coordinator_log. by case_decide. Qed.

Lemma coordinator_log_fragment text w :
  fragment_ (coordinator_log text w) = fragment_ w.
Proof. unfold coordinator_log. by case_decide. Qed.

Lemma coordinator_log_messages text w :
  messages_ (coordinator_log text w) = messages_ w.
Proof. unfold coordinator_log. by case_decide. Qed.

Lemma coordinator_log_frame text w : frame (coordinator_log text w) = frame w.
Proof. unfold coordinator_log. by case_decide. Qed.

Lemma coordinator_log_worker_id text w :
  worker_id (coordinator_log text w) = worker_id w.
Proof. unfold coordinator_log. by case_decide. Qed.

Lemma coordinator_log_trace text w :
  ∃ logs, trace (coordinator_log text w) = trace w ++ logs ∧ Forall is_log logs.
Proof.
  unfold coordinator_log. case_decide.
  - exists [EvLog INFO text]. split; [done|].
    constructor; [by do 2 eexists | constructor].
  - exists []. by rewrite app_nil_r.
Qed.

(** ** Seeding (lines 92-120) *)

Lemma seed_edge_step frag a edge curr curr' :
  seed_edge frag a edge curr = Ok curr' →
  (∃ v, seeds frag a edge v ∧ curr' = {[v]} ∪ curr) ∨
  ((∀ v, ¬ seeds frag a edge v) ∧ curr' = curr).
Proof.
  unfold seed_edge, seeds.
  destruct (bool_decide (edge.1 ∈ local_gid_set frag)) eqn:Hu; simpl.
  - apply bool_decide_eq_true in Hu.
    destruct (IsInnerGid frag edge.2) eqn:Hin; simpl.
    + destruct (Gid2Vertex frag edge.1) as [u|]; [|done].
      destruct (Gid2Vertex frag edge.2) as [v|] eqn:Hv; [|done].
      case_decide as Hp; intros [= <-].
      * left. by exists v.
      * right. split; [|done]. intros v' (_ & _ & [= <-] & ?). done.
    + intros [= <-]. right. split; [|done]. by intros v (_ & ? & _).
  - apply bool_decide_eq_false in Hu.
    intros [= <-]. right. split; [|done]. by intros v (? & _).
Qed.

Lemma seed_edges_elem_of frag a edges curr curr' :
  seed_edges frag a edges curr = Ok curr' →
  ∀ v, v ∈ curr' ↔ v ∈ curr ∨ ∃ edge, edge ∈ edges ∧ seeds frag a edge v.
Proof.
  revert curr. induction edges as [|edge rest IH]; intros curr; simpl.
  - intros [= <-] v. split; [by left|]. intros [?|(e & He & _)]; [done|].
    by apply elem_of_nil in He.
  - destruct (seed_edge frag a edge curr) as [c| |] eqn:Hstep; simpl; [|done..].
    intros Hrest v. rewrite (IH _ Hrest v).
    apply seed_edge_step in Hstep as [(v0 & Hs & ->)|[Hno ->]].
    + rewrite elem_of_union, elem_of_singleton. split.
      * intros [[->|?]|(e & He & Hse)].
        -- right. exists edge. split; [left|done].
        -- by left.
        -- right. exists e. split; [by right|done].
      * intros [?|(e & He & Hse)]; [left; by right|].
        apply elem_of_cons in He as [->|He].
        -- left. left. destruct Hs as (_ & _ & H1 & _), Hse as (_ & _ & H2 & _).
           congruence.
        -- right. by exists e.
    + split.
      * intros [?|(e & He & Hse)]; [by left|].
        right. exists e. split; [by right|done].
      * intros [?|(e & He & Hse)]; [by left|].
        apply elem_of_cons in He as [->|He]; [by apply Hno in Hse|].
        right. by exists e.
Qed.

(** Seeding never aborts on a fragment that can translate its own gids. *)
Lemma seed_edges_total frag a edges curr :
  (∀ g, g ∈ local_gid_set frag → is_Some (Gid2Vertex frag g)) →
  (∀ g, IsInnerGid frag g = true → is_Some (Gid2Vertex frag g)) →
  ∃ curr', seed_edges frag a edges curr = Ok curr'.
Proof.
  intros Hloc Hin. revert curr.
  induction edges as [|edge rest IH]; intros curr; simpl; [by eexists|].
  unfold seed_edge.
  destruct (bool_decide (edge.1 ∈ local_gid_set frag)) eqn:Hu; simpl; [|apply IH].
  apply bool_decide_eq_true in Hu.
  destruct (IsInnerGid frag edge.2) eqn:Hi; simpl; [|apply IH].
  destruct (Hloc _ Hu) as [u ->]. destruct (Hin _ Hi) as [v ->].
  case_decide; simpl; apply IH.
Qed.

(** What seeding leaves: the seeded set, and nothing else changed but the
    log. *)
Lemma deltaCompute_seed_result w w' :
  deltaCompute_seed FLAGS w = Ok w' →
  (∀ v, v ∈ curr_modified (frame w') ↔
        ∃ edge, edge ∈ GetDeletedEdgesGid
                         (inc_fragment_builder FLAGS (fragment_ w)
                            (FLAGS_directed FLAGS) (FLAGS_efile_update FLAGS)) ∧
                seeds (fragment_ w) (app_ w) edge v) ∧
  messages_ w' = messages_ w ∧
  app_ w' = app_ w ∧
  (∃ logs, trace w' = trace w ++ logs ∧ Forall is_log logs).
Proof.
  intros H. unfold deltaCompute_seed in H.
  rewrite !coordinator_log_fragment, !coordinator_log_app in H.
  set (frag := fragment_ w) in *.
  set (deleted_edges := GetDeletedEdgesGid _) in *.
  destruct (seed_edges frag (app_ w) deleted_edges ∅) as [curr| |] eqn:Hs;
    simpl in H; [|done..].
  injection H as <-.
  rewrite coordinator_log_frame, coordinator_log_messages, coordinator_log_app.
  simpl. rewrite coordinator_log_messages, coordinator_log_app.
  split; [|split; [done|split; [done|]]].
  - intros v. rewrite (seed_edges_elem_of _ _ _ _ _ Hs v). set_solver.
  - destruct (coordinator_log_trace "Parsing update file" w) as (l1 & E1 & F1).
    destruct (coordinator_log_trace "Resetting"
      (set_frame {| inner_vertices := InnerVertices frag;
                    outer_vertices := OuterVertices frag;
                    builder := inc_fragment_builder FLAGS frag (FLAGS_directed FLAGS)
                                 (FLAGS_efile_update FLAGS);
                    curr_modified := curr; next_modified := ∅;
                    reset_vertices := ∅ |}
         (coordinator_log "Parsing update file" w))) as (l2 & E2 & F2).
    exists (l1 ++ l2). split; [|by apply Forall_app].
    rewrite E2. simpl. rewrite E1. by rewrite app_assoc.
Qed.

(** C4. Seeding of the reset loop: for every deleted edge [(u_gid, v_gid)]
    the loop body inserts [v] into [curr_modified] exactly when [u_gid] is
    the gid of a vertex of the fragment, [v_gid] is an inner gid and
    [DeltaParentGid(v) = u_gid]; so [curr_modified] after seeding holds the
    vertices for which some deleted edge meets the three conditions.  Seeding
    communicates nothing: the message manager is untouched, the kernel state
    is untouched, and only log lines are added to the trace. *)
Theorem seeding_inserts_exactly_the_children_of_deleted_parent_edges w w' :
  deltaCompute_seed FLAGS w = Ok w' →
  let frag := fragment_ w in
  let deleted_edges :=
    GetDeletedEdgesGid (inc_fragment_builder FLAGS frag (FLAGS_directed FLAGS)
                          (FLAGS_efile_update FLAGS)) in
  (∀ edge curr curr', seed_edge frag (app_ w) edge curr = Ok curr' →
     (∃ v, seeds frag (app_ w) edge v ∧ curr' = {[v]} ∪ curr) ∨
     ((∀ v, ¬ seeds frag (app_ w) edge v) ∧ curr' = curr)) ∧
  (∀ v, v ∈ curr_modified (frame w') ↔
        ∃ edge, edge ∈ deleted_edges ∧ seeds frag (app_ w) edge v) ∧
  messages_ w' = messages_ w ∧
  app_ w' = app_ w ∧
  (∃ logs, trace w' = trace w ++ logs ∧ Forall is_log logs).
Proof.
  intros H. cbv zeta.
  split; [intros edge curr curr'; apply seed_edge_step|].
  destruct (deltaCompute_seed_result w w' H) as (Hcurr & Hmsg & Happ & Hlog).
  split; [exact Hcurr|]. split; [exact Hmsg|]. split; [exact Happ|exact Hlog].
Qed.

(** ** Traces of loops *)

Lemma foldl_preserved {A B : Type} (proj : worker (value_t := value_t) → B)
    (f : worker → A → worker) (l : list A) w :
  (∀ w x, proj (f w x) = proj w) → proj (foldl f w l) = proj w.
Proof.
  intros Hf. revert w. induction l as [|x l IH]; intros w; simpl; [done|].
  by rewrite IH, Hf.
Qed.

Lemma foldl_trace {A : Type} (g : A → list event)
    (f : worker (value_t := value_t) → A → worker) (l : list A) w :
  (∀ w x, trace (f w x) = trace w ++ g x) →
  trace (foldl f w l) = trace w ++ concat (map g l).
Proof.
  intros Hf. revert w. induction l as [|x l IH]; intros w; simpl.
  - by rewrite app_nil_r.
  - by rewrite IH, Hf, app_assoc.
Qed.

Lemma ForEach_preserved {B : Type} (proj : worker (value_t := value_t) → B)
    set range (f : vertex_t → worker → worker) w :
  (∀ u w, proj (f u w) = proj w) → proj (ForEach set range f w) = proj w.
Proof. intros Hf. unfold ForEach. apply foldl_preserved. intros; apply Hf. Qed.

Lemma ForEach_trace (g : vertex_t → list event) set range
    (f : vertex_t → worker (value_t := value_t) → worker) w :
  (∀ u w, trace (f u w) = trace w ++ g u) →
  trace (ForEach set range f w) =
  trace w ++ concat (map g (filter (λ u, u ∈ set) range)).
Proof. intros Hf. unfold ForEach. apply foldl_trace. intros; apply Hf. Qed.

Lemma elem_of_concat_map {A B : Type} (g : A → list B) (l : list A) (y : B) :
  y ∈ concat (map g l) ↔ ∃ x, x ∈ l ∧ y ∈ g x.
Proof.
  induction l as [|x l IH]; simpl.
  - split; [by intros ?%elem_of_nil|]. by intros (? & ?%elem_of_nil & _).
  - rewrite elem_of_app, IH. split.
    + intros [?|(x' & ? & ?)]; [exists x; split; [left|done]|].
      exists x'. split; [by right|done].
    + intros (x' & [->|?]%elem_of_cons & ?); [by left|]. right. by exists x'.
Qed.

(** ** The reset round (lines 129-171) *)

Lemma reset_process_trace w :
  trace (reset_process w) =
  trace w ++ map (λ m, EvProcess m.1 m.2) (inbox (messages_ w)).
Proof.
  unfold reset_process, take_inbox.
  rewrite (foldl_trace (λ m, [EvProcess m.1 m.2])); [|done].
  simpl. f_equal. induction (inbox (messages_ w)); simpl; by f_equal.
Qed.

Lemma reset_clear_trace u w : trace (reset_clear u w) = trace w.
Proof. done. Qed.

Lemma reset_send_trace v w : trace (reset_send v w) = trace w ++ [EvSync v None].
Proof. done. Qed.

(** The calls of one reset round before [FinishARound]: [StartARound], the
    handler calls, the empty-payload syncs. *)
Definition reset_round_calls w : list (event (value_t := value_t)) :=
  map (λ m, EvProcess m.1 m.2) (inbox (messages_ w)) ++
  map (λ v, EvSync v None)
    (filter (λ v, v ∈ next_modified (frame (reset_round w)))
       (outer_vertices (frame (reset_round w)))).

Lemma reset_send_frame v w : frame (reset_send v w) = frame w.
Proof. done. Qed.

Lemma reset_round_frame_next w :
  next_modified (frame (reset_round w)) =
  ForEach (curr_modified (frame (reset_process (StartARound w))))
    (inner_vertices (frame (reset_process (StartARound w))))
    (reset_mark (fragment_ (reset_process (StartARound w)))
       (app_ (reset_process (StartARound w))))
    (next_modified (frame (reset_process (StartARound w)))).
Proof.
  unfold reset_round.
  rewrite (ForEach_preserved frame); [|apply reset_send_frame].
  set (w1 := reset_process (StartARound w)).
  set (nx := ForEach _ _ (reset_mark _ _) _).
  assert (∀ (l : list vertex_t) w0,
    next_modified (frame (foldl (λ s u, reset_clear u s) w0 l)) =
    next_modified (frame w0)) as Hc.
  { induction l as [|x l IH]; intros w0; simpl; [done|]. by rewrite IH. }
  unfold ForEach at 1. by rewrite Hc.
Qed.

Lemma concat_map_singleton {A B : Type} (f : A → B) (l : list A) :
  concat (map (λ x, [f x]) l) = map f l.
Proof. induction l; simpl; by f_equal. Qed.

Lemma reset_process_outer w :
  outer_vertices (frame (reset_process w)) = outer_vertices (frame w).
Proof.
  unfold reset_process, take_inbox.
  by rewrite (foldl_preserved (λ w, outer_vertices (frame w))).
Qed.

Lemma reset_round_outer w :
  outer_vertices (frame (reset_round w)) = outer_vertices (frame w).
Proof.
  unfold reset_round.
  rewrite (ForEach_preserved (λ w, outer_vertices (frame w))); [|done].
  rewrite (ForEach_preserved (λ w, outer_vertices (frame w))); [|done].
  simpl. by rewrite reset_process_outer.
Qed.

Lemma reset_round_trace w :
  trace (reset_round w) = trace w ++ EvStartARound :: reset_round_calls w.
Proof.
  unfold reset_round_calls. rewrite reset_round_frame_next, reset_round_outer.
  unfold reset_round.
  set (w1 := reset_process (StartARound w)).
  set (nx := ForEach _ _ (reset_mark _ _) _).
  rewrite (ForEach_trace (λ v, [EvSync v None])); [|apply reset_send_trace].
  rewrite (ForEach_preserved trace); [|apply reset_clear_trace].
  rewrite concat_map_singleton. simpl. subst w1.
  rewrite reset_process_trace, reset_process_outer. simpl.
  by rewrite <- !app_assoc.
Qed.

Lemma FinishARound_lookup (ws : list (worker (value_t := value_t))) i w :
  ws !! i = Some w →
  ∃ m, FinishARound ws !! i = Some (emit EvFinishARound (set_messages m w)).
Proof.
  intros Hw. unfold FinishARound. rewrite list_lookup_imap, Hw. simpl. by eexists.
Qed.

(** C3. In a round of the reset loop with a non-empty [next_modified], the
    worker's calls are [StartARound], the handler calls and the syncs, then
    [FinishARound], and only then [ForceContinue]: the vote is cast after the
    round has been finished, not before. *)
Theorem reset_round_votes_after_FinishARound
    (ws : list (worker (value_t := value_t))) i w :
  ws !! i = Some w →
  0 < size (next_modified (frame (reset_round w))) →
  ∃ w', map reset_round_end (FinishARound (map reset_round ws)) !! i = Some w' ∧
        trace w' = trace w ++ EvStartARound ::
                   (reset_round_calls w ++ [EvFinishARound; EvForceContinue]) ∧
        (EvForceContinue ∉ reset_round_calls w) ∧
        (EvFinishARound ∉ reset_round_calls w).
Proof.
  intros Hw Hnext.
  assert (map reset_round ws !! i = Some (reset_round w)) as Hr
    by by rewrite list_lookup_fmap, Hw.
  destruct (FinishARound_lookup _ _ _ Hr) as (m & Hf).
  eexists. split; [by rewrite list_lookup_fmap, Hf|].
  split; [|split].
  - unfold reset_round_end. simpl. rewrite decide_True by done.
    simpl. rewrite reset_round_trace. by rewrite <- !app_assoc.
  - unfold reset_round_calls. rewrite elem_of_app, !list_elem_of_fmap.
    intros [(? & ? & _)|(? & ? & _)]; done.
  - unfold reset_round_calls. rewrite elem_of_app, !list_elem_of_fmap.
    intros [(? & ? & _)|(? & ? & _)]; done.
Qed.

(** ** Sending deltas (lines 223-230 and 300-309) *)

(** The outer vertices of [range] that are in [set] and whose delta is not
    the identity element. *)
Definition to_send a (set : DenseVertexSet) (range : list vertex_t) : list vertex_t :=
  filter (λ v, value_ne (value (deltas_ a v)) GetIdentityElement = true)
    (filter (λ v, v ∈ set) range).

Lemma send_delta_app v w : app_ (send_delta v w) = app_ w.
Proof. unfold send_delta. by destruct (value_ne _ _). Qed.

Lemma send_delta_fragment v w : fragment_ (send_delta v w) = fragment_ w.
Proof. unfold send_delta. by destruct (value_ne _ _). Qed.

Lemma send_delta_frame v w : frame (send_delta v w) = frame w.
Proof. unfold send_delta. by destruct (value_ne _ _). Qed.

Lemma foldl_send_delta (l : list vertex_t) w :
  let w' := foldl (λ s u, send_delta u s) w l in
  let sent := filter (λ v, value_ne (value (deltas_ (app_ w) v)) GetIdentityElement = true) l in
  app_ w' = app_ w ∧ fragment_ w' = fragment_ w ∧ frame w' = frame w ∧
  worker_id w' = worker_id w ∧
  trace w' = trace w ++ map (λ v, EvSync v (Some (deltas_ (app_ w) v))) sent ∧
  outbox (messages_ w') = outbox (messages_ w) ++
    map (λ v, (GetFragId (fragment_ w) v, Vertex2Gid (fragment_ w) v,
               Some (deltas_ (app_ w) v))) sent ∧
  inbox (messages_ w') = inbox (messages_ w) ∧
  force_continue (messages_ w') = force_continue (messages_ w) ∧
  to_terminate (messages_ w') = to_terminate (messages_ w).
Proof.
  revert w. induction l as [|v l IH]; intros w; simpl.
  - by rewrite !app_nil_r.
  - destruct (IH (send_delta v w)) as (Ha & Hf & Hfr & Hid & Ht & Ho & Hi & Hfc & Htt).
    rewrite Ha, Hf, Hfr, Hid, Ht, Ho, Hi, Hfc, Htt. clear IH Ha Hf Hfr Hid Ht Ho Hi Hfc Htt.
    rewrite send_delta_app, send_delta_fragment, send_delta_frame.
    rewrite filter_cons. unfold send_delta.
    destruct (value_ne (value (deltas_ (app_ w) v)) GetIdentityElement) eqn:Hne.
    + rewrite decide_True by done. simpl. by rewrite <- !app_assoc.
    + rewrite decide_False by (by intros ?). done.
Qed.

Lemma ForEach_send_delta set range w :
  let w' := ForEach set range send_delta w in
  let sent := to_send (app_ w) set range in
  app_ w' = app_ w ∧ fragment_ w' = fragment_ w ∧ frame w' = frame w ∧
  worker_id w' = worker_id w ∧
  trace w' = trace w ++ map (λ v, EvSync v (Some (deltas_ (app_ w) v))) sent ∧
  outbox (messages_ w') = outbox (messages_ w) ++
    map (λ v, (GetFragId (fragment_ w) v, Vertex2Gid (fragment_ w) v,
               Some (deltas_ (app_ w) v))) sent ∧
  inbox (messages_ w') = inbox (messages_ w) ∧
  force_continue (messages_ w') = force_continue (messages_ w) ∧
  to_terminate (messages_ w') = to_terminate (messages_ w).
Proof. apply foldl_send_delta. Qed.

Lemma elem_of_to_send a set range v :
  v ∈ to_send a set range ↔
  v ∈ range ∧ v ∈ set ∧ value_ne (value (deltas_ a v)) GetIdentityElement = true.
Proof. unfold to_send. rewrite !list_elem_of_filter. naive_solver. Qed.

(** ** The batch round (lines 253-317) *)

Definition is_sync (e : event (value_t := value_t)) : Prop :=
  ∃ v msg, e = EvSync v msg.

Lemma foldl_trace_ext {A : Type} (P : event (value_t := value_t) → Prop)
    (f : worker → A → worker) (l : list A) w :
  (∀ w x, ∃ es, trace (f w x) = trace w ++ es ∧ Forall P es) →
  ∃ es, trace (foldl f w l) = trace w ++ es ∧ Forall P es.
Proof.
  intros Hf. revert w. induction l as [|x l IH]; intros w; simpl.
  - exists []. by rewrite app_nil_r.
  - destruct (IH (f w x)) as (es2 & -> & H2).
    destruct (Hf w x) as (es1 & -> & H1).
    exists (es1 ++ es2). split; [by rewrite app_assoc|by apply Forall_app].
Qed.

(** The calls of a batch round before the deltas are sent: handler calls and
    kernel calls. *)
Definition is_batch_work (e : event (value_t := value_t)) : Prop :=
  match e with
  | EvProcess _ _ | EvCombineValueDelta _ | EvCompute _ _ _ => True
  | _ => False
  end.

Lemma batch_process_trace w :
  ∃ es, trace (batch_process w) = trace w ++ es ∧ Forall is_batch_work es.
Proof.
  unfold batch_process, take_inbox.
  match goal with |- context [foldl ?f ?w0 ?l] =>
    destruct (foldl_trace_ext is_batch_work f l w0) as (es & E & F)
  end.
  - intros w0 [v [msg|]]; simpl.
    + exists [EvProcess v (Some msg)]. split; [done|]. by repeat constructor.
    + exists []. by rewrite app_nil_r.
  - by exists es.
Qed.

Lemma batch_compute_trace u w :
  ∃ es, trace (batch_compute u w) = trace w ++ es ∧ Forall is_batch_work es.
Proof.
  unfold batch_compute. destruct (CombineValueDelta _ _) as [[b val'] delta'].
  simpl. destruct b; simpl.
  - eexists [_; _]. rewrite <- app_assoc. split; [done|]. by repeat constructor.
  - eexists [_]. split; [done|]. by repeat constructor.
Qed.

(** The state of a batch round when the sends begin (lines 253-296). *)
Definition batch_round_computed w : worker :=
  let w := StartARound w in
  let w := set_app (set_next_modified_ ∅ (app_ w)) w in
  let w := batch_process w in
  ForEach (curr_modified_ (app_ w)) (InnerVertices (fragment_ w)) batch_compute w.

Lemma batch_process_fragment w : fragment_ (batch_process w) = fragment_ w.
Proof.
  unfold batch_process, take_inbox.
  rewrite (foldl_preserved fragment_); [done|]. intros ? [? [?|]]; done.
Qed.

Lemma batch_compute_fragment u w : fragment_ (batch_compute u w) = fragment_ w.
Proof.
  unfold batch_compute. destruct (CombineValueDelta _ _) as [[b ?] ?].
  simpl. by destruct b.
Qed.

Lemma batch_round_computed_fragment w :
  fragment_ (batch_round_computed w) = fragment_ w.
Proof.
  unfold batch_round_computed.
  rewrite (ForEach_preserved fragment_); [|apply batch_compute_fragment].
  by rewrite batch_process_fragment.
Qed.

Lemma batch_round_computed_trace w :
  ∃ es, trace (batch_round_computed w) = trace w ++ EvStartARound :: es ∧
        Forall is_batch_work es.
Proof.
  unfold batch_round_computed.
  set (w1 := set_app _ (StartARound w)).
  destruct (batch_process_trace w1) as (es1 & E1 & F1).
  unfold ForEach.
  destruct (foldl_trace_ext is_batch_work (λ s u, batch_compute u s)
              (filter (λ u, u ∈ curr_modified_ (app_ (batch_process w1)))
                 (InnerVertices (fragment_ (batch_process w1))))
              (batch_process w1)) as (es2 & E2 & F2).
  { intros; apply batch_compute_trace. }
  exists (es1 ++ es2). split; [|by apply Forall_app].
  rewrite E2, E1. subst w1. simpl. by rewrite <- !app_assoc.
Qed.

Lemma batch_round_unfold w :
  batch_round FLAGS w =
  let w1 := batch_round_computed w in
  let w2 := ForEach (next_modified_ (app_ w1)) (OuterVertices (fragment_ w)) send_delta w1 in
  if decide (0 < size (next_modified_ (app_ w2))) then ForceContinue w2 else w2.
Proof.
  unfold batch_round, batch_round_on, batch_round_computed. simpl.
  rewrite batch_process_fragment. simpl. by destruct (FLAGS_cilk FLAGS).
Qed.

(** C7. Step 4 of the batch round: with [D] and [next_modified_] as they are
    when the sends begin, the round calls [SyncStateOnOuterVertex] with
    [D[v]] for exactly the vertices [v] of [next_modified_ ∩ outer_vertices]
    whose [D[v].value] is not the identity element; these are the only syncs
    of the round and the only entries the round puts into the outbox. *)
Theorem batch_round_sends_exactly_the_non_identity_outer_deltas w :
  let w' := batch_round FLAGS w in
  let frag := fragment_ w in
  let D := deltas_ (app_ w') in
  let sent := to_send (app_ w') (next_modified_ (app_ w')) (OuterVertices frag) in
  (∀ v, v ∈ sent ↔
        v ∈ OuterVertices frag ∧ v ∈ next_modified_ (app_ w') ∧
        value_ne (value (D v)) GetIdentityElement = true) ∧
  (∃ work vote,
     trace w' = trace w ++ EvStartARound :: work ++
                map (λ v, EvSync v (Some (D v))) sent ++ vote ∧
     Forall is_batch_work work ∧
     vote = (if decide (0 < size (next_modified_ (app_ w')))
             then [EvForceContinue] else [])) ∧
  outbox (messages_ w') =
    map (λ v, (GetFragId frag v, Vertex2Gid frag v, Some (D v))) sent.
Proof.
  cbv zeta. rewrite batch_round_unfold. cbv zeta.
  set (w1 := batch_round_computed w).
  destruct (ForEach_send_delta (next_modified_ (app_ w1)) (OuterVertices (fragment_ w)) w1)
    as (Ha & Hf & _ & _ & Ht & Ho & _).
  set (w2 := ForEach _ _ send_delta w1) in *.
  assert (app_ (if decide (0 < size (next_modified_ (app_ w2)))
                then ForceContinue w2 else w2) = app_ w1) as Happ.
  { by case_decide. }
  rewrite Happ. split; [intros v; apply elem_of_to_send|].
  assert (outbox (messages_ w1) = []) as Hout.
  { subst w1. unfold batch_round_computed.
    rewrite (ForEach_preserved (λ w, outbox (messages_ w))).
    - unfold batch_process, take_inbox.
      rewrite (foldl_preserved (λ w, outbox (messages_ w))); [done|].
      intros ? [? [?|]]; done.
    - intros u w0. unfold batch_compute.
      destruct (CombineValueDelta _ _) as [[b ?] ?]. simpl. by destruct b. }
  assert (fragment_ w1 = fragment_ w) as Hfrag
    by apply batch_round_computed_fragment.
  split.
  - destruct (batch_round_computed_trace w) as (work & Ew & Fw).
    exists work. eexists. split; [|split; [done|reflexivity]].
    fold w1 in Ew. rewrite Ha.
    destruct (decide (0 < size (next_modified_ (app_ w1)))); simpl;
      rewrite Ht, Ew.
    + by rewrite <- !app_assoc.
    + by rewrite <- !app_assoc, app_nil_r.
  - case_decide; simpl; rewrite Ho, Hout, Hfrag; done.
Qed.

(** ** The kickoff round (lines 212-232) *)

Definition is_compute (e : event (value_t := value_t)) : Prop :=
  ∃ u last delta, e = EvCompute u last delta.

Lemma kickoff_compute_fragment u w : fragment_ (kickoff_compute u w) = fragment_ w.
Proof. unfold kickoff_compute. by destruct (value_ne _ _). Qed.

Lemma kickoff_compute_outer u w :
  outer_vertices (frame (kickoff_compute u w)) = outer_vertices (frame w).
Proof. unfold kickoff_compute. by destruct (value_ne _ _). Qed.

Lemma kickoff_compute_trace u w :
  ∃ es, trace (kickoff_compute u w) = trace w ++ es ∧ Forall is_compute es.
Proof.
  unfold kickoff_compute. destruct (value_ne _ _); simpl.
  - eexists [_]. split; [done|]. repeat constructor. by do 3 eexists.
  - exists []. by rewrite app_nil_r.
Qed.

(** The state of the kickoff round when the sends begin (lines 213-221). *)
Definition kickoff_computed w : worker :=
  foldl (λ w u, kickoff_compute u w) (StartARound w) (inner_vertices (frame w)).

Lemma kickoff_round_unfold w :
  kickoff_round w =
  ForEach (next_modified (frame (kickoff_computed w))) (outer_vertices (frame w))
    send_delta (kickoff_computed w).
Proof.
  unfold kickoff_round, kickoff_computed. simpl. f_equal.
  by rewrite (foldl_preserved (λ w, outer_vertices (frame w)));
    [|intros; apply kickoff_compute_outer].
Qed.

Lemma FinishARound_lookup_parts (ws : list (worker (value_t := value_t))) i w :
  ws !! i = Some w →
  ∃ w', FinishARound ws !! i = Some w' ∧
        app_ w' = app_ w ∧ fragment_ w' = fragment_ w ∧ frame w' = frame w ∧
        worker_id w' = worker_id w ∧ trace w' = trace w ++ [EvFinishARound] ∧
        outbox (messages_ w') = [] ∧
        force_continue (messages_ w') = force_continue (messages_ w).
Proof.
  intros Hw. destruct (FinishARound_lookup _ _ _ Hw) as (m & Hm).
  eexists. split; [done|]. unfold FinishARound in Hm.
  rewrite list_lookup_imap, Hw in Hm. simpl in Hm. injection Hm as <-. done.
Qed.

(** C5. The kickoff round: after [StartARound], the loop visits the inner
    vertices in order and, for the vertex [u] at hand, calls
    [Compute(u, V[u], D[u], next_modified)] exactly when [D[u].value] is not
    the identity element, with no call of [CombineValueDelta] (the round's
    kernel calls are all [Compute]); then the non-identity deltas of
    [next_modified ∩ outer_vertices] are sent; and after [FinishARound] the
    kernel's [next_modified_] is the set filled by the round. *)
Theorem kickoff_round_computes_without_gate w :
  let inner := inner_vertices (frame w) in
  let loop := foldl (λ w u, kickoff_compute u w) (StartARound w) in
  let w' := kickoff_round w in
  (∀ pre u post, inner = pre ++ u :: post →
     let wu := loop pre in
     let V := values_ (app_ wu) in
     let D := deltas_ (app_ wu) in
     if value_ne (value (D u)) GetIdentityElement
     then let r := Compute (fragment_ wu) u (V u) (D u) D (next_modified (frame wu)) in
          trace (loop (pre ++ [u])) = trace wu ++ [EvCompute u (V u) (D u)] ∧
          deltas_ (app_ (loop (pre ++ [u]))) = r.1 ∧
          next_modified (frame (loop (pre ++ [u]))) = r.2
     else loop (pre ++ [u]) = wu) ∧
  (∃ computes,
     trace w' = trace w ++ EvStartARound :: computes ++
                map (λ v, EvSync v (Some (deltas_ (app_ w') v)))
                  (to_send (app_ w') (next_modified (frame w'))
                     (outer_vertices (frame w))) ∧
     Forall is_compute computes) ∧
  (∀ (ws : list worker) i, ws !! i = Some w →
     ∃ w'', map kickoff_end (FinishARound (map kickoff_round ws)) !! i = Some w'' ∧
            next_modified_ (app_ w'') = next_modified (frame w') ∧
            trace w'' = trace w' ++ [EvFinishARound]).
Proof.
  cbv zeta. split; [|split].
  - intros pre u post _. rewrite foldl_app. simpl.
    set (wu := foldl _ (StartARound w) pre). unfold kickoff_compute.
    by destruct (value_ne _ _).
  - rewrite kickoff_round_unfold.
    destruct (ForEach_send_delta (next_modified (frame (kickoff_computed w)))
                (outer_vertices (frame w)) (kickoff_computed w))
      as (Ha & _ & Hfr & _ & Ht & _).
    rewrite Ha, Hfr, Ht.
    destruct (foldl_trace_ext is_compute (λ w u, kickoff_compute u w)
                (inner_vertices (frame w)) (StartARound w)) as (es & E & F).
    { intros; apply kickoff_compute_trace. }
    exists es. split; [|done]. unfold kickoff_computed at 1. rewrite E. simpl.
    by rewrite <- !app_assoc.
  - intros ws i Hw.
    assert (map kickoff_round ws !! i = Some (kickoff_round w)) as Hr
      by by rewrite list_lookup_fmap, Hw.
    destruct (FinishARound_lookup_parts _ _ _ Hr) as (wf & Hf & Ha & _ & Hfr & _ & Ht & _).
    exists (kickoff_end wf). split; [by rewrite list_lookup_fmap, Hf|].
    unfold kickoff_end. simpl. by rewrite Hfr, Ht.
Qed.

(** ** Snapshot and copy-back (lines 188-210) *)

Lemma snapshot_lookup {A : Type} (range : list vertex_t) (arr : vertex_t → A) v :
  snapshot range arr !! v = if decide (v ∈ range) then Some (arr v) else None.
Proof.
  unfold snapshot.
  assert (∀ (m : gmap vertex_t A),
    foldl (λ m v, <[v := arr v]> m) m range !! v =
    if decide (v ∈ range) then Some (arr v) else m !! v) as Hgen.
  { induction range as [|x range IH]; intros m; simpl.
    - destruct (decide (v ∈ [])) as [Hin|_]; [by apply elem_of_nil in Hin|done].
    - rewrite IH. destruct (decide (v ∈ range)) as [Hin|Hin].
      + rewrite decide_True; [done|]. by right.
      + destruct (decide (v = x)) as [->|Hne].
        * rewrite decide_True by left. by rewrite lookup_insert_eq.
        * rewrite decide_False by (by intros [?|?]%elem_of_cons).
          by rewrite lookup_insert_ne. }
  rewrite Hgen. by case_decide.
Qed.

Lemma copy_back_other values deltas x a v :
  v ≠ x →
  values_ (copy_back values deltas x a) v = values_ a v ∧
  deltas_ (copy_back values deltas x a) v = deltas_ a v.
Proof.
  intros Hne. unfold copy_back.
  destruct (values !! x), (deltas !! x); simpl;
    rewrite ?fn_lookup_insert_ne by done; done.
Qed.

Lemma copy_back_same values deltas x a val d :
  values !! x = Some val → deltas !! x = Some d →
  values_ (copy_back values deltas x a) x = val ∧
  deltas_ (copy_back values deltas x a) x = d.
Proof.
  intros Hv Hd. unfold copy_back. rewrite Hv, Hd. simpl.
  by rewrite !fn_lookup_insert.
Qed.

Lemma copy_back_sets values deltas x a :
  curr_modified_ (copy_back values deltas x a) = curr_modified_ a ∧
  next_modified_ (copy_back values deltas x a) = next_modified_ a.
Proof. unfold copy_back. by destruct (values !! x), (deltas !! x). Qed.

Lemma foldl_copy_back (range : list vertex_t) (V : vertex_t → value_t)
    (D : vertex_t → DependencyData value_t) a v :
  let a' := foldl (λ a v, copy_back (snapshot range V) (snapshot range D) v a) a range in
  (v ∈ range → values_ a' v = V v ∧ deltas_ a' v = D v) ∧
  (v ∉ range → values_ a' v = values_ a v ∧ deltas_ a' v = deltas_ a v) ∧
  curr_modified_ a' = curr_modified_ a ∧ next_modified_ a' = next_modified_ a.
Proof.
  cbv zeta.
  assert (∀ (l : list vertex_t) a,
    (∀ x, x ∈ l → x ∈ range) →
    let a' := foldl (λ a v, copy_back (snapshot range V) (snapshot range D) v a) a l in
    (v ∈ l → values_ a' v = V v ∧ deltas_ a' v = D v) ∧
    (v ∉ l → values_ a' v = values_ a v ∧ deltas_ a' v = deltas_ a v) ∧
    curr_modified_ a' = curr_modified_ a ∧ next_modified_ a' = next_modified_ a)
    as Hgen.
  { induction l as [|x l IH] using rev_ind; intros a0 Hsub; simpl.
    - split; [by intros ?%elem_of_nil|done].
    - rewrite foldl_app. simpl.
      destruct (IH a0) as (Hin & Hout & Hc & Hn).
      { intros y Hy. apply Hsub, elem_of_app. by left. }
      set (a1 := foldl _ a0 l) in *.
      destruct (copy_back_sets (snapshot range V) (snapshot range D) x a1) as [-> ->].
      split; [|split; [|done]].
      + intros Hv. destruct (decide (v = x)) as [->|Hne].
        * apply copy_back_same; rewrite snapshot_lookup, decide_True; try done;
            apply Hsub, elem_of_app; right; by left.
        * destruct (copy_back_other (snapshot range V) (snapshot range D) x a1 v Hne)
            as [-> ->].
          apply Hin. apply elem_of_app in Hv as [?|?%list_elem_of_singleton]; done.
      + intros Hv.
        assert (v ≠ x) as Hne.
        { intros ->. apply Hv, elem_of_app. right. by left. }
        destruct (copy_back_other (snapshot range V) (snapshot range D) x a1 v Hne)
          as [-> ->].
        apply Hout. intros ?. apply Hv, elem_of_app. by left. }
  by apply Hgen.
Qed.

(** C6. When the fragment is replaced, the value and the delta of every
    vertex of the old inner range are the same in the new arrays as before
    (the copy is by handle; it is a copy by gid when the builder keeps the
    handle of every inner gid), every other entry is what [app_->Init] on the
    new fragment left, and so, the kernel's [Init] leaving identity deltas on
    outer vertices and the new outer vertices lying outside the old inner
    range, every outer-vertex delta of the new fragment is the identity. *)
Theorem rebuild_carries_inner_state_and_discards_outer_deltas w :
  let l := frame w in
  let old := fragment_ w in
  let new := Build (builder l) in
  let w' := deltaCompute_rebuild w in
  (∀ v, v ∈ OuterVertices new →
        value (deltas_ (Init new) v) = GetIdentityElement) →
  (∀ v, v ∈ OuterVertices new → v ∉ inner_vertices l) →
  fragment_ w' = new ∧
  outer_vertices (frame w') = OuterVertices new ∧
  inner_vertices (frame w') = inner_vertices l ∧
  (∀ v, v ∈ inner_vertices l →
        values_ (app_ w') v = values_ (app_ w) v ∧
        deltas_ (app_ w') v = deltas_ (app_ w) v) ∧
  (∀ v, v ∉ inner_vertices l →
        values_ (app_ w') v = values_ (Init new) v ∧
        deltas_ (app_ w') v = deltas_ (Init new) v) ∧
  (∀ v, v ∈ OuterVertices new →
        value (deltas_ (app_ w') v) = GetIdentityElement) ∧
  ((∀ v, v ∈ inner_vertices l → Gid2Vertex new (Vertex2Gid old v) = Some v) →
   ∀ v v', v ∈ inner_vertices l → Gid2Vertex new (Vertex2Gid old v) = Some v' →
           values_ (app_ w') v' = values_ (app_ w) v ∧
           deltas_ (app_ w') v' = deltas_ (app_ w) v).
Proof.
  cbv zeta. intros Hinit Hdisj. unfold deltaCompute_rebuild. simpl.
  set (range := inner_vertices (frame w)).
  set (new := Build (builder (frame w))).
  pose proof (λ v, foldl_copy_back range (values_ (app_ w)) (deltas_ (app_ w))
                     (Init new) v) as Hcopy.
  cbv zeta in Hcopy.
  split; [done|]. split; [done|]. split; [done|].
  assert (∀ v, v ∈ range →
    values_ (foldl (λ a v, copy_back (snapshot range (values_ (app_ w)))
                             (snapshot range (deltas_ (app_ w))) v a)
               (Init new) range) v = values_ (app_ w) v ∧
    deltas_ (foldl (λ a v, copy_back (snapshot range (values_ (app_ w)))
                             (snapshot range (deltas_ (app_ w))) v a)
               (Init new) range) v = deltas_ (app_ w) v) as Hinner.
  { intros v Hv. by apply Hcopy. }
  split; [done|]. split; [|split].
  - intros v Hv. by apply Hcopy.
  - intros v Hv. destruct (Hcopy v) as (_ & Hout & _).
    destruct (Hout (Hdisj v Hv)) as [_ ->]. by apply Hinit.
  - intros Hstable v v' Hv Hg. rewrite (Hstable v Hv) in Hg.
    injection Hg as <-. by apply Hinner.
Qed.

(** ** Lists of workers through the synchronisation points *)

Section Lockstep.
Context {W0 : Type} (P Q : W0 → worker (value_t := value_t) → Prop).

Lemma lockstep_map (f : worker → worker) ws0 ws :
  Forall2 P ws0 ws → (∀ x0 w, P x0 w → Q x0 (f w)) → Forall2 Q ws0 (map f ws).
Proof. intros H Hf. apply Forall2_fmap_r. eapply Forall2_impl; eauto. Qed.

Lemma lockstep_FinishARound ws0 ws :
  Forall2 P ws0 ws →
  (∀ x0 w m, P x0 w → Q x0 (emit EvFinishARound (set_messages m w))) →
  Forall2 Q ws0 (FinishARound ws).
Proof.
  intros H Hf. apply Forall2_same_length_lookup in H as [Hlen H].
  apply Forall2_same_length_lookup. split.
  - unfold FinishARound. by rewrite length_imap.
  - intros i x0 w' H0 H'. unfold FinishARound in H'.
    rewrite list_lookup_imap in H'.
    destruct (ws !! i) as [w|] eqn:Hw; [|done]. simpl in H'.
    injection H' as <-. apply Hf. by eapply H.
Qed.

Lemma lockstep_ToTerminate ws0 ws :
  Forall2 P ws0 ws →
  (∀ x0 w b, P x0 w → Q x0 (emit (EvToTerminate b) w)) →
  Forall2 Q ws0 (ToTerminate ws).2.
Proof. intros H Hf. simpl. apply lockstep_map; [done|]. intros; by apply Hf. Qed.

End Lockstep.

Section LockstepInvariant.
Context {W0 : Type} (P : W0 → worker (value_t := value_t) → Prop).

Lemma invariant_map (f : worker → worker) ws0 ws :
  Forall2 P ws0 ws → (∀ x0 w, P x0 w → P x0 (f w)) → Forall2 P ws0 (map f ws).
Proof. apply lockstep_map. Qed.

Lemma invariant_FinishARound ws0 ws :
  Forall2 P ws0 ws →
  (∀ x0 w m, P x0 w → P x0 (emit EvFinishARound (set_messages m w))) →
  Forall2 P ws0 (FinishARound ws).
Proof. apply lockstep_FinishARound. Qed.

Lemma invariant_ToTerminate ws0 ws :
  Forall2 P ws0 ws →
  (∀ x0 w b, P x0 w → P x0 (emit (EvToTerminate b) w)) →
  Forall2 P ws0 (ToTerminate ws).2.
Proof. apply lockstep_ToTerminate. Qed.

End LockstepInvariant.

Lemma rmapM_Forall2 {A B : Type} (f : A → result B) (l : list A) (l' : list B) :
  rmapM f l = Ok l' → Forall2 (λ x y, f x = Ok y) l l'.
Proof.
  revert l'. induction l as [|x l IH]; intros l'; simpl.
  - intros [= <-]. constructor.
  - destruct (f x) as [y| |] eqn:Hb; simpl; [|done..].
    destruct (rmapM f l) as [bs| |]; simpl; [|done..].
    intros [= <-]. constructor; [done|by apply IH].
Qed.

(** ** The beginning of [Query] (lines 236-250) *)

Lemma deliver_to_nil fid frag : deliver_to (value_t := value_t) fid frag [] = [].
Proof. done. Qed.

Lemma concat_outbox_nil (ws : list (worker (value_t := value_t))) :
  Forall (λ w, outbox (messages_ w) = []) ws →
  concat (map (λ w, outbox (messages_ w)) ws) = [].
Proof. induction 1 as [|w ws Hw _ IH]; simpl; [done|]. by rewrite Hw, IH. Qed.

Definition is_process (e : event (value_t := value_t)) : Prop :=
  ∃ v msg, e = EvProcess v msg.

Lemma batch_round_computed_no_process w :
  inbox (messages_ w) = [] →
  ∃ es, trace (batch_round_computed w) = trace w ++ EvStartARound :: es ∧
        Forall (λ e, ¬ is_process e) es.
Proof.
  intros Hin. unfold batch_round_computed.
  set (w1 := set_app _ (StartARound w)).
  assert (batch_process w1 = set_messages
            {| inbox := []; outbox := outbox (messages_ w1);
               force_continue := force_continue (messages_ w1);
               to_terminate := to_terminate (messages_ w1) |} w1) as ->.
  { unfold batch_process, take_inbox. subst w1. simpl. by rewrite Hin. }
  unfold ForEach.
  match goal with |- context [foldl ?f ?w0 ?l] =>
    destruct (foldl_trace_ext (λ e, ¬ is_process e) f l w0) as (es & E & F)
  end.
  - intros w0 u. unfold batch_compute.
    destruct (CombineValueDelta _ _) as [[b ?] ?]. simpl. destruct b; simpl.
    + eexists [_; _]. rewrite <- app_assoc. split; [done|].
      repeat constructor; by intros (? & ? & ?).
    + eexists [_]. split; [done|]. repeat constructor; by intros (? & ? & ?).
  - exists es. split; [|done]. rewrite E. subst w1. simpl. by rewrite <- app_assoc.
Qed.

Lemma batch_round_no_process w :
  inbox (messages_ w) = [] →
  ∃ es, trace (batch_round FLAGS w) = trace w ++ EvStartARound :: es ∧
        Forall (λ e, ¬ is_process e) es.
Proof.
  intros Hin. rewrite batch_round_unfold. cbv zeta.
  destruct (batch_round_computed_no_process w) as (es & E & F); [done|].
  destruct (ForEach_send_delta (next_modified_ (app_ (batch_round_computed w)))
              (OuterVertices (fragment_ w)) (batch_round_computed w))
    as (_ & _ & _ & _ & Ht & _).
  set (w2 := ForEach _ _ send_delta _) in *.
  destruct (decide (0 < size (next_modified_ (app_ w2)))); simpl; rewrite Ht, E.
  - eexists. rewrite <- !app_assoc. simpl. split; [done|].
    rewrite !Forall_app. split; [done|]. split.
    + apply Forall_fmap, Forall_forall. by intros ? _ (? & ? & ?).
    + repeat constructor. by intros (? & ? & ?).
  - eexists. rewrite <- !app_assoc. simpl. split; [done|].
    rewrite !Forall_app. split; [done|].
    apply Forall_fmap, Forall_forall. by intros ? _ (? & ? & ?).
Qed.

(** C9. [Query] opens with one empty round: after the barrier, the kernel's
    [Init] and [Start], every worker calls [StartARound], [InitChannels],
    [FinishARound] and nothing else before the batch loop; nothing is sent
    in that round, so (the workers starting with nothing delivered) the
    message drain of the first round of the batch loop finds no message and
    its handler is not called. *)
Theorem Query_runs_an_empty_round_first (ws : list (worker (value_t := value_t))) :
  Forall (λ w, inbox (messages_ w) = []) ws →
  let ws1 := FinishARound (map Query_begin ws) in
  (∀ fuel, Query FLAGS fuel ws =
           rbind (Query_loop FLAGS fuel true ws1) (λ ws, Ok (map (emit EvBarrier) ws))) ∧
  ∀ i w, ws !! i = Some w →
    ∃ w1, ws1 !! i = Some w1 ∧
          trace w1 = trace w ++ [EvBarrier; EvAppInit; EvStart;
                                 EvStartARound; EvInitChannels; EvFinishARound] ∧
          inbox (messages_ w1) = [] ∧
          ∃ es, trace (batch_round FLAGS w1) = trace w1 ++ EvStartARound :: es ∧
                Forall (λ e, ¬ is_process e) es.
Proof.
  intros Hin. cbv zeta. split; [done|]. intros i w Hw.
  assert (map Query_begin ws !! i = Some (Query_begin w)) as Hb
    by by rewrite list_lookup_fmap, Hw.
  unfold FinishARound. rewrite list_lookup_imap, Hb. simpl.
  eexists. split; [done|]. simpl.
  assert (concat (map (λ w, outbox (messages_ w)) (map Query_begin ws)) = []) as ->.
  { apply concat_outbox_nil, Forall_fmap, Forall_forall. by intros. }
  rewrite deliver_to_nil, app_nil_r.
  rewrite Forall_forall in Hin. rewrite (Hin w) by by eapply list_elem_of_lookup_2.
  split; [by rewrite <- !app_assoc|]. split; [done|].
  by apply batch_round_no_process.
Qed.

(** ** The end of the batch stage without an update file (lines 323-338) *)

Lemma Query_loop_missing_update fuel (ws : list (worker (value_t := value_t))) :
  FLAGS_efile_update FLAGS = EmptyString →
  Query_loop FLAGS fuel true ws =
  rbind (batch_phase FLAGS fuel ws)
    (λ ws, Ok (map (emit (EvLog ERROR missing_update))
                 (map (coordinator_log "Batch time") ws))).
Proof.
  intros Hflag. revert ws. induction fuel as [|fuel IH]; intros ws; simpl; [done|].
  rewrite Hflag. simpl.
  destruct (forallb _ _); simpl; [done|]. apply IH.
Qed.

(** C8. With no update file configured, [Query] is the batch phase followed
    by the error log and the closing barrier: when the batch phase
    terminates, every worker (the coordinator among them) logs the missing
    configuration at [ERROR] level, leaves the loop and reaches the final
    barrier; its kernel state, fragment and message manager are those the
    batch phase left, and no call of the incremental phase is made. *)
Theorem Query_without_update_file_is_the_batch_phase
    fuel (ws : list (worker (value_t := value_t))) :
  FLAGS_efile_update FLAGS = EmptyString →
  let ws1 := FinishARound (map Query_begin ws) in
  Query FLAGS fuel ws =
    rbind (batch_phase FLAGS fuel ws1)
      (λ wsb, Ok (map (λ w, emit EvBarrier
                              (emit (EvLog ERROR missing_update)
                                 (coordinator_log "Batch time" w))) wsb)) ∧
  ∀ ws', Query FLAGS fuel ws = Ok ws' →
    ∃ wsb, batch_phase FLAGS fuel ws1 = Ok wsb ∧
      Forall2 (λ wb w',
                 app_ w' = app_ wb ∧ fragment_ w' = fragment_ wb ∧
                 messages_ w' = messages_ wb ∧
                 worker_id w' = worker_id wb ∧
                 (worker_id w' = kCoordinatorRank →
                  EvLog ERROR missing_update ∈ trace w') ∧
                 ∃ logs, trace w' = trace wb ++ logs ++
                                    [EvLog ERROR missing_update; EvBarrier] ∧
                         Forall is_log logs) wsb ws'.
Proof.
  intros Hflag. cbv zeta.
  assert (Query FLAGS fuel ws =
    rbind (batch_phase FLAGS fuel (FinishARound (map Query_begin ws)))
      (λ wsb, Ok (map (λ w, emit EvBarrier
                              (emit (EvLog ERROR missing_update)
                                 (coordinator_log "Batch time" w))) wsb))) as HQ.
  { unfold Query. rewrite Query_loop_missing_update by done.
    destruct (batch_phase _ _ _); simpl; [|done..].
    by rewrite !map_map. }
  split; [done|]. intros ws' Hok. rewrite HQ in Hok.
  destruct (batch_phase _ _ _) as [wsb| |]; simpl in Hok; [|done..].
  injection Hok as <-. exists wsb. split; [done|].
  apply Forall2_fmap_r, Forall_Forall2_diag, Forall_forall. intros wb _. simpl.
  rewrite coordinator_log_app, coordinator_log_fragment, coordinator_log_messages,
    coordinator_log_worker_id.
  do 4 (split; [done|]).
  destruct (coordinator_log_trace "Batch time" wb) as (logs & -> & Hlogs).
  split.
  - intros _. rewrite !elem_of_app, !list_elem_of_singleton. left. by right.
  - exists logs. split; [|done]. by rewrite <- !app_assoc.
Qed.

(** ** The fragment across [deltaCompute] and the resumed loop *)

(** What a worker keeps fixed while its fragment is not replaced. *)
Definition static w :=
  (fragment_ w, worker_id w, inner_vertices (frame w), outer_vertices (frame w),
   builder (frame w)).

Lemma reset_process_static w : static (reset_process w) = static w.
Proof.
  unfold reset_process, take_inbox. by rewrite (foldl_preserved static).
Qed.

Lemma reset_round_static w : static (reset_round w) = static w.
Proof.
  unfold reset_round.
  rewrite (ForEach_preserved static); [|done].
  rewrite (ForEach_preserved static); [|done].
  unfold static at 1. simpl. fold (static (reset_process (StartARound w))).
  by rewrite reset_process_static.
Qed.

Lemma reset_round_end_static w : static (reset_round_end w) = static w.
Proof. unfold reset_round_end. by case_decide. Qed.

Lemma reset_loop_static fuel (ws0 ws ws' : list (worker (value_t := value_t))) :
  Forall2 (λ w0 w, static w = static w0) ws0 ws →
  reset_loop fuel ws = Ok ws' →
  Forall2 (λ w0 w, static w = static w0) ws0 ws'.
Proof.
  revert ws. induction fuel as [|fuel IH]; intros ws H; simpl; [done|].
  assert (Forall2 (λ w0 w, static w = static w0) ws0
            (map (emit (EvToTerminate
                     (forallb (λ w, to_terminate (messages_ w))
                        (map reset_round_end (FinishARound (map reset_round ws))))))
               (map reset_round_end (FinishARound (map reset_round ws))))) as Hstep.
  { apply invariant_map; [|done].
    apply invariant_map; [|by intros ?? <-; apply reset_round_end_static].
    apply invariant_FinishARound; [|done].
    apply invariant_map; [done|]. intros ?? <-. apply reset_round_static. }
  destruct (forallb _ _); [by intros [= <-]|]. by apply IH.
Qed.

Lemma deltaCompute_seed_static w w' :
  deltaCompute_seed FLAGS w = Ok w' →
  fragment_ w' = fragment_ w ∧ worker_id w' = worker_id w ∧
  inner_vertices (frame w') = InnerVertices (fragment_ w) ∧
  builder (frame w') = inc_fragment_builder FLAGS (fragment_ w)
                         (FLAGS_directed FLAGS) (FLAGS_efile_update FLAGS).
Proof.
  unfold deltaCompute_seed. destruct (seed_edges _ _ _ _); simpl; [|done..].
  intros [= <-].
  rewrite coordinator_log_fragment, coordinator_log_frame, coordinator_log_worker_id.
  simpl. by rewrite coordinator_log_fragment, coordinator_log_worker_id.
Qed.

Lemma kickoff_round_fragment w : fragment_ (kickoff_round w) = fragment_ w.
Proof.
  rewrite kickoff_round_unfold.
  rewrite (ForEach_preserved fragment_); [|apply send_delta_fragment].
  unfold kickoff_computed.
  by rewrite (foldl_preserved fragment_); [|intros; apply kickoff_compute_fragment].
Qed.

Lemma deltaCompute_count_static w : static (deltaCompute_count w) = static w.
Proof.
  unfold deltaCompute_count, static.
  by rewrite !coordinator_log_fragment, !coordinator_log_frame,
    !coordinator_log_worker_id.
Qed.

Lemma deltaCompute_fragment fuel (ws ws' : list (worker (value_t := value_t))) :
  deltaCompute FLAGS fuel ws = Ok ws' →
  Forall2 (λ w w', fragment_ w' =
                   Build (inc_fragment_builder FLAGS (fragment_ w)
                            (FLAGS_directed FLAGS) (FLAGS_efile_update FLAGS)))
          ws ws'.
Proof.
  unfold deltaCompute.
  destruct (rmapM _ ws) as [ws1| |] eqn:Hseed; simpl; [|done..].
  destruct (reset_loop fuel ws1) as [ws2| |] eqn:Hloop; simpl; [|done..].
  intros [= <-]. apply rmapM_Forall2 in Hseed.
  assert (Forall2 (λ w w2, builder (frame w2) =
                     inc_fragment_builder FLAGS (fragment_ w)
                       (FLAGS_directed FLAGS) (FLAGS_efile_update FLAGS)) ws ws2) as H2.
  { assert (Forall2 (λ w0 w, static w = static w0) ws1 ws2) as Hst.
    { eapply reset_loop_static; [|done]. by apply Forall_Forall2_diag, Forall_forall. }
    apply Forall2_same_length_lookup in Hseed as [Hl1 Hseed].
    apply Forall2_same_length_lookup in Hst as [Hl2 Hst].
    apply Forall2_same_length_lookup. split; [congruence|].
    intros i w w2 Hw Hw2.
    destruct (lookup_lt_is_Some_2 ws1 i) as [w1 Hw1].
    { rewrite <- Hl1. by eapply lookup_lt_Some. }
    destruct (deltaCompute_seed_static _ _ (Hseed _ _ _ Hw Hw1)) as (_ & _ & _ & <-).
    pose proof (Hst _ _ _ Hw1 Hw2) as E. unfold static in E. by injection E. }
  apply invariant_map; [|by intros ??; unfold kickoff_end].
  apply invariant_FinishARound; [|done].
  apply Forall2_fmap_r. eapply Forall2_impl; [exact H2|]. intros w w2 <-. simpl.
  rewrite kickoff_round_fragment. unfold deltaCompute_rebuild. simpl.
  pose proof (deltaCompute_count_static w2) as E. unfold static in E.
  by injection E as _ _ _ _ ->.
Qed.

Lemma batch_round_fragment w : fragment_ (batch_round FLAGS w) = fragment_ w.
Proof.
  rewrite batch_round_unfold. cbv zeta.
  destruct (ForEach_send_delta (next_modified_ (app_ (batch_round_computed w)))
              (OuterVertices (fragment_ w)) (batch_round_computed w))
    as (_ & Hf & _).
  case_decide; simpl; rewrite Hf; apply batch_round_computed_fragment.
Qed.

Lemma batch_iteration_fragment (ws0 ws : list (worker (value_t := value_t)))
    (frag_of : worker (value_t := value_t) → fragment_t) :
  Forall2 (λ w0 w, fragment_ w = frag_of w0) ws0 ws →
  Forall2 (λ w0 w, fragment_ w = frag_of w0) ws0 (batch_iteration FLAGS ws).
Proof.
  intros H. unfold batch_iteration.
  apply invariant_map; [|done].
  apply invariant_ToTerminate; [|done].
  apply invariant_FinishARound; [|done].
  apply invariant_map; [done|]. intros ?? <-. apply batch_round_fragment.
Qed.

(** C10. A round of the batch loop works on the ranges of the fragment the
    worker holds when the round starts.  After [deltaCompute] the worker
    holds the fragment produced by [Build], and it keeps it through the
    rounds of the resumed loop; so each of these rounds is the round on the
    inner and outer ranges of the new fragment. *)
Theorem resumed_batch_rounds_use_the_new_fragment
    fuel (ws ws' : list (worker (value_t := value_t))) n :
  deltaCompute FLAGS fuel ws = Ok ws' →
  Forall2 (λ w wn,
             let new := Build (inc_fragment_builder FLAGS (fragment_ w)
                                 (FLAGS_directed FLAGS) (FLAGS_efile_update FLAGS)) in
             fragment_ wn = new ∧
             batch_round FLAGS wn =
               batch_round_on FLAGS (InnerVertices new) (OuterVertices new) wn)
          ws (Nat.iter n (batch_iteration FLAGS) (map round_end ws')).
Proof.
  intros Hdc. apply deltaCompute_fragment in Hdc.
  eapply Forall2_impl with
    (P := λ w wn, fragment_ wn =
                  Build (inc_fragment_builder FLAGS (fragment_ w)
                           (FLAGS_directed FLAGS) (FLAGS_efile_update FLAGS))).
  - induction n as [|n IH]; simpl.
    + apply invariant_map; done.
    + by apply (batch_iteration_fragment _ _
        (λ w, Build (inc_fragment_builder FLAGS (fragment_ w)
                       (FLAGS_directed FLAGS) (FLAGS_efile_update FLAGS)))).
  - intros w wn Hf. cbv zeta. split; [done|]. unfold batch_round. by rewrite Hf.
Qed.

(** ** The effect of one reset round on a worker *)

Lemma foldl_elem_of {A : Type} (f : A → DenseVertexSet → DenseVertexSet)
    (Q : A → Prop) (v : vertex_t) (l : list A) (s : DenseVertexSet) :
  (∀ x s, v ∈ f x s ↔ v ∈ s ∨ Q x) →
  v ∈ foldl (λ s x, f x s) s l ↔ v ∈ s ∨ ∃ x, x ∈ l ∧ Q x.
Proof.
  intros Hf. revert s. induction l as [|x l IH]; intros s; simpl.
  - split; [by left|]. intros [?|(? & ?%elem_of_nil & _)]; done.
  - rewrite IH, Hf. split.
    + intros [[?|?]|(y & ? & ?)]; [by left| |].
      * right. exists x. split; [left|done].
      * right. exists y. split; [by right|done].
    + intros [?|(y & [->|?]%elem_of_cons & ?)].
      * left. by left.
      * left. by right.
      * right. by exists y.
Qed.

Lemma reset_mark_elem_of frag a u next v :
  v ∈ reset_mark frag a u next ↔
  v ∈ next ∨ ∃ e, e ∈ GetOutgoingAdjList frag u ∧
                  neighbor e = v ∧ DeltaParentGid a v = Vertex2Gid frag u.
Proof.
  unfold reset_mark.
  apply (foldl_elem_of
    (λ (e : nbr_t) (next : DenseVertexSet),
       if decide (DeltaParentGid a (neighbor e) = Vertex2Gid frag u)
       then {[neighbor e]} ∪ next else next)
    (λ e, neighbor e = v ∧ DeltaParentGid a v = Vertex2Gid frag u)).
  intros e s. case_decide as Hp.
  - rewrite elem_of_union, elem_of_singleton. split.
    + intros [->|?]; [by right|by left].
    + intros [?|[<- _]]; [by right|by left].
  - split; [by left|]. intros [?|[<- ?]]; done.
Qed.

(** An out-edge of [u] to [v] along which [v] records [u] as its parent. *)
Definition child_of frag a (u v : vertex_t) : Prop :=
  ∃ e, e ∈ GetOutgoingAdjList frag u ∧ neighbor e = v ∧
       DeltaParentGid a v = Vertex2Gid frag u.

Lemma ForEach_reset_mark_elem_of frag a set range next v :
  v ∈ ForEach set range (reset_mark frag a) next ↔
  v ∈ next ∨ ∃ u, u ∈ range ∧ u ∈ set ∧ child_of frag a u v.
Proof.
  unfold ForEach.
  rewrite (foldl_elem_of (reset_mark frag a) (λ u, child_of frag a u v)).
  - split; (intros [?|(u & Hu & ?)]; [by left|right; exists u]).
    + apply list_elem_of_filter in Hu. naive_solver.
    + rewrite list_elem_of_filter. naive_solver.
  - intros u s. apply reset_mark_elem_of.
Qed.

Lemma foldl_reset_clear (l : list vertex_t) w :
  let w' := foldl (λ s u, reset_clear u s) w l in
  static w' = static w ∧ trace w' = trace w ∧ messages_ w' = messages_ w ∧
  curr_modified (frame w') = curr_modified (frame w) ∧
  next_modified (frame w') = next_modified (frame w) ∧
  reset_vertices (frame w') = list_to_set l ∪ reset_vertices (frame w) ∧
  (∀ v, v ∈ l → values_ (app_ w') v = GetIdentityElement) ∧
  (∀ v, v ∉ l → values_ (app_ w') v = values_ (app_ w) v ∧
                deltas_ (app_ w') v = deltas_ (app_ w) v).
Proof.
  revert w. induction l as [|x l IH]; intros w; simpl.
  - repeat split; try done.
    + set_solver.
    + by intros ? ?%elem_of_nil.
  - destruct (IH (reset_clear x w)) as (Hs & Ht & Hm & Hc & Hn & Hr & Hin & Hout).
    rewrite Hs, Ht, Hm, Hc, Hn, Hr. simpl.
    repeat split; try done.
    + set_solver.
    + intros v Hv. destruct (decide (v ∈ l)) as [Hl|Hl]; [by apply Hin|].
      destruct (Hout v Hl) as [-> _]. simpl.
      apply elem_of_cons in Hv as [->|?]; [|done].
      by rewrite fn_lookup_insert.
    + destruct (Hout v) as [-> _]; [set_solver|]. simpl.
      rewrite fn_lookup_insert_ne; [done|set_solver].
    + destruct (Hout v) as [_ ->]; [set_solver|]. simpl.
      rewrite fn_lookup_insert_ne; [done|set_solver].
Qed.

Lemma foldl_reset_send (l : list vertex_t) w :
  let w' := foldl (λ s v, reset_send v s) w l in
  static w' = static w ∧ frame w' = frame w ∧
  values_ (app_ w') = values_ (app_ w) ∧
  trace w' = trace w ++ map (λ v, EvSync v None) l ∧
  (∀ v, v ∉ l → deltas_ (app_ w') v = deltas_ (app_ w) v).
Proof.
  revert w. induction l as [|x l IH]; intros w; simpl.
  - by rewrite app_nil_r.
  - destruct (IH (reset_send x w)) as (Hs & Hf & Hv & Ht & Hd).
    rewrite Hs, Hf, Hv, Ht. simpl. rewrite <- app_assoc.
    repeat split; try done.
    intros v Hn. rewrite Hd by set_solver. simpl.
    rewrite fn_lookup_insert_ne; [done|set_solver].
Qed.

Lemma foldl_reset_process (msgs : list (vertex_t * option (DependencyData value_t))) w :
  let w' := foldl (λ w (m : vertex_t * option (DependencyData value_t)),
                     set_frame (set_curr_modified ({[m.1]} ∪ curr_modified (frame w))
                                  (frame w))
                       (emit (EvProcess m.1 m.2) w)) w msgs in
  app_ w' = app_ w ∧ static w' = static w ∧
  next_modified (frame w') = next_modified (frame w) ∧
  reset_vertices (frame w') = reset_vertices (frame w) ∧
  curr_modified (frame w') = list_to_set (map fst msgs) ∪ curr_modified (frame w).
Proof.
  revert w. induction msgs as [|m msgs IH]; intros w; simpl.
  - repeat split; try done. set_solver.
  - destruct (IH (set_frame
                    (set_curr_modified ({[m.1]} ∪ curr_modified (frame w)) (frame w))
                    (emit (EvProcess m.1 m.2) w))) as (Ha & Hs & Hn & Hr & Hc).
    rewrite Ha, Hs, Hn, Hr, Hc. simpl. repeat split; try done. set_solver.
Qed.

Lemma reset_process_spec w :
  let w' := reset_process w in
  app_ w' = app_ w ∧ static w' = static w ∧
  next_modified (frame w') = next_modified (frame w) ∧
  reset_vertices (frame w') = reset_vertices (frame w) ∧
  curr_modified (frame w') =
    list_to_set (map fst (inbox (messages_ w))) ∪ curr_modified (frame w).
Proof.
  unfold reset_process, take_inbox.
  match goal with |- context [foldl _ ?w0 ?l] =>
    pose proof (foldl_reset_process l w0) as H
  end.
  exact H.
Qed.

(** The vertices cleared by a round: the inner vertices that are in
    [curr_modified] or named by a received message. *)
Definition round_frontier w : DenseVertexSet :=
  list_to_set (map fst (inbox (messages_ w))) ∪ curr_modified (frame w).

Lemma reset_round_spec w :
  let w' := reset_round w in
  let cleared := filter (λ u, u ∈ round_frontier w) (inner_vertices (frame w)) in
  static w' = static w ∧
  trace w' = trace w ++ EvStartARound :: reset_round_calls w ∧
  curr_modified (frame w') = round_frontier w ∧
  (∀ v, v ∈ next_modified (frame w') ↔
        v ∈ next_modified (frame w) ∨
        ∃ u, u ∈ cleared ∧ child_of (fragment_ w) (app_ w) u v) ∧
  reset_vertices (frame w') = list_to_set cleared ∪ reset_vertices (frame w) ∧
  (∀ v, v ∈ cleared → values_ (app_ w') v = GetIdentityElement) ∧
  (∀ v, v ∉ cleared → values_ (app_ w') v = values_ (app_ w) v) ∧
  (∀ v, v ∉ cleared → v ∉ outer_vertices (frame w) →
        deltas_ (app_ w') v = deltas_ (app_ w) v).
Proof.
  cbv zeta. split; [apply reset_round_static|]. split; [apply reset_round_trace|].
  unfold reset_round.
  destruct (reset_process_spec (StartARound w)) as (Ha & Hs & Hn & Hr & Hc).
  set (w1 := reset_process (StartARound w)) in *.
  assert (static w1 = static w) as Hs' by by rewrite Hs.
  unfold static in Hs'. injection Hs' as Hfrag _ Hinner Houter _.
  assert (curr_modified (frame w1) = round_frontier w) as Hc' by done.
  assert (app_ w1 = app_ w) as Ha' by done.
  assert (next_modified (frame w1) = next_modified (frame w)) as Hn' by done.
  assert (reset_vertices (frame w1) = reset_vertices (frame w)) as Hr' by done.
  clear Ha Hs Hn Hr Hc.
  set (nx := ForEach _ _ (reset_mark _ _) _).
  set (w2 := set_frame (set_next_modified nx (frame w1)) w1).
  set (w3 := ForEach (curr_modified (frame w1)) (inner_vertices (frame w1))
               reset_clear w2).
  set (w4 := ForEach nx (outer_vertices (frame w1)) reset_send w3).
  pose proof (foldl_reset_clear (filter (λ u, u ∈ curr_modified (frame w1))
                                   (inner_vertices (frame w1))) w2)
    as (Hs2 & _ & _ & Hc2 & Hn2 & Hr2 & Hin2 & Hout2).
  change (foldl _ w2 _) with w3 in Hs2, Hc2, Hn2, Hr2, Hin2, Hout2.
  pose proof (foldl_reset_send (filter (λ u, u ∈ nx) (outer_vertices (frame w1))) w3)
    as (_ & Hf4 & Hv4 & _ & Hd4).
  change (foldl _ w3 _) with w4 in Hf4, Hv4, Hd4.
  rewrite Hf4, Hv4, Hc2, Hn2, Hr2. simpl.
  rewrite Hc', Hinner, Hr' in *.
  split; [done|]. split.
  { intros v. subst nx. rewrite ForEach_reset_mark_elem_of.
    rewrite Hfrag, Ha', Hn', Hc', Hinner.
    split; (intros [?|(u & Hu)]; [by left|right; exists u]).
    - rewrite list_elem_of_filter. naive_solver.
    - rewrite list_elem_of_filter in Hu. naive_solver. }
  split; [done|]. split; [done|]. split.
  { intros v Hv. destruct (Hout2 v Hv) as [-> _]. simpl. by rewrite Ha'. }
  intros v Hv Ho. rewrite Hd4.
  - destruct (Hout2 v Hv) as [_ ->]. simpl. by rewrite Ha'.
  - rewrite list_elem_of_filter, Houter. naive_solver.
Qed.

(** ** The reset loop: which vertices are cleared *)

Lemma invalidated_mono frag a deleted (named named' : vertex_t → Prop) v :
  (∀ x, named x → named' x) →
  invalidated frag a deleted named v → invalidated frag a deleted named' v.
Proof.
  intros Hsub. induction 1 as [edge v He Hs|v Hn|u e _ IH Hu He Hp].
  - by eapply invalidated_seed.
  - apply invalidated_named. by apply Hsub.
  - by eapply invalidated_child.
Qed.

Lemma reset_round_end_spec w :
  let w' := reset_round_end w in
  app_ w' = app_ w ∧ static w' = static w ∧
  curr_modified (frame w') = next_modified (frame w) ∧
  next_modified (frame w') = ∅ ∧
  reset_vertices (frame w') = reset_vertices (frame w) ∧
  ∃ vote, trace w' = trace w ++ vote ∧ Forall (λ e, ¬ is_process e) vote.
Proof.
  unfold reset_round_end. case_decide; simpl.
  - repeat split; try done. exists [EvForceContinue]. split; [done|].
    repeat constructor. by intros (? & ? & ?).
  - repeat split; try done. exists []. by rewrite app_nil_r.
Qed.

Lemma named_in_round (es rest : list (event (value_t := value_t))) w v :
  Forall (λ e, ¬ is_process e) rest →
  named_in (es ++ EvStartARound :: reset_round_calls w ++ rest) v ↔
  named_in es v ∨ v ∈ map fst (inbox (messages_ w)).
Proof.
  intros Hrest. unfold named_in, reset_round_calls. split.
  - intros (msg & Hin). rewrite elem_of_app, elem_of_cons, !elem_of_app in Hin.
    destruct Hin as [?|[?|[[Hin|Hin]|Hin]]]; [left; by exists msg|done| | |].
    + right. apply list_elem_of_fmap in Hin as ([v' msg'] & [= -> ->] & Hin).
      apply list_elem_of_fmap. by exists (v', msg').
    + by apply list_elem_of_fmap in Hin as (? & ? & _).
    + rewrite Forall_forall in Hrest. destruct (Hrest _ Hin). by do 2 eexists.
  - intros [(msg & Hin)|Hin].
    + exists msg. apply elem_of_app. by left.
    + apply list_elem_of_fmap in Hin as ([v' msg] & -> & Hin). exists msg.
      rewrite elem_of_app, elem_of_cons, !elem_of_app. right. right. left. left.
      apply list_elem_of_fmap. by exists (v', msg).
Qed.

Section ResetInvariant.

(** The worker when the reset loop is entered. *)
Variable w0 : worker (value_t := value_t).
Hypothesis inner_not_outer :
  ∀ v, v ∈ inner_vertices (frame w0) → v ∉ outer_vertices (frame w0).
Hypothesis inner_range :
  inner_vertices (frame w0) = InnerVertices (fragment_ w0).

Let frag := fragment_ w0.
Let a0 := app_ w0.
Let deleted := GetDeletedEdgesGid (builder (frame w0)).
Let inner := inner_vertices (frame w0).

Definition seeded (v : vertex_t) : Prop :=
  ∃ edge, edge ∈ deleted ∧ seeds frag a0 edge v.

(** What holds of the worker [w] between two rounds, [es] being the events
    since the loop was entered. *)
Record reset_inv (es : list event) (w : worker) : Prop := {
  ri_static : static w = static w0;
  ri_trace : trace w = trace w0 ++ es;
  ri_next : next_modified (frame w) = ∅;
  ri_cleared : ∀ v, v ∈ reset_vertices (frame w) →
                    v ∈ inner ∧ values_ (app_ w) v = GetIdentityElement;
  ri_values : ∀ v, v ∉ reset_vertices (frame w) →
                   values_ (app_ w) v = values_ a0 v;
  ri_deltas : ∀ v, v ∉ reset_vertices (frame w) → v ∉ outer_vertices (frame w0) →
                   deltas_ (app_ w) v = deltas_ a0 v;
  ri_sound : ∀ v, v ∈ curr_modified (frame w) ∨ v ∈ reset_vertices (frame w) →
                  v ∈ inner → invalidated frag a0 deleted (named_in es) v;
  ri_closed : ∀ u v, u ∈ reset_vertices (frame w) → v ∈ inner →
                     child_of frag a0 u v →
                     v ∈ reset_vertices (frame w) ∨ v ∈ curr_modified (frame w);
  ri_roots : ∀ v, v ∈ inner → seeded v ∨ named_in es v →
                  v ∈ reset_vertices (frame w) ∨ v ∈ curr_modified (frame w);
}.

Lemma child_of_deltas a a' u v :
  deltas_ a v = deltas_ a' v → child_of frag a u v → child_of frag a' u v.
Proof.
  intros Hd (e & He & Hn & Hp). exists e. split; [done|]. split; [done|].
  unfold DeltaParentGid in *. by rewrite <- Hd.
Qed.

Lemma invalidated_child_of named u v :
  invalidated frag a0 deleted named u → u ∈ inner → child_of frag a0 u v →
  invalidated frag a0 deleted named v.
Proof.
  intros Hu Hin (e & He & <- & Hp). eapply invalidated_child; try done.
  unfold inner in Hin. by rewrite inner_range in Hin.
Qed.

Lemma reset_inv_step es w m b :
  reset_inv es w →
  ∃ es', reset_inv es'
           (emit (EvToTerminate b)
              (reset_round_end (emit EvFinishARound (set_messages m (reset_round w))))).
Proof.
  intros [Hst Htr Hnx Hcl Hval Hdel Hsound Hclosed Hroots].
  destruct (reset_round_spec w) as (Hst' & Htr' & Hcurr' & Hnext' & Hreset' & Hvin & Hvout & Hd').
  set (wr := reset_round w) in *.
  set (wf := emit EvFinishARound (set_messages m wr)).
  destruct (reset_round_end_spec wf) as (Ha & Hs & Hc & Hn & Hr & vote & Ht & Hvote).
  set (we := reset_round_end wf) in *.
  assert (static w = static w0) as Hst0 by done.
  unfold static in Hst0. injection Hst0 as Hfrag _ Hinn Hout _.
  set (cleared := filter (λ u, u ∈ round_frontier w) (inner_vertices (frame w))) in *.
  assert (∀ v, v ∈ cleared ↔ v ∈ round_frontier w ∧ v ∈ inner) as Hcleared.
  { intros v. subst cleared. rewrite list_elem_of_filter. by rewrite Hinn. }
  assert (∀ v, v ∈ round_frontier w ↔
               v ∈ map fst (inbox (messages_ w)) ∨ v ∈ curr_modified (frame w))
    as Hfrontier.
  { intros v. unfold round_frontier. rewrite elem_of_union, elem_of_list_to_set. done. }
  set (es' := es ++ EvStartARound :: reset_round_calls w ++
              (EvFinishARound :: vote ++ [EvToTerminate b])).
  assert (∀ v, named_in es' v ↔ named_in es v ∨ v ∈ map fst (inbox (messages_ w)))
    as Hnamed.
  { intros v. apply named_in_round. constructor; [by intros (? & ? & ?)|].
    apply Forall_app. split; [done|]. repeat constructor. by intros (? & ? & ?). }
  assert (∀ v, v ∈ cleared → invalidated frag a0 deleted (named_in es') v) as Hinv_cleared.
  { intros v [[Hv|Hv]%Hfrontier Hvi]%Hcleared.
    - apply invalidated_named, Hnamed. by right.
    - eapply invalidated_mono; [|apply Hsound; [by left|done]].
      intros x ?. apply Hnamed. by left. }
  set (wt := emit (EvToTerminate b) we).
  assert (app_ wt = app_ wr) as Hat by (transitivity (app_ we); [done|by rewrite Ha]).
  assert (static wt = static w0) as Hstt.
  { transitivity (static we); [done|]. rewrite Hs.
    transitivity (static wr); [done|]. by rewrite Hst'. }
  assert (curr_modified (frame wt) = next_modified (frame wr)) as Hct
    by (transitivity (curr_modified (frame we)); [done|by rewrite Hc]).
  assert (next_modified (frame wt) = ∅) as Hnt
    by (transitivity (next_modified (frame we)); [done|by rewrite Hn]).
  assert (reset_vertices (frame wt) =
          list_to_set cleared ∪ reset_vertices (frame w)) as Hrt.
  { transitivity (reset_vertices (frame we)); [done|]. rewrite Hr.
    transitivity (reset_vertices (frame wr)); [done|]. by rewrite Hreset'. }
  assert (trace wt = trace w0 ++ es') as Htt.
  { transitivity (trace we ++ [EvToTerminate b]); [done|]. rewrite Ht.
    transitivity (((trace wr ++ [EvFinishARound]) ++ vote) ++ [EvToTerminate b]);
      [done|].
    rewrite Htr', Htr. subst es'.
    rewrite <- !app_assoc. simpl. by rewrite <- ?app_assoc. }
  clearbody wt. clear Ha Hs Hc Hn Hr Ht.
  exists es'. split.
  - (* static *) done.
  - (* trace *) done.
  - (* next *) done.
  - (* cleared *) rewrite Hrt, Hat.
    intros v [Hv|Hv]%elem_of_union.
    + apply elem_of_list_to_set in Hv. split; [by apply Hcleared in Hv as [_ ?]|].
      by apply Hvin.
    + destruct (Hcl v Hv) as [Hvi Hid]. split; [done|].
      destruct (decide (v ∈ cleared)) as [?|Hnc]; [by apply Hvin|].
      by rewrite Hvout.
  - (* values *) rewrite Hrt, Hat.
    intros v Hv. rewrite Hvout; [apply Hval|]; set_solver.
  - (* deltas *) rewrite Hrt, Hat.
    intros v Hv Ho. rewrite Hd'; [apply Hdel; [set_solver|done]|set_solver|].
    by rewrite Hout.
  - (* sound *) rewrite Hrt, Hct.
    intros v Hv Hvi.
    assert (v ∈ reset_vertices (frame w) →
            invalidated frag a0 deleted (named_in es') v) as Hold.
    { intros Hv'. eapply invalidated_mono; [|apply Hsound; [by right|done]].
      intros x ?. apply Hnamed. by left. }
    destruct Hv as [Hv|[Hv|Hv]%elem_of_union].
    + apply Hnext' in Hv as [Hv|(u & Hu & Hch)]; [by rewrite Hnx in Hv|].
      destruct (decide (v ∈ reset_vertices (frame w))) as [?|Hnr]; [by apply Hold|].
      apply (invalidated_child_of _ u); [by apply Hinv_cleared|by apply Hcleared in Hu as [_ ?]|].
      rewrite Hfrag in Hch. eapply child_of_deltas; [|done].
      apply Hdel; [done|]. by apply inner_not_outer.
    + apply Hinv_cleared. by apply elem_of_list_to_set in Hv.
    + by apply Hold.
  - (* closed *) rewrite Hrt, Hct.
    intros u v Hu Hvi Hch.
    destruct (decide (v ∈ reset_vertices (frame w))) as [?|Hnr]; [left; set_solver|].
    apply elem_of_union in Hu as [Hu|Hu].
    + right. apply Hnext'. right. exists u.
      split; [by apply elem_of_list_to_set in Hu|].
      rewrite Hfrag. eapply child_of_deltas; [|done].
      symmetry. apply Hdel; [done|]. by apply inner_not_outer.
    + destruct (Hclosed u v Hu Hvi Hch) as [?|Hv]; [done|].
      left. apply elem_of_union. left. apply elem_of_list_to_set, Hcleared.
      split; [|done]. apply Hfrontier. by right.
  - (* roots *) rewrite Hrt, Hct.
    intros v Hvi Hroot.
    assert (v ∈ reset_vertices (frame w) ∨ v ∈ round_frontier w) as [?|Hv].
    { destruct Hroot as [Hsd|[Hn|Hn]%Hnamed].
      - destruct (Hroots v Hvi (or_introl Hsd)) as [?|?]; [by left|].
        right. apply Hfrontier. by right.
      - destruct (Hroots v Hvi (or_intror Hn)) as [?|?]; [by left|].
        right. apply Hfrontier. by right.
      - right. apply Hfrontier. by left. }
    + left. set_solver.
    + left. apply elem_of_union. left. by apply elem_of_list_to_set, Hcleared.
Qed.

(** With an empty frontier, the cleared vertices are all the invalidated
    inner vertices. *)
Lemma reset_inv_complete es w v :
  reset_inv es w → curr_modified (frame w) = ∅ →
  v ∈ inner → invalidated frag a0 deleted (named_in es) v →
  v ∈ reset_vertices (frame w).
Proof.
  intros [_ _ _ _ _ _ _ Hclosed Hroots] Hempty Hvi Hinv.
  induction Hinv as [edge v He Hs|v Hn|u e Hu IH Hui He Hp].
  - destruct (Hroots v Hvi) as [?|Hc]; [left; by exists edge|done|].
    by rewrite Hempty in Hc.
  - destruct (Hroots v Hvi (or_intror Hn)) as [?|Hc]; [done|].
    by rewrite Hempty in Hc.
  - assert (u ∈ inner) as Hui' by (unfold inner; by rewrite inner_range).
    destruct (Hclosed u (neighbor e) (IH Hui') Hvi) as [?|Hc]; [by exists e|done|].
    by rewrite Hempty in Hc.
Qed.

End ResetInvariant.

Definition reset_invariant (w0 w : worker (value_t := value_t)) : Prop :=
  (∀ v, v ∈ inner_vertices (frame w0) → v ∉ outer_vertices (frame w0)) →
  inner_vertices (frame w0) = InnerVertices (fragment_ w0) →
  ∃ es, reset_inv w0 es w.

Lemma reset_loop_invariant fuel (ws0 ws ws' : list (worker (value_t := value_t))) :
  Forall2 reset_invariant ws0 ws →
  reset_loop fuel ws = Ok ws' →
  Forall2 reset_invariant ws0 ws'.
Proof.
  revert ws. induction fuel as [|fuel IH]; intros ws H; simpl; [done|].
  set (b := forallb _ _).
  assert (Forall2 reset_invariant ws0
            (map (emit (EvToTerminate b))
               (map reset_round_end (FinishARound (map reset_round ws))))) as Hstep.
  { apply (lockstep_map
             (λ x0 w, ∃ w1 m, reset_invariant x0 w1 ∧
                w = reset_round_end (emit EvFinishARound (set_messages m (reset_round w1))))).
    - apply (lockstep_map
               (λ x0 w, ∃ w1 m, reset_invariant x0 w1 ∧
                  w = emit EvFinishARound (set_messages m (reset_round w1)))).
      + apply (lockstep_FinishARound
                 (λ x0 w, ∃ w1, reset_invariant x0 w1 ∧ w = reset_round w1)).
        * apply (lockstep_map reset_invariant); [done|]. intros x0 w ?. by exists w.
        * intros x0 w m (w1 & ? & ->). by exists w1, m.
      + intros x0 w (w1 & m & ? & ->). by exists w1, m.
    - intros x0 w (w1 & m & Hinv & ->) Hd Hr.
      destruct (Hinv Hd Hr) as (es & Hes).
      by apply (reset_inv_step x0 Hd Hr es). }
  destruct b; [by intros [= <-]|]. by apply IH.
Qed.

Lemma deltaCompute_seed_invariant w w1 :
  deltaCompute_seed FLAGS w = Ok w1 → reset_invariant w1 w1.
Proof.
  intros Hseed _ _. exists [].
  destruct (deltaCompute_seed_result w w1 Hseed) as (Hcurr & _ & Happ & _).
  destruct (deltaCompute_seed_static _ _ Hseed) as (Hfrag & _ & _ & Hb).
  assert (next_modified (frame w1) = ∅ ∧ reset_vertices (frame w1) = ∅) as [Hn Hr].
  { unfold deltaCompute_seed in Hseed.
    destruct (seed_edges _ _ _ _); simpl in Hseed; [|done..].
    injection Hseed as <-. by rewrite coordinator_log_frame. }
  split.
  - done.
  - by rewrite app_nil_r.
  - done.
  - intros v Hv. by rewrite Hr in Hv.
  - done.
  - done.
  - intros v [Hv|Hv] _; [|by rewrite Hr in Hv].
    apply Hcurr in Hv as (edge & He & Hs).
    apply (invalidated_seed _ _ _ _ edge); rewrite ?Hb, ?Hfrag, ?Happ; done.
  - intros u v Hu. by rewrite Hr in Hu.
  - intros v _ [(edge & He & Hs)|(? & ?%elem_of_nil)]; [|done].
    right. apply Hcurr. exists edge. rewrite Hb, Hfrag, Happ in *. done.
Qed.

Lemma deltaCompute_seed_outer w w1 :
  deltaCompute_seed FLAGS w = Ok w1 →
  outer_vertices (frame w1) = OuterVertices (fragment_ w).
Proof.
  unfold deltaCompute_seed. destruct (seed_edges _ _ _ _); simpl; [|done..].
  intros [= <-]. rewrite coordinator_log_frame. simpl.
  by rewrite coordinator_log_fragment.
Qed.

Lemma named_in_logs (logs es : list (event (value_t := value_t))) v :
  Forall is_log logs → named_in (logs ++ es) v ↔ named_in es v.
Proof.
  intros Hlogs. unfold named_in. split.
  - intros (msg & [Hin|Hin]%elem_of_app); [|by exists msg].
    rewrite Forall_forall in Hlogs. by destruct (Hlogs _ Hin) as (? & ? & ?).
  - intros (msg & Hin). exists msg. apply elem_of_app. by right.
Qed.

(** C2 (amended). After seeding and the reset loop, on every worker whose
    inner and outer ranges are disjoint: a vertex is cleared only if it is an
    inner vertex with grounds to be cleared, namely it is a seed, or it was
    named by an invalidation message the worker received, or it is an
    out-neighbour of such a vertex with that vertex recorded as its parent
    when [deltaCompute] was entered; every cleared vertex has the identity
    element as its value and every other value is untouched; and when the
    loop is left with an empty frontier, every inner vertex with such grounds
    has been cleared.  A vertex named by a peer's message is cleared whatever
    its own recorded parent is. *)
Theorem reset_phase_clears_the_invalidated_vertices
    fuel (ws ws' : list (worker (value_t := value_t))) :
  reset_phase FLAGS fuel ws = Ok ws' →
  Forall2 (λ w w',
     let frag := fragment_ w in
     let deleted_edges :=
       GetDeletedEdgesGid (inc_fragment_builder FLAGS frag (FLAGS_directed FLAGS)
                             (FLAGS_efile_update FLAGS)) in
     (∀ v, v ∈ InnerVertices frag → v ∉ OuterVertices frag) →
     ∃ es, trace w' = trace w ++ es ∧
       (∀ v, v ∈ reset_vertices (frame w') →
             v ∈ InnerVertices frag ∧
             values_ (app_ w') v = GetIdentityElement ∧
             invalidated frag (app_ w) deleted_edges (named_in es) v) ∧
       (∀ v, v ∉ reset_vertices (frame w') →
             values_ (app_ w') v = values_ (app_ w) v) ∧
       (curr_modified (frame w') = ∅ →
        ∀ v, v ∈ InnerVertices frag →
             invalidated frag (app_ w) deleted_edges (named_in es) v →
             v ∈ reset_vertices (frame w')))
    ws ws'.
Proof.
  unfold reset_phase.
  destruct (rmapM _ ws) as [ws1| |] eqn:Hseed; simpl; [|done..].
  intros Hloop. apply rmapM_Forall2 in Hseed.
  assert (Forall2 reset_invariant ws1 ws') as Hinv.
  { eapply reset_loop_invariant; [|done].
    apply Forall2_same_length_lookup. split; [done|].
    intros i w1 w1' H1 H1'. rewrite H1 in H1'. injection H1' as <-.
    apply Forall2_same_length_lookup in Hseed as [Hl Hseed].
    destruct (lookup_lt_is_Some_2 ws i) as [w Hw].
    { rewrite Hl. by eapply lookup_lt_Some. }
    eapply deltaCompute_seed_invariant, Hseed; done. }
  apply Forall2_same_length_lookup in Hseed as [Hl1 Hseed].
  apply Forall2_same_length_lookup in Hinv as [Hl2 Hinv].
  apply Forall2_same_length_lookup. split; [congruence|].
  intros i w w' Hw Hw'.
  destruct (lookup_lt_is_Some_2 ws1 i) as [w1 Hw1].
  { rewrite <- Hl1. by eapply lookup_lt_Some. }
  pose proof (Hseed _ _ _ Hw Hw1) as Hs.
  destruct (deltaCompute_seed_result w w1 Hs) as (_ & _ & Happ & logs & Hlogs & Flogs).
  destruct (deltaCompute_seed_static _ _ Hs) as (Hfrag & _ & Hinn & Hb).
  pose proof (deltaCompute_seed_outer _ _ Hs) as Hout.
  cbv zeta. intros Hdisj.
  assert (∀ v, v ∈ inner_vertices (frame w1) → v ∉ outer_vertices (frame w1))
    as Hd1 by (rewrite Hinn, Hout; apply Hdisj).
  assert (inner_vertices (frame w1) = InnerVertices (fragment_ w1)) as Hr1
    by by rewrite Hinn, Hfrag.
  destruct (Hinv _ _ _ Hw1 Hw' Hd1 Hr1) as (es & Hes).
  exists (logs ++ es).
  assert (∀ v, invalidated (fragment_ w1) (app_ w1)
                 (GetDeletedEdgesGid (builder (frame w1))) (named_in es) v ↔
               invalidated (fragment_ w) (app_ w)
                 (GetDeletedEdgesGid (inc_fragment_builder FLAGS (fragment_ w)
                    (FLAGS_directed FLAGS) (FLAGS_efile_update FLAGS)))
                 (named_in (logs ++ es)) v) as Hsame.
  { intros v. rewrite Hfrag, Happ, Hb.
    split; apply invalidated_mono; intros x; by apply named_in_logs. }
  pose proof Hes as [_ Htr _ Hcl Hval _ Hsound Hclosed Hroots].
  split; [by rewrite Htr, Hlogs, app_assoc|]. split; [|split].
  - intros v Hv. destruct (Hcl v Hv) as [Hvi Hid]. rewrite Hinn in Hvi.
    split; [done|]. split; [done|]. apply Hsame, Hsound; [by right|by rewrite Hinn].
  - intros v Hv. rewrite <- Happ. by apply Hval.
  - intros Hempty v Hvi Hg.
    apply (reset_inv_complete w1 Hr1 es w' v Hes Hempty);
      [by rewrite Hinn|by apply Hsame].
Qed.

(** * Further properties of the worker *)

(** ** Seeding: aborts and the order of the deleted edges (lines 105-120) *)

(** A deleted edge on which a [CHECK] of lines 111-112 fails: both tests of
    line 108 pass and one of the two gids has no handle. *)
Definition untranslatable frag (edge : vid_t * vid_t) : Prop :=
  edge.1 ∈ local_gid_set frag ∧ IsInnerGid frag edge.2 = true ∧
  (Gid2Vertex frag edge.1 = None ∨ Gid2Vertex frag edge.2 = None).

Lemma seed_edge_CheckFailed frag a edge curr :
  seed_edge frag a edge curr = CheckFailed ↔ untranslatable frag edge.
Proof.
  unfold seed_edge, untranslatable.
  destruct (bool_decide (edge.1 ∈ local_gid_set frag)) eqn:Hu; simpl.
  - apply bool_decide_eq_true in Hu.
    destruct (IsInnerGid frag edge.2); simpl; [|naive_solver].
    destruct (Gid2Vertex frag edge.1) as [u|]; [|naive_solver].
    destruct (Gid2Vertex frag edge.2) as [v|]; [|naive_solver].
    case_decide; naive_solver.
  - apply bool_decide_eq_false in Hu. naive_solver.
Qed.

Lemma seed_edge_not_OutOfFuel frag a edge curr :
  seed_edge frag a edge curr ≠ OutOfFuel.
Proof.
  unfold seed_edge. destruct (_ && _); [|done].
  destruct (Gid2Vertex frag edge.1); [|done].
  destruct (Gid2Vertex frag edge.2); [|done]. by case_decide.
Qed.

Lemma seed_edges_CheckFailed frag a edges curr :
  seed_edges frag a edges curr = CheckFailed ↔
  ∃ edge, edge ∈ edges ∧ untranslatable frag edge.
Proof.
  revert curr. induction edges as [|edge rest IH]; intros curr; simpl.
  - split; [done|]. by intros (? & ?%elem_of_nil & _).
  - destruct (seed_edge frag a edge curr) as [c| |] eqn:Hstep; simpl.
    + rewrite IH. split.
      * intros (e & He & Hbad). exists e. split; [by right|done].
      * intros (e & [->|He]%elem_of_cons & Hbad); [|by exists e].
        apply (seed_edge_CheckFailed frag a _ curr) in Hbad. congruence.
    + split; [|done]. intros _. exists edge. split; [left|].
      by apply (seed_edge_CheckFailed frag a edge curr).
    + by apply seed_edge_not_OutOfFuel in Hstep.
Qed.

Lemma seed_edges_not_OutOfFuel frag a edges curr :
  seed_edges frag a edges curr ≠ OutOfFuel.
Proof.
  revert curr. induction edges as [|edge rest IH]; intros curr; simpl; [done|].
  destruct (seed_edge frag a edge curr) as [c| |] eqn:Hstep; simpl; [apply IH|done|].
  by apply seed_edge_not_OutOfFuel in Hstep.
Qed.

Lemma deltaCompute_seed_CheckFailed w :
  deltaCompute_seed FLAGS w = CheckFailed ↔
  ∃ edge, edge ∈ GetDeletedEdgesGid
                   (inc_fragment_builder FLAGS (fragment_ w)
                      (FLAGS_directed FLAGS) (FLAGS_efile_update FLAGS)) ∧
          untranslatable (fragment_ w) edge.
Proof.
  unfold deltaCompute_seed.
  rewrite !coordinator_log_fragment, !coordinator_log_app.
  rewrite <- (seed_edges_CheckFailed (fragment_ w) (app_ w) _ ∅).
  destruct (seed_edges _ _ _ _); simpl; done.
Qed.

Lemma deltaCompute_seed_not_OutOfFuel w :
  deltaCompute_seed FLAGS w ≠ OutOfFuel.
Proof.
  unfold deltaCompute_seed.
  destruct (seed_edges _ _ _ _) eqn:Hs; simpl; [done|done|].
  by apply seed_edges_not_OutOfFuel in Hs.
Qed.

Lemma rmapM_CheckFailed {A B : Type} (f : A → result B) (l : list A) :
  (∀ x, f x ≠ OutOfFuel) →
  rmapM f l = CheckFailed ↔ ∃ x, x ∈ l ∧ f x = CheckFailed.
Proof.
  intros Hf. induction l as [|x l IH]; simpl.
  - split; [done|]. by intros (? & ?%elem_of_nil & _).
  - destruct (f x) as [y| |] eqn:Hx; simpl.
    + destruct (rmapM f l) as [ys| |]; simpl.
      * split; [done|]. intros (z & [->|Hz]%elem_of_cons & Hbad); [congruence|].
        assert (Ok ys = CheckFailed) as Habs; [|done].
        apply IH. by exists z.
      * split; [|done]. intros _. destruct IH as [IH _].
        destruct (IH eq_refl) as (z & Hz & Hbad). exists z. split; [by right|done].
      * split; [done|]. intros (z & [->|Hz]%elem_of_cons & Hbad); [congruence|].
        assert (OutOfFuel (A := list B) = CheckFailed) as Habs; [|done].
        apply IH. by exists z.
    + split; [|done]. intros _. exists x. split; [left|done].
    + by apply Hf in Hx.
Qed.

Lemma reset_loop_not_CheckFailed fuel (ws : list (worker (value_t := value_t))) :
  reset_loop fuel ws ≠ CheckFailed.
Proof.
  revert ws. induction fuel as [|fuel IH]; intros ws; simpl; [done|].
  destruct (forallb _ _); [done|apply IH].
Qed.

(** X1. [deltaCompute] aborts on a failed [CHECK] exactly when some worker
    holds a deleted edge whose source gid is the gid of one of its vertices
    and whose target gid is an inner gid, while [Gid2Vertex] has no handle for
    one of the two; nothing else in [deltaCompute] aborts. *)
Theorem deltaCompute_aborts_iff_a_deleted_edge_is_untranslatable
    fuel (ws : list (worker (value_t := value_t))) :
  deltaCompute FLAGS fuel ws = CheckFailed ↔
  ∃ w edge,
    w ∈ ws ∧
    edge ∈ GetDeletedEdgesGid
             (inc_fragment_builder FLAGS (fragment_ w)
                (FLAGS_directed FLAGS) (FLAGS_efile_update FLAGS)) ∧
    untranslatable (fragment_ w) edge.
Proof.
  assert (rmapM (deltaCompute_seed FLAGS) ws = CheckFailed ↔
          ∃ w edge, w ∈ ws ∧
            edge ∈ GetDeletedEdgesGid
                     (inc_fragment_builder FLAGS (fragment_ w)
                        (FLAGS_directed FLAGS) (FLAGS_efile_update FLAGS)) ∧
            untranslatable (fragment_ w) edge) as Hseed.
  { rewrite rmapM_CheckFailed by apply deltaCompute_seed_not_OutOfFuel.
    split.
    - intros (w & Hw & (edge & He & Hbad)%deltaCompute_seed_CheckFailed).
      by exists w, edge.
    - intros (w & edge & Hw & He & Hbad). exists w. split; [done|].
      apply deltaCompute_seed_CheckFailed. by exists edge. }
  rewrite <- Hseed. unfold deltaCompute.
  destruct (rmapM _ ws) as [ws1| |]; simpl; [|done..].
  split; [|done].
  destruct (reset_loop fuel ws1) as [ws2| |] eqn:Hloop; simpl; [done| |done].
  by apply reset_loop_not_CheckFailed in Hloop.
Qed.

(** X2. The seeded set does not depend on the order in which the builder
    lists the deleted edges: on a permutation of the list the seeding loop
    gives the same result, the same set or the same abort. *)
Theorem seeding_is_independent_of_the_order_of_deleted_edges
    frag a (edges edges' : list (vid_t * vid_t)) curr :
  edges ≡ₚ edges' →
  seed_edges frag a edges curr = seed_edges frag a edges' curr.
Proof.
  intros Hperm.
  destruct (seed_edges frag a edges curr) as [c| |] eqn:H1;
    destruct (seed_edges frag a edges' curr) as [c'| |] eqn:H2;
    try done;
    try (by apply seed_edges_not_OutOfFuel in H1);
    try (by apply seed_edges_not_OutOfFuel in H2).
  - f_equal. apply set_eq. intros v.
    rewrite (seed_edges_elem_of _ _ _ _ _ H1 v), (seed_edges_elem_of _ _ _ _ _ H2 v).
    by setoid_rewrite Hperm.
  - apply seed_edges_CheckFailed in H2 as (e & He & Hbad).
    assert (seed_edges frag a edges curr = CheckFailed) as Habs; [|congruence].
    apply seed_edges_CheckFailed. exists e. by rewrite Hperm.
  - apply seed_edges_CheckFailed in H1 as (e & He & Hbad).
    assert (seed_edges frag a edges' curr = CheckFailed) as Habs; [|congruence].
    apply seed_edges_CheckFailed. exists e. by rewrite <- Hperm.
Qed.

(** ** The batch round: what it writes and when the loop ends
    (lines 252-321) *)

Lemma filter_none {A : Type} (P : A → Prop) `{!∀ x, Decision (P x)} (l : list A) :
  (∀ x, ¬ P x) → filter P l = [].
Proof.
  intros Hno. induction l as [|x l IH]; [done|].
  rewrite filter_cons. destruct (decide (P x)) as [HP|_]; [by apply Hno in HP|done].
Qed.

(** The handler of lines 263-268 on one received message. *)
Definition batch_handler w (m : vertex_t * option (DependencyData value_t)) : worker :=
  match m.2 with
  | Some msg =>
      let w := emit (EvProcess m.1 (Some msg)) w in
      let a := app_ w in
      let r := AccumulateTo m.1 msg (deltas_ a) in
      let a := set_deltas r.2 a in
      set_app (if r.1 then set_curr_modified_ ({[m.1]} ∪ curr_modified_ a) a
               else a) w
  | None => w
  end.

Lemma batch_process_handler w :
  batch_process w = foldl batch_handler (take_inbox w).2 (take_inbox w).1.
Proof. done. Qed.

Lemma batch_handler_parts w m :
  values_ (app_ (batch_handler w m)) = values_ (app_ w) ∧
  next_modified_ (app_ (batch_handler w m)) = next_modified_ (app_ w) ∧
  messages_ (batch_handler w m) = messages_ w ∧
  (∀ v, v ∈ curr_modified_ (app_ (batch_handler w m)) →
        v ∈ curr_modified_ (app_ w) ∨ v = m.1).
Proof.
  unfold batch_handler. destruct m as [x [msg|]]; simpl; [|naive_solver].
  destruct (AccumulateTo x msg (deltas_ (app_ w))) as [b d]. destruct b; simpl.
  - repeat split; try done. set_solver.
  - repeat split; try done. naive_solver.
Qed.

Lemma foldl_batch_handler_parts msgs w :
  let w' := foldl batch_handler w msgs in
  values_ (app_ w') = values_ (app_ w) ∧
  next_modified_ (app_ w') = next_modified_ (app_ w) ∧
  messages_ w' = messages_ w ∧
  (∀ v, v ∈ curr_modified_ (app_ w') →
        v ∈ curr_modified_ (app_ w) ∨ v ∈ map fst msgs).
Proof.
  revert w. induction msgs as [|m msgs IH]; intros w; simpl.
  - repeat split; try done. by left.
  - destruct (IH (batch_handler w m)) as (Hv' & Hn' & Hm' & Hc').
    destruct (batch_handler_parts w m) as (Hv & Hn & Hm & Hc).
    rewrite Hv', Hn', Hm', Hv, Hn, Hm. repeat split; try done.
    intros v Hin. destruct (Hc' v Hin) as [Hin'|Hin']; [|right; by right].
    destruct (Hc v Hin') as [?|Heq]; [by left|]. right. rewrite Heq. by left.
Qed.

Lemma batch_process_parts w :
  let w' := batch_process w in
  values_ (app_ w') = values_ (app_ w) ∧
  next_modified_ (app_ w') = next_modified_ (app_ w) ∧
  inbox (messages_ w') = [] ∧
  outbox (messages_ w') = outbox (messages_ w) ∧
  force_continue (messages_ w') = force_continue (messages_ w) ∧
  (∀ v, v ∈ curr_modified_ (app_ w') →
        v ∈ curr_modified_ (app_ w) ∨ v ∈ map fst (inbox (messages_ w))).
Proof.
  cbv zeta. rewrite batch_process_handler.
  destruct (foldl_batch_handler_parts (take_inbox w).1 (take_inbox w).2)
    as (Hv & Hn & Hm & Hc).
  rewrite Hv, Hn, Hm. done.
Qed.

Lemma batch_compute_parts u w :
  let w' := batch_compute u w in
  messages_ w' = messages_ w ∧
  curr_modified_ (app_ w') = curr_modified_ (app_ w) ∧
  (∀ v, v ≠ u → values_ (app_ w') v = values_ (app_ w) v).
Proof.
  unfold batch_compute. destruct (CombineValueDelta _ _) as [[b val'] delta'].
  simpl. destruct b; simpl;
    (split; [done|split; [done|]]; intros v Hne; by rewrite fn_lookup_insert_ne).
Qed.

Lemma foldl_batch_compute_parts (l : list vertex_t) w :
  let w' := foldl (λ s u, batch_compute u s) w l in
  messages_ w' = messages_ w ∧
  curr_modified_ (app_ w') = curr_modified_ (app_ w) ∧
  (∀ v, v ∉ l → values_ (app_ w') v = values_ (app_ w) v).
Proof.
  revert w. induction l as [|u l IH]; intros w; simpl; [done|].
  destruct (IH (batch_compute u w)) as (Hm & Hc & Hv).
  destruct (batch_compute_parts u w) as (Hm' & Hc' & Hv').
  rewrite Hm, Hc, Hm', Hc'. repeat split; try done.
  intros v Hn. rewrite Hv by set_solver. apply Hv'. set_solver.
Qed.

(** The kernel state and the message manager when a batch round ends. *)
Lemma batch_round_parts w :
  let w' := batch_round FLAGS w in
  let w1 := batch_round_computed w in
  app_ w' = app_ w1 ∧
  inbox (messages_ w') = [] ∧
  outbox (messages_ w') =
    map (λ v, (GetFragId (fragment_ w) v, Vertex2Gid (fragment_ w) v,
               Some (deltas_ (app_ w1) v)))
      (to_send (app_ w1) (next_modified_ (app_ w1)) (OuterVertices (fragment_ w))) ∧
  force_continue (messages_ w') =
    bool_decide (0 < size (next_modified_ (app_ w1))).
Proof.
  cbv zeta. rewrite batch_round_unfold. cbv zeta.
  set (w1 := batch_round_computed w).
  destruct (ForEach_send_delta (next_modified_ (app_ w1)) (OuterVertices (fragment_ w)) w1)
    as (Ha & _ & _ & _ & _ & Ho & Hi & Hfc & _).
  set (w2 := ForEach _ _ send_delta w1) in *.
  assert (inbox (messages_ w1) = [] ∧ outbox (messages_ w1) = [] ∧
          force_continue (messages_ w1) = false) as (Hi1 & Ho1 & Hf1).
  { subst w1. unfold batch_round_computed.
    set (w0 := set_app _ (StartARound w)).
    destruct (batch_process_parts w0) as (_ & _ & Hi0 & Ho0 & Hf0 & _).
    destruct (foldl_batch_compute_parts
                (filter (λ u, u ∈ curr_modified_ (app_ (batch_process w0)))
                   (InnerVertices (fragment_ (batch_process w0))))
                (batch_process w0)) as (Hm & _).
    unfold ForEach. rewrite Hm, Hi0, Ho0, Hf0. done. }
  assert (fragment_ w1 = fragment_ w) as Hfrag
    by apply batch_round_computed_fragment.
  rewrite Ha. destruct (decide (0 < size (next_modified_ (app_ w1)))) as [Hpos|Hpos].
  - simpl. rewrite Ha, Hi, Hi1, Ho, Ho1, Hfrag.
    rewrite bool_decide_eq_true_2 by done. done.
  - rewrite Ha, Hi, Hi1, Ho, Ho1, Hfrag, Hfc, Hf1.
    rewrite bool_decide_eq_false_2 by done. done.
Qed.

(** X3. A batch round writes [values_[v]] only for an inner vertex [v] that
    is in [curr_modified_] when the round starts or is the target of a
    message received in the round: the value of every other vertex, and so
    of every outer vertex, is the same after the round. *)
Theorem batch_round_writes_values_only_on_the_inner_frontier w v :
  (v ∉ InnerVertices (fragment_ w)) ∨
  ((v ∉ curr_modified_ (app_ w)) ∧ (v ∉ map fst (inbox (messages_ w)))) →
  values_ (app_ (batch_round FLAGS w)) v = values_ (app_ w) v.
Proof.
  intros Hv. destruct (batch_round_parts w) as (-> & _).
  unfold batch_round_computed.
  set (w0 := set_app _ (StartARound w)).
  destruct (batch_process_parts w0) as (Hval & _ & _ & _ & _ & Hcurr).
  destruct (foldl_batch_compute_parts
              (filter (λ u, u ∈ curr_modified_ (app_ (batch_process w0)))
                 (InnerVertices (fragment_ (batch_process w0))))
              (batch_process w0)) as (_ & _ & Hkeep).
  unfold ForEach. rewrite Hkeep; [by rewrite Hval|].
  rewrite list_elem_of_filter, batch_process_fragment.
  intros [Hin Hinner]. destruct Hv as [Hv|[Hc Hm]]; [done|].
  destruct (Hcurr v Hin) as [?|?]; done.
Qed.

Lemma ToTerminate_FinishARound_true (ws : list (worker (value_t := value_t))) w :
  (ToTerminate (FinishARound ws)).1 = true → w ∈ ws →
  Forall (λ w, active w = false) ws.
Proof.
  simpl. intros Hb Hw. apply list_elem_of_lookup in Hw as (i & Hi).
  rewrite forallb_forall in Hb.
  destruct (FinishARound_lookup ws i w Hi) as (m & Hf).
  assert (forallb (λ w, negb (active w)) ws = true) as Hq.
  { unfold FinishARound in Hf. rewrite list_lookup_imap, Hi in Hf. simpl in Hf.
    specialize (Hb (emit EvFinishARound
      (set_messages {| inbox := inbox (messages_ w) ++
                         deliver_to i (fragment_ w)
                           (concat (map (λ w, outbox (messages_ w)) ws));
                       outbox := [];
                       force_continue := force_continue (messages_ w);
                       to_terminate := forallb (λ w, negb (active w)) ws |} w))).
    apply Hb. apply list_elem_of_In. eapply list_elem_of_lookup_2.
    unfold FinishARound. rewrite list_lookup_imap, Hi. done. }
  rewrite forallb_forall in Hq. apply Forall_forall. intros x Hx.
  apply list_elem_of_In, Hq in Hx. by destruct (active x).
Qed.

Lemma FinishARound_quiet_inbox (ws : list (worker (value_t := value_t))) i w wf :
  Forall (λ w, active w = false) ws →
  ws !! i = Some w → FinishARound ws !! i = Some wf →
  inbox (messages_ wf) = inbox (messages_ w) ∧ app_ wf = app_ w ∧
  fragment_ wf = fragment_ w.
Proof.
  intros Hq Hi Hf. unfold FinishARound in Hf.
  rewrite list_lookup_imap, Hi in Hf. simpl in Hf. injection Hf as <-. simpl.
  assert (concat (map (λ w, outbox (messages_ w)) ws) = []) as ->.
  { apply concat_outbox_nil. eapply Forall_impl; [exact Hq|].
    intros x Hx. unfold active in Hx.
    apply orb_false_iff in Hx as [Hx _]. apply negb_false_iff in Hx.
    apply bool_decide_eq_true in Hx. by apply nil_length_inv. }
  by rewrite deliver_to_nil, app_nil_r.
Qed.

(** X4. When the batch loop sees [ToTerminate], every worker has an empty
    [next_modified_] and nothing delivered is waiting: the loop never stops
    while some worker still has a frontier or a delta in flight. *)
Theorem batch_phase_ends_with_no_frontier_and_no_message
    fuel (ws ws' : list (worker (value_t := value_t))) :
  batch_phase FLAGS fuel ws = Ok ws' →
  Forall (λ w', next_modified_ (app_ w') = ∅ ∧ inbox (messages_ w') = []) ws'.
Proof.
  revert ws. induction fuel as [|fuel IH]; intros ws; simpl; [done|].
  set (b := forallb _ _).
  destruct b eqn:Hb; [|apply IH].
  intros [= <-]. apply Forall_forall. intros w' Hw'.
  apply list_elem_of_fmap in Hw' as (wf & -> & Hwf).
  apply list_elem_of_lookup in Hwf as (i & Hi).
  assert (∃ w, ws !! i = Some w) as (w & Hw).
  { apply lookup_lt_is_Some_2. apply lookup_lt_Some in Hi.
    unfold FinishARound in Hi. by rewrite length_imap, length_map in Hi. }
  assert (map (batch_round FLAGS) ws !! i = Some (batch_round FLAGS w)) as Hr
    by by rewrite list_lookup_fmap, Hw.
  assert (Forall (λ w, active w = false) (map (batch_round FLAGS) ws)) as Hq.
  { apply (ToTerminate_FinishARound_true _ (batch_round FLAGS w)); [done|].
    by eapply list_elem_of_lookup_2. }
  destruct (FinishARound_quiet_inbox _ _ _ _ Hq Hr Hi) as (Hin & Ha & _).
  simpl. rewrite Hin, Ha.
  destruct (batch_round_parts w) as (Happ & Hinb & _ & Hfc).
  split; [|done].
  rewrite Forall_forall in Hq.
  assert (active (batch_round FLAGS w) = false) as Hact
    by (apply Hq; by eapply list_elem_of_lookup_2).
  unfold active in Hact. apply orb_false_iff in Hact as [_ Hvote].
  rewrite Hfc in Hvote. apply bool_decide_eq_false in Hvote.
  rewrite Happ. apply leibniz_equiv, size_empty_inv. lia.
Qed.

Lemma batch_round_idle w :
  curr_modified_ (app_ w) = ∅ → inbox (messages_ w) = [] →
  app_ (batch_round FLAGS w) = set_next_modified_ ∅ (app_ w) ∧
  active (batch_round FLAGS w) = false ∧
  trace (batch_round FLAGS w) = trace w ++ [EvStartARound].
Proof.
  intros Hcurr Hin.
  assert (batch_round_computed w =
          set_messages {| inbox := []; outbox := []; force_continue := false;
                          to_terminate := to_terminate (messages_ w) |}
            (set_app (set_next_modified_ ∅ (app_ w)) (emit EvStartARound w))) as Hw1.
  { unfold batch_round_computed.
    set (w0 := set_app _ (StartARound w)).
    assert (batch_process w0 = set_messages
              {| inbox := []; outbox := outbox (messages_ w0);
                 force_continue := force_continue (messages_ w0);
                 to_terminate := to_terminate (messages_ w0) |} w0) as ->.
    { unfold batch_process, take_inbox. subst w0. simpl. by rewrite Hin. }
    unfold ForEach. rewrite filter_none; [by subst w0|].
    intros u Hu. change (u ∈ curr_modified_ (app_ w)) in Hu.
    rewrite Hcurr in Hu. set_solver. }
  rewrite batch_round_unfold. cbv zeta. rewrite Hw1.
  unfold ForEach. rewrite filter_none by (intros u; simpl; set_solver).
  simpl. rewrite decide_False; [done|].
  change (¬ 0 < size (∅ : DenseVertexSet)). rewrite size_empty. lia.
Qed.

Lemma FinishARound_to_terminate (ws : list (worker (value_t := value_t))) :
  Forall (λ w, active w = false) ws →
  forallb (λ w, to_terminate (messages_ w)) (FinishARound ws) = true.
Proof.
  intros Hq.
  assert (forallb (λ w, negb (active w)) ws = true) as Hall.
  { apply forallb_forall. intros x Hx%list_elem_of_In.
    rewrite Forall_forall in Hq. by rewrite (Hq x Hx). }
  apply forallb_forall. intros wf Hwf%list_elem_of_In.
  apply list_elem_of_lookup in Hwf as (i & Hi).
  unfold FinishARound in Hi. rewrite list_lookup_imap in Hi.
  destruct (ws !! i) as [w|]; [|done]. simpl in Hi. injection Hi as <-. done.
Qed.

(** X5. A batch round on workers that all have an empty [curr_modified_]
    and nothing delivered is the last one: no kernel function is called,
    nothing is sent, no vote is cast, [ToTerminate] is true, and the kernel
    state is the one before the round with [next_modified_] cleared. *)
Theorem batch_phase_on_idle_workers_ends_after_one_round
    fuel (ws : list (worker (value_t := value_t))) :
  Forall (λ w, curr_modified_ (app_ w) = ∅ ∧ inbox (messages_ w) = []) ws →
  ∃ ws', batch_phase FLAGS (S fuel) ws = Ok ws' ∧
         Forall2 (λ w w',
                    app_ w' = set_next_modified_ ∅ (app_ w) ∧
                    fragment_ w' = fragment_ w ∧
                    trace w' = trace w ++
                               [EvStartARound; EvFinishARound; EvToTerminate true])
                 ws ws'.
Proof.
  intros Hidle. simpl.
  assert (Forall (λ w, active w = false) (map (batch_round FLAGS) ws)) as Hq.
  { apply Forall_fmap. eapply Forall_impl; [exact Hidle|].
    intros w [Hc Hi]. by destruct (batch_round_idle w Hc Hi) as (_ & ? & _). }
  rewrite (FinishARound_to_terminate _ Hq).
  eexists. split; [done|].
  apply (lockstep_map
           (λ w x, app_ x = set_next_modified_ ∅ (app_ w) ∧
                   fragment_ x = fragment_ w ∧
                   trace x = trace w ++ [EvStartARound; EvFinishARound])).
  - apply (lockstep_FinishARound
             (λ w x, app_ x = set_next_modified_ ∅ (app_ w) ∧
                     fragment_ x = fragment_ w ∧
                     trace x = trace w ++ [EvStartARound])).
    + apply Forall2_fmap_r, Forall_Forall2_diag.
      eapply Forall_impl; [exact Hidle|]. intros w [Hc Hi].
      destruct (batch_round_idle w Hc Hi) as (Ha & _ & Ht).
      split; [done|]. split; [apply batch_round_fragment|done].
    + intros w x m (Ha & Hf & Ht). simpl. rewrite Ht, <- app_assoc. done.
  - intros w x (Ha & Hf & Ht). simpl. rewrite Ht, <- app_assoc. done.
Qed.

(** ** The reset round and the reset phase (lines 128-171) *)

(** X6. The syncs of a reset round are exactly the empty payloads for the
    outer vertices in [next_modified], that is (with [next_modified] empty
    when the round starts, as the swap of line 170 leaves it) for the outer
    out-neighbours [v] of an inner vertex [u] of the round's frontier with
    [DeltaParentGid(v) = gid(u)]; a reset round never sends a delta. *)
Theorem reset_round_sends_empty_payloads_to_the_marked_outer_vertices w :
  trace (reset_round w) = trace w ++ EvStartARound :: reset_round_calls w ∧
  ∀ v msg,
    EvSync v msg ∈ reset_round_calls w ↔
    msg = None ∧ v ∈ outer_vertices (frame w) ∧
    (v ∈ next_modified (frame w) ∨
     ∃ u, u ∈ inner_vertices (frame w) ∧ u ∈ round_frontier w ∧
          child_of (fragment_ w) (app_ w) u v).
Proof.
  split; [apply reset_round_trace|]. intros v msg.
  destruct (reset_round_spec w) as (_ & _ & _ & Hnext & _).
  unfold reset_round_calls. rewrite elem_of_app, !list_elem_of_fmap.
  rewrite reset_round_outer. split.
  - intros [(m & [=] & _)|(v' & [= -> ->] & Hin)].
    apply list_elem_of_filter in Hin as [Hn Ho]. split; [done|]. split; [done|].
    apply Hnext in Hn as [?|(u & Hu & Hch)]; [by left|]. right.
    apply list_elem_of_filter in Hu as [? ?]. by exists u.
  - intros (-> & Ho & Hn). right. exists v. split; [done|].
    apply list_elem_of_filter. split; [|done]. apply Hnext.
    destruct Hn as [?|(u & Hu & Hf & Hch)]; [by left|]. right. exists u.
    split; [|done]. by apply list_elem_of_filter.
Qed.

Lemma reset_process_messages w :
  outbox (messages_ (reset_process w)) = outbox (messages_ w) ∧
  force_continue (messages_ (reset_process w)) = force_continue (messages_ w).
Proof.
  unfold reset_process, take_inbox.
  rewrite (foldl_preserved (λ w, outbox (messages_ w))); [|done].
  rewrite (foldl_preserved (λ w, force_continue (messages_ w))); done.
Qed.

Lemma reset_round_idle w :
  inbox (messages_ w) = [] → curr_modified (frame w) = ∅ →
  next_modified (frame w) = ∅ →
  app_ (reset_round w) = app_ w ∧ fragment_ (reset_round w) = fragment_ w ∧
  reset_vertices (frame (reset_round w)) = reset_vertices (frame w) ∧
  next_modified (frame (reset_round w)) = ∅ ∧
  active (reset_round w) = false ∧
  trace (reset_round w) = trace w ++ [EvStartARound].
Proof.
  intros Hin Hcurr Hnext.
  destruct (reset_process_spec (StartARound w)) as (Ha & Hs & Hn & Hr & Hc).
  destruct (reset_process_messages (StartARound w)) as (Ho & Hf).
  pose proof (reset_process_trace (StartARound w)) as Ht.
  unfold reset_round.
  set (w1 := reset_process (StartARound w)) in *.
  assert (curr_modified (frame w1) = ∅) as Hc1.
  { rewrite Hc. simpl. rewrite Hin, Hcurr. set_solver. }
  set (nx := ForEach _ _ (reset_mark _ _) _).
  assert (nx = ∅) as Hnx.
  { subst nx. unfold ForEach. rewrite filter_none; [simpl; by rewrite Hn|].
    intros u. rewrite Hc1. set_solver. }
  set (w2 := set_frame (set_next_modified nx (frame w1)) w1).
  assert (ForEach (curr_modified (frame w1)) (inner_vertices (frame w1))
            reset_clear w2 = w2) as ->.
  { unfold ForEach. rewrite filter_none; [done|]. intros u. rewrite Hc1. set_solver. }
  assert (ForEach nx (outer_vertices (frame w1)) reset_send w2 = w2) as ->.
  { unfold ForEach. rewrite filter_none; [done|]. intros u. rewrite Hnx. set_solver. }
  subst w2. simpl. rewrite Ha, Hr.
  unfold static in Hs. injection Hs as Hfrag _ _ _ _.
  split; [done|]. split; [done|]. split; [done|]. split; [done|]. split.
  - unfold active. simpl. rewrite Ho, Hf. done.
  - rewrite Ht. simpl. rewrite Hin. simpl. by rewrite app_nil_r.
Qed.

Lemma rmapM_Ok {A B : Type} (f : A → result B) (l : list A) :
  Forall (λ x, ∃ y, f x = Ok y) l →
  ∃ l', rmapM f l = Ok l' ∧ Forall2 (λ x y, f x = Ok y) l l'.
Proof.
  induction 1 as [|x l [y Hy] _ (l' & IH & IH2)]; simpl.
  - exists []. split; [done|constructor].
  - exists (y :: l'). rewrite Hy, IH. simpl. split; [done|by constructor].
Qed.

(** X7. When no deleted edge seeds a vertex on any worker (every deleted
    edge that passes the tests of line 108 can be translated and its target
    records another parent) and nothing delivered is waiting, the reset
    phase is one round that changes no kernel state: nothing is cleared,
    nothing is sent, and the fragment is the same. *)
Theorem reset_phase_without_seeds_changes_nothing
    fuel (ws : list (worker (value_t := value_t))) :
  Forall (λ w,
            inbox (messages_ w) = [] ∧
            ∀ edge, edge ∈ GetDeletedEdgesGid
                             (inc_fragment_builder FLAGS (fragment_ w)
                                (FLAGS_directed FLAGS) (FLAGS_efile_update FLAGS)) →
                    ¬ untranslatable (fragment_ w) edge ∧
                    ∀ v, ¬ seeds (fragment_ w) (app_ w) edge v) ws →
  ∃ ws', reset_phase FLAGS (S fuel) ws = Ok ws' ∧
         Forall2 (λ w w',
                    app_ w' = app_ w ∧ fragment_ w' = fragment_ w ∧
                    reset_vertices (frame w') = ∅ ∧
                    curr_modified (frame w') = ∅) ws ws'.
Proof.
  intros Hws. unfold reset_phase.
  destruct (rmapM_Ok (deltaCompute_seed FLAGS) ws) as (ws1 & Hseed & Hseed2).
  { eapply Forall_impl; [exact Hws|]. intros w [_ Hedges].
    destruct (deltaCompute_seed FLAGS w) as [w1| |] eqn:Hs; [by exists w1| |].
    - apply deltaCompute_seed_CheckFailed in Hs as (edge & He & Hbad).
      by destruct (Hedges edge He) as [Hok _].
    - by apply deltaCompute_seed_not_OutOfFuel in Hs. }
  rewrite Hseed. simpl.
  assert (Forall2 (λ w w1,
            app_ w1 = app_ w ∧ fragment_ w1 = fragment_ w ∧
            inbox (messages_ w1) = [] ∧ curr_modified (frame w1) = ∅ ∧
            next_modified (frame w1) = ∅ ∧ reset_vertices (frame w1) = ∅) ws ws1)
    as Hinit.
  { apply Forall2_same_length_lookup in Hseed2 as [Hlen Hseed2].
    apply Forall2_same_length_lookup. split; [done|]. intros i w w1 Hw Hw1.
    pose proof (Hseed2 _ _ _ Hw Hw1) as Hs.
    rewrite Forall_forall in Hws.
    destruct (Hws w) as [Hin Hedges]; [by eapply list_elem_of_lookup_2|].
    destruct (deltaCompute_seed_result w w1 Hs) as (Hcurr & Hmsg & Happ & _).
    destruct (deltaCompute_seed_static _ _ Hs) as (Hfrag & _).
    split; [done|]. split; [done|]. split; [by rewrite Hmsg|]. split.
    - apply leibniz_equiv, elem_of_equiv_empty. intros v Hv.
      apply Hcurr in Hv as (edge & He & Hsd). by destruct (Hedges edge He) as [_ Hno];
        apply Hno in Hsd.
    - unfold deltaCompute_seed in Hs.
      destruct (seed_edges _ _ _ _); simpl in Hs; [|done..].
      injection Hs as <-. by rewrite coordinator_log_frame. }
  assert (Forall (λ w, active w = false) (map reset_round ws1)) as Hq.
  { apply Forall_fmap, Forall_forall. intros w1 Hw1.
    apply list_elem_of_lookup in Hw1 as (i & Hw1).
    apply Forall2_same_length_lookup in Hinit as [Hlen Hinit].
    destruct (lookup_lt_is_Some_2 ws i) as [w Hw].
    { rewrite Hlen. by eapply lookup_lt_Some. }
    destruct (Hinit _ _ _ Hw Hw1) as (_ & _ & Hin & Hc & Hn & _).
    by destruct (reset_round_idle w1 Hin Hc Hn) as (_ & _ & _ & _ & ? & _). }
  assert (forallb (λ w, to_terminate (messages_ w))
            (map reset_round_end (FinishARound (map reset_round ws1))) = true) as ->.
  { pose proof (FinishARound_to_terminate _ Hq) as Hall.
    rewrite forallb_forall in Hall. apply forallb_forall.
    intros x Hx%list_elem_of_In. apply list_elem_of_fmap in Hx as (wf & -> & Hwf).
    apply list_elem_of_In, Hall in Hwf.
    unfold reset_round_end. by case_decide. }
  eexists. split; [done|].
  apply (lockstep_map
           (λ w x, app_ x = app_ w ∧ fragment_ x = fragment_ w ∧
                   reset_vertices (frame x) = ∅ ∧ curr_modified (frame x) = ∅));
    [|by intros w x ?].
  apply (lockstep_map
           (λ w x, app_ x = app_ w ∧ fragment_ x = fragment_ w ∧
                   reset_vertices (frame x) = ∅ ∧ next_modified (frame x) = ∅)).
  - apply (lockstep_FinishARound
             (λ w x, app_ x = app_ w ∧ fragment_ x = fragment_ w ∧
                     reset_vertices (frame x) = ∅ ∧ next_modified (frame x) = ∅));
      [|by intros w x m ?].
    apply Forall2_fmap_r. eapply Forall2_impl; [exact Hinit|].
    intros w w1 (Ha & Hf & Hin & Hc & Hn & Hr).
    destruct (reset_round_idle w1 Hin Hc Hn) as (Ha' & Hf' & Hr' & Hn' & _).
    unfold compose. rewrite Ha', Hf', Hr', Hn'. done.
  - intros w x (Ha & Hf & Hr & Hn).
    destruct (reset_round_end_spec x) as (Ha' & _ & Hc' & _ & Hr' & _).
    assert (fragment_ (reset_round_end x) = fragment_ x) as Hf'
      by (unfold reset_round_end; by case_decide).
    rewrite Ha', Hc', Hr', Hf'. done.
Qed.

(** ** [deltaCompute] as a whole (lines 80-233) *)

(** The part of the reset invariant that needs no assumption on the
    fragment: cleared vertices are inner vertices holding the identity, the
    other values are untouched. *)
Definition reset_values (w0 w : worker (value_t := value_t)) : Prop :=
  static w = static w0 ∧
  (∀ v, v ∈ reset_vertices (frame w) →
        v ∈ inner_vertices (frame w0) ∧ values_ (app_ w) v = GetIdentityElement) ∧
  (∀ v, v ∉ reset_vertices (frame w) → values_ (app_ w) v = values_ (app_ w0) v).

Lemma reset_values_step w0 w m b :
  reset_values w0 w →
  reset_values w0
    (emit (EvToTerminate b)
       (reset_round_end (emit EvFinishARound (set_messages m (reset_round w))))).
Proof.
  intros (Hst & Hcl & Hval).
  destruct (reset_round_spec w) as (Hst' & _ & _ & _ & Hreset' & Hvin & Hvout & _).
  set (wr := reset_round w) in *.
  set (wf := emit EvFinishARound (set_messages m wr)).
  destruct (reset_round_end_spec wf) as (Ha & Hs & _ & _ & Hr & _).
  set (we := reset_round_end wf) in *.
  set (wt := emit (EvToTerminate b) we).
  assert (app_ wt = app_ wr) as Hat by (transitivity (app_ we); [done|by rewrite Ha]).
  assert (static wt = static w0) as Hstt.
  { transitivity (static we); [done|]. rewrite Hs.
    transitivity (static wr); [done|]. by rewrite Hst'. }
  assert (reset_vertices (frame wt) =
          list_to_set (filter (λ u, u ∈ round_frontier w) (inner_vertices (frame w)))
          ∪ reset_vertices (frame w)) as Hrt.
  { transitivity (reset_vertices (frame we)); [done|]. rewrite Hr.
    transitivity (reset_vertices (frame wr)); [done|]. by rewrite Hreset'. }
  clearbody wt. unfold static in Hst. injection Hst as _ _ Hinn _ _.
  split; [done|]. rewrite Hrt, Hat. split.
  - intros v [Hv|Hv]%elem_of_union.
    + apply elem_of_list_to_set in Hv. split; [|by apply Hvin].
      apply list_elem_of_filter in Hv as [_ Hv]. by rewrite <- Hinn.
    + destruct (Hcl v Hv) as [Hvi Hid]. split; [done|].
      destruct (decide (v ∈ filter (λ u, u ∈ round_frontier w)
                              (inner_vertices (frame w)))) as [?|?];
        [by apply Hvin|by rewrite Hvout].
  - intros v Hv. rewrite Hvout; [apply Hval|]; set_solver.
Qed.

Lemma reset_loop_values fuel (ws0 ws ws' : list (worker (value_t := value_t))) :
  Forall2 reset_values ws0 ws →
  reset_loop fuel ws = Ok ws' →
  Forall2 reset_values ws0 ws'.
Proof.
  revert ws. induction fuel as [|fuel IH]; intros ws H; simpl; [done|].
  set (b := forallb _ _).
  assert (Forall2 reset_values ws0
            (map (emit (EvToTerminate b))
               (map reset_round_end (FinishARound (map reset_round ws))))) as Hstep.
  { apply (lockstep_map
             (λ x0 w, ∃ w1 m, reset_values x0 w1 ∧
                w = reset_round_end (emit EvFinishARound (set_messages m (reset_round w1))))).
    - apply (lockstep_map
               (λ x0 w, ∃ w1 m, reset_values x0 w1 ∧
                  w = emit EvFinishARound (set_messages m (reset_round w1)))).
      + apply (lockstep_FinishARound
                 (λ x0 w, ∃ w1, reset_values x0 w1 ∧ w = reset_round w1)).
        * apply (lockstep_map reset_values); [done|]. intros x0 w ?. by exists w.
        * intros x0 w m (w1 & ? & ->). by exists w1, m.
      + intros x0 w (w1 & m & ? & ->). by exists w1, m.
    - intros x0 w (w1 & m & Hinv & ->). by apply reset_values_step. }
  destruct b; [by intros [= <-]|]. by apply IH.
Qed.

(** The workers that leave the reset loop, against those that entered
    [deltaCompute]. *)
Lemma reset_phase_values fuel (ws ws2 : list (worker (value_t := value_t))) :
  reset_phase FLAGS fuel ws = Ok ws2 →
  Forall2 (λ w w2,
             inner_vertices (frame w2) = InnerVertices (fragment_ w) ∧
             builder (frame w2) = inc_fragment_builder FLAGS (fragment_ w)
                                    (FLAGS_directed FLAGS) (FLAGS_efile_update FLAGS) ∧
             (∀ v, v ∈ reset_vertices (frame w2) →
                   v ∈ InnerVertices (fragment_ w) ∧
                   values_ (app_ w2) v = GetIdentityElement) ∧
             (∀ v, v ∉ reset_vertices (frame w2) →
                   values_ (app_ w2) v = values_ (app_ w) v)) ws ws2.
Proof.
  unfold reset_phase.
  destruct (rmapM _ ws) as [ws1| |] eqn:Hseed; simpl; [|done..].
  intros Hloop. apply rmapM_Forall2 in Hseed.
  assert (Forall2 reset_values ws1 ws2) as Hinv.
  { eapply reset_loop_values; [|done].
    apply Forall_Forall2_diag, Forall_forall. intros w1 Hw1.
    apply list_elem_of_lookup in Hw1 as (i & Hw1).
    apply Forall2_same_length_lookup in Hseed as [Hlen Hseed].
    destruct (lookup_lt_is_Some_2 ws i) as [w Hw].
    { rewrite Hlen. by eapply lookup_lt_Some. }
    pose proof (Hseed _ _ _ Hw Hw1) as Hs.
    assert (reset_vertices (frame w1) = ∅) as Hr.
    { unfold deltaCompute_seed in Hs.
      destruct (seed_edges _ _ _ _); simpl in Hs; [|done..].
      injection Hs as <-. by rewrite coordinator_log_frame. }
    split; [done|]. split; [|done]. intros v. rewrite Hr. set_solver. }
  apply Forall2_same_length_lookup in Hseed as [Hl1 Hseed].
  apply Forall2_same_length_lookup in Hinv as [Hl2 Hinv].
  apply Forall2_same_length_lookup. split; [congruence|].
  intros i w w2 Hw Hw2.
  destruct (lookup_lt_is_Some_2 ws1 i) as [w1 Hw1].
  { rewrite <- Hl1. by eapply lookup_lt_Some. }
  pose proof (Hseed _ _ _ Hw Hw1) as Hs.
  destruct (deltaCompute_seed_static _ _ Hs) as (_ & _ & Hinn & Hb).
  destruct (deltaCompute_seed_result _ _ Hs) as (_ & _ & Happ & _).
  destruct (Hinv _ _ _ Hw1 Hw2) as (Hst & Hcl & Hval).
  unfold static in Hst. injection Hst as _ _ Hinn2 _ Hb2.
  rewrite Hinn2, Hb2, Hinn, Hb. rewrite Hinn in Hcl. rewrite Happ in Hval. done.
Qed.

Lemma deltaCompute_unfold fuel (ws : list (worker (value_t := value_t))) :
  deltaCompute FLAGS fuel ws =
  rbind (reset_phase FLAGS fuel ws)
    (λ ws, Ok (map kickoff_end
                 (FinishARound
                    (map (λ w, kickoff_round (deltaCompute_rebuild (deltaCompute_count w)))
                       ws)))).
Proof.
  unfold deltaCompute, reset_phase. by destruct (rmapM _ ws).
Qed.

(** The kickoff round writes deltas and its own [next_modified] only. *)
Lemma kickoff_compute_kept u w :
  values_ (app_ (kickoff_compute u w)) = values_ (app_ w) ∧
  curr_modified_ (app_ (kickoff_compute u w)) = curr_modified_ (app_ w) ∧
  next_modified_ (app_ (kickoff_compute u w)) = next_modified_ (app_ w).
Proof. unfold kickoff_compute. by destruct (value_ne _ _). Qed.

Lemma kickoff_round_kept w :
  values_ (app_ (kickoff_round w)) = values_ (app_ w) ∧
  curr_modified_ (app_ (kickoff_round w)) = curr_modified_ (app_ w) ∧
  next_modified_ (app_ (kickoff_round w)) = next_modified_ (app_ w).
Proof.
  rewrite kickoff_round_unfold.
  rewrite (ForEach_preserved app_); [|apply send_delta_app].
  unfold kickoff_computed.
  rewrite (foldl_preserved (λ w, values_ (app_ w)));
    [|intros; apply kickoff_compute_kept].
  rewrite (foldl_preserved (λ w, curr_modified_ (app_ w)));
    [|intros; apply kickoff_compute_kept].
  rewrite (foldl_preserved (λ w, next_modified_ (app_ w)));
    [|intros; apply kickoff_compute_kept].
  done.
Qed.

(** Lines 173-232 on one worker: what the count, the rebuild and the
    kickoff round leave of the values and of the kernel's frontier. *)
Lemma rebuild_and_kickoff_kept w :
  let new := Build (builder (frame w)) in
  let w' := kickoff_round (deltaCompute_rebuild (deltaCompute_count w)) in
  fragment_ w' = new ∧
  (∀ v, v ∈ inner_vertices (frame w) → values_ (app_ w') v = values_ (app_ w) v) ∧
  (∀ v, v ∉ inner_vertices (frame w) → values_ (app_ w') v = values_ (Init new) v) ∧
  curr_modified_ (app_ w') = curr_modified_ (Init new).
Proof.
  cbv zeta.
  destruct (kickoff_round_kept (deltaCompute_rebuild (deltaCompute_count w)))
    as (-> & -> & _).
  rewrite kickoff_round_fragment.
  unfold deltaCompute_rebuild. simpl.
  assert (frame (deltaCompute_count w) = frame w) as ->
    by (unfold deltaCompute_count; by rewrite !coordinator_log_frame).
  assert (app_ (deltaCompute_count w) = app_ w) as ->
    by (unfold deltaCompute_count; by rewrite !coordinator_log_app).
  set (range := inner_vertices (frame w)).
  set (new := Build (builder (frame w))).
  pose proof (λ v, foldl_copy_back range (values_ (app_ w)) (deltas_ (app_ w))
                     (Init new) v) as Hcopy.
  cbv zeta in Hcopy.
  split; [done|]. split; [|split].
  - intros v Hv. by apply Hcopy.
  - intros v Hv. by apply Hcopy.
  - by destruct (Hcopy 0) as (_ & _ & -> & _).
Qed.

(** X8. [deltaCompute] changes the value of an inner vertex in one way
    only, by clearing it to the identity element: on every worker, when the
    function returns, the fragment is the one the builder built, the value
    of each vertex of the old inner range is the value it had on entry or
    the identity element, and every other value is the one the kernel's
    [Init] left on the new fragment. *)
Theorem deltaCompute_changes_an_inner_value_only_by_clearing_it
    fuel (ws ws' : list (worker (value_t := value_t))) :
  deltaCompute FLAGS fuel ws = Ok ws' →
  Forall2 (λ w w',
             let new := Build (inc_fragment_builder FLAGS (fragment_ w)
                                 (FLAGS_directed FLAGS) (FLAGS_efile_update FLAGS)) in
             fragment_ w' = new ∧
             (∀ v, v ∈ InnerVertices (fragment_ w) →
                   values_ (app_ w') v = values_ (app_ w) v ∨
                   values_ (app_ w') v = GetIdentityElement) ∧
             (∀ v, v ∉ InnerVertices (fragment_ w) →
                   values_ (app_ w') v = values_ (Init new) v)) ws ws'.
Proof.
  rewrite deltaCompute_unfold.
  destruct (reset_phase FLAGS fuel ws) as [ws2| |] eqn:Hreset; simpl; [|done..].
  intros [= <-]. apply reset_phase_values in Hreset.
  apply (lockstep_map
           (λ w x, ∃ w2, (inner_vertices (frame w2) = InnerVertices (fragment_ w) ∧
                     builder (frame w2) = inc_fragment_builder FLAGS (fragment_ w)
                                    (FLAGS_directed FLAGS) (FLAGS_efile_update FLAGS) ∧
                     (∀ v, v ∈ reset_vertices (frame w2) →
                           v ∈ InnerVertices (fragment_ w) ∧
                           values_ (app_ w2) v = GetIdentityElement) ∧
                     (∀ v, v ∉ reset_vertices (frame w2) →
                           values_ (app_ w2) v = values_ (app_ w) v)) ∧
                   app_ x = app_ (kickoff_round (deltaCompute_rebuild (deltaCompute_count w2))) ∧
                   fragment_ x = fragment_ (kickoff_round (deltaCompute_rebuild (deltaCompute_count w2))))).
  - apply (lockstep_FinishARound
           (λ w x, ∃ w2, (inner_vertices (frame w2) = InnerVertices (fragment_ w) ∧
                     builder (frame w2) = inc_fragment_builder FLAGS (fragment_ w)
                                    (FLAGS_directed FLAGS) (FLAGS_efile_update FLAGS) ∧
                     (∀ v, v ∈ reset_vertices (frame w2) →
                           v ∈ InnerVertices (fragment_ w) ∧
                           values_ (app_ w2) v = GetIdentityElement) ∧
                     (∀ v, v ∉ reset_vertices (frame w2) →
                           values_ (app_ w2) v = values_ (app_ w) v)) ∧
                   x = kickoff_round (deltaCompute_rebuild (deltaCompute_count w2)))).
    + apply Forall2_fmap_r. eapply Forall2_impl; [exact Hreset|].
      intros w w2 H. by exists w2.
    + intros w x m (w2 & H & ->). by exists w2.
  - intros w x (w2 & (Hinn & Hb & Hcl & Hval) & Ha & Hf). cbv zeta.
    destruct (rebuild_and_kickoff_kept w2) as (Hf' & Hin & Hout & _).
    rewrite Hinn in Hin, Hout. rewrite Hb in Hf', Hout.
    unfold kickoff_end. simpl. rewrite Ha, Hf.
    split; [done|]. split; [|done].
    intros v Hv. rewrite (Hin v Hv).
    destruct (decide (v ∈ reset_vertices (frame w2))) as [Hr|Hr].
    + right. by apply Hcl.
    + left. by apply Hval.
Qed.

(** X9. The frontier that the kernel's [Init] sets on the new fragment does
    not reach a compute loop: [deltaCompute] returns with [curr_modified_]
    as [Init] left it (the kickoff round fills the local [next_modified],
    which line 232 swaps into [next_modified_]), and the swap of lines
    347-348 followed by the clear of line 258 makes the next round of the
    loop independent of what [curr_modified_] holds. *)
Theorem the_frontier_of_Init_is_dropped_after_deltaCompute
    fuel (ws ws' : list (worker (value_t := value_t))) :
  deltaCompute FLAGS fuel ws = Ok ws' →
  Forall (λ w',
            curr_modified_ (app_ w') = curr_modified_ (Init (fragment_ w')) ∧
            ∀ set, batch_round FLAGS (round_end w') =
                   batch_round FLAGS
                     (round_end (set_app (set_curr_modified_ set (app_ w')) w'))) ws'.
Proof.
  rewrite deltaCompute_unfold.
  destruct (reset_phase FLAGS fuel ws) as [ws2| |] eqn:Hreset; simpl; [|done..].
  intros [= <-].
  apply Forall_fmap, Forall_forall. intros x Hx. unfold compose.
  split; [|done].
  apply list_elem_of_lookup in Hx as (i & Hx).
  unfold FinishARound in Hx. rewrite list_lookup_imap in Hx.
  destruct (_ !! i) as [y|] eqn:Hy; [|done]. simpl in Hx. injection Hx as <-.
  apply list_lookup_fmap_Some in Hy as (w2 & -> & _).
  unfold kickoff_end. simpl.
  destruct (rebuild_and_kickoff_kept w2) as (-> & _ & _ & ->). done.
Qed.

(** ** How often [Query] rebuilds the fragment (lines 323-345) *)

Definition is_build (e : event (value_t := value_t)) : bool :=
  match e with EvBuild => true | _ => false end.

(** The number of calls of [inc_fragment_builder.Build] in a list of calls. *)
Definition builds (es : list (event (value_t := value_t))) : nat :=
  length (List.filter is_build es).

(** [w] continues the trace of [w0] with [n] calls of [Build]. *)
Definition grew (n : nat) (w0 w : worker (value_t := value_t)) : Prop :=
  ∃ es, trace w = trace w0 ++ es ∧ builds es = n.

Lemma builds_app es1 es2 : builds (es1 ++ es2) = builds es1 + builds es2.
Proof. unfold builds. by rewrite List.filter_app, length_app. Qed.

Lemma builds_none (P : event (value_t := value_t) → Prop) es :
  (∀ e, P e → is_build e = false) → Forall P es → builds es = 0.
Proof.
  intros HP. induction 1 as [|e es He _ IH]; [done|].
  unfold builds in *. simpl. by rewrite (HP e He).
Qed.

Lemma builds_map_none {A : Type} (f : A → event (value_t := value_t)) l :
  (∀ x, is_build (f x) = false) → builds (map f l) = 0.
Proof.
  intros Hf. apply (builds_none (λ e, is_build e = false)); [done|].
  apply Forall_fmap, Forall_forall. intros x _. apply Hf.
Qed.

Lemma grew_refl w : grew 0 w w.
Proof. exists []. by rewrite app_nil_r. Qed.

Lemma grew_step n m w0 w w' es :
  grew n w0 w → trace w' = trace w ++ es → builds es = m → grew (n + m) w0 w'.
Proof.
  intros (es0 & E0 & B0) E B. exists (es0 ++ es).
  split; [by rewrite E, E0, app_assoc|]. by rewrite builds_app, B0, B.
Qed.

Lemma grew_quiet n w0 w w' es :
  grew n w0 w → trace w' = trace w ++ es → builds es = 0 → grew n w0 w'.
Proof.
  intros H E B. replace n with (n + 0) by lia. by eapply grew_step.
Qed.

Lemma grew_same n w0 w w' : grew n w0 w → trace w' = trace w → grew n w0 w'.
Proof.
  intros H E. apply (grew_quiet n w0 w w' []); [done|by rewrite app_nil_r|done].
Qed.

Lemma coordinator_log_grew n text w0 w :
  grew n w0 w → grew n w0 (coordinator_log text w).
Proof.
  intros H. destruct (coordinator_log_trace text w) as (logs & E & F).
  eapply grew_quiet; [done..|]. eapply builds_none; [|done]. by intros ? (? & ? & ->).
Qed.

Lemma batch_round_grew n w0 w : grew n w0 w → grew n w0 (batch_round FLAGS w).
Proof.
  intros H. rewrite batch_round_unfold. cbv zeta.
  destruct (batch_round_computed_trace w) as (es & E & F).
  destruct (ForEach_send_delta (next_modified_ (app_ (batch_round_computed w)))
              (OuterVertices (fragment_ w)) (batch_round_computed w))
    as (_ & _ & _ & _ & Ht & _).
  set (w2 := ForEach _ _ send_delta _) in *.
  assert (grew n w0 w2) as H2.
  { eapply grew_quiet; [exact H|rewrite Ht, E; by rewrite <- app_assoc|].
    change (EvStartARound :: es) with ([EvStartARound] ++ es).
    rewrite !builds_app.
    rewrite (builds_none is_batch_work es); [|by intros []|done].
    by rewrite builds_map_none. }
  case_decide; [|done]. by eapply grew_quiet.
Qed.

Lemma reset_round_grew n w0 w : grew n w0 w → grew n w0 (reset_round w).
Proof.
  intros H. eapply grew_quiet; [exact H|apply reset_round_trace|].
  change (builds ([EvStartARound] ++ reset_round_calls w) = 0).
  unfold reset_round_calls. rewrite !builds_app. simpl.
  by rewrite !builds_map_none.
Qed.

Lemma reset_round_end_grew n w0 w : grew n w0 w → grew n w0 (reset_round_end w).
Proof.
  intros H. unfold reset_round_end. case_decide; simpl.
  - by eapply grew_quiet.
  - by eapply grew_same.
Qed.

Lemma reset_loop_grew n fuel (ws0 ws ws' : list (worker (value_t := value_t))) :
  Forall2 (grew n) ws0 ws → reset_loop fuel ws = Ok ws' → Forall2 (grew n) ws0 ws'.
Proof.
  revert ws. induction fuel as [|fuel IH]; intros ws H; simpl; [done|].
  set (b := forallb _ _).
  assert (Forall2 (grew n) ws0
            (map (emit (EvToTerminate b))
               (map reset_round_end (FinishARound (map reset_round ws))))) as Hstep.
  { apply invariant_map; [|by intros; eapply grew_quiet].
    apply invariant_map; [|by intros; apply reset_round_end_grew].
    apply invariant_FinishARound; [|by intros; eapply grew_quiet].
    apply invariant_map; [done|]. by intros; apply reset_round_grew. }
  destruct b; [by intros [= <-]|]. by apply IH.
Qed.

Lemma kickoff_round_grew n w0 w : grew n w0 w → grew n w0 (kickoff_round w).
Proof.
  intros H. rewrite kickoff_round_unfold.
  destruct (ForEach_send_delta (next_modified (frame (kickoff_computed w)))
              (outer_vertices (frame w)) (kickoff_computed w))
    as (_ & _ & _ & _ & Ht & _).
  destruct (foldl_trace_ext is_compute (λ w u, kickoff_compute u w)
              (inner_vertices (frame w)) (StartARound w)) as (es & E & F).
  { intros; apply kickoff_compute_trace. }
  eapply grew_quiet; [exact H| |].
  - rewrite Ht. unfold kickoff_computed. rewrite E. simpl.
    by rewrite <- !app_assoc.
  - rewrite !builds_app. simpl.
    rewrite (builds_none is_compute es); [|by intros ? (? & ? & ? & ->)|done].
    by rewrite builds_map_none.
Qed.

(** Lines 173-232 on one worker: one call of [Build]. *)
Lemma rebuild_and_kickoff_grew n w0 w :
  grew n w0 w →
  grew (n + 1) w0 (kickoff_round (deltaCompute_rebuild (deltaCompute_count w))).
Proof.
  intros H. apply kickoff_round_grew.
  eapply (grew_step n 1 w0 (deltaCompute_count w) _ [EvBuild; EvAppInit]);
    [| |done].
  - unfold deltaCompute_count. do 2 apply coordinator_log_grew.
    by eapply grew_quiet.
  - unfold deltaCompute_rebuild. simpl. by rewrite <- app_assoc.
Qed.

Lemma deltaCompute_grew n fuel (ws0 ws ws' : list (worker (value_t := value_t))) :
  Forall2 (grew n) ws0 ws → deltaCompute FLAGS fuel ws = Ok ws' →
  Forall2 (grew (n + 1)) ws0 ws'.
Proof.
  intros H. unfold deltaCompute.
  destruct (rmapM _ ws) as [ws1| |] eqn:Hseed; simpl; [|done..].
  destruct (reset_loop fuel ws1) as [ws2| |] eqn:Hloop; simpl; [|done..].
  intros [= <-]. apply rmapM_Forall2 in Hseed.
  assert (Forall2 (grew n) ws0 ws1) as H1.
  { apply Forall2_same_length_lookup in H as [Hl H].
    apply Forall2_same_length_lookup in Hseed as [Hl1 Hseed].
    apply Forall2_same_length_lookup. split; [congruence|].
    intros i x0 w1 H0 Hw1.
    destruct (lookup_lt_is_Some_2 ws i) as [w Hw].
    { rewrite <- Hl. by eapply lookup_lt_Some. }
    destruct (deltaCompute_seed_result _ _ (Hseed _ _ _ Hw Hw1))
      as (_ & _ & _ & logs & E & F).
    eapply grew_quiet; [by eapply H|done|].
    eapply builds_none; [|done]. by intros ? (? & ? & ->). }
  apply (lockstep_map (grew (n + 1))); [|by intros; eapply grew_same].
  apply invariant_FinishARound; [|by intros; eapply grew_quiet].
  apply (lockstep_map (grew n)); [by eapply reset_loop_grew|].
  intros; by apply rebuild_and_kickoff_grew.
Qed.

Lemma batch_rounds_grew n (ws0 ws : list (worker (value_t := value_t))) :
  Forall2 (grew n) ws0 ws →
  Forall2 (grew n) ws0 (ToTerminate (FinishARound (map (batch_round FLAGS) ws))).2.
Proof.
  intros H.
  apply invariant_ToTerminate; [|by intros; eapply grew_quiet].
  apply invariant_FinishARound; [|by intros; eapply grew_quiet].
  apply invariant_map; [done|]. by intros; apply batch_round_grew.
Qed.

Lemma Query_loop_grew fuel batch_stage n
    (ws0 ws ws' : list (worker (value_t := value_t))) :
  Forall2 (grew n) ws0 ws →
  Query_loop FLAGS fuel batch_stage ws = Ok ws' →
  Forall2 (grew (n + if batch_stage && negb (String.eqb (FLAGS_efile_update FLAGS)
                                                EmptyString)
                     then 1 else 0)) ws0 ws'.
Proof.
  revert batch_stage n ws.
  induction fuel as [|fuel IH]; intros batch_stage n ws H; simpl; [done|].
  pose proof (batch_rounds_grew n ws0 ws H) as Hround. simpl in Hround.
  set (b := forallb _ _) in *.
  set (ws1 := map (emit (EvToTerminate b)) _) in *.
  destruct b.
  - destruct batch_stage; simpl.
    + destruct (negb _) eqn:Hflag.
      * destruct (deltaCompute FLAGS fuel _) as [ws2| |] eqn:Hdc; simpl; [|done..].
        intros Hloop. eapply deltaCompute_grew in Hdc.
        2:{ apply invariant_map; [exact Hround|].
            by intros; apply coordinator_log_grew. }
        apply (IH false (n + 1)) in Hloop; [by rewrite Nat.add_0_r in Hloop|].
        apply invariant_map; [done|]. by intros; eapply grew_same.
      * intros [= <-]. rewrite Nat.add_0_r.
        apply invariant_map; [|by intros; eapply grew_quiet].
        apply invariant_map; [done|]. by intros; apply coordinator_log_grew.
    + intros [= <-]. rewrite Nat.add_0_r.
      apply invariant_map; [done|]. by intros; apply coordinator_log_grew.
  - apply IH. apply invariant_map; [done|]. by intros; eapply grew_same.
Qed.

(** X10. [Query] replaces the fragment at most once: on every worker the
    calls [Query] makes contain exactly one call of
    [inc_fragment_builder.Build] when an update file is configured, and none
    when it is not ([batch_stage] is cleared before [deltaCompute] is
    entered, and no other code of the loop builds a fragment). *)
Theorem Query_builds_the_fragment_once_iff_an_update_is_configured
    fuel (ws ws' : list (worker (value_t := value_t))) :
  Query FLAGS fuel ws = Ok ws' →
  Forall2 (λ w w',
             ∃ es, trace w' = trace w ++ es ∧
                   builds es = if String.eqb (FLAGS_efile_update FLAGS) EmptyString
                               then 0 else 1) ws ws'.
Proof.
  unfold Query.
  destruct (Query_loop _ _ _ _) as [ws1| |] eqn:Hloop; simpl; [|done..].
  intros [= <-].
  eapply (Query_loop_grew _ _ 0 ws) in Hloop.
  - simpl in Hloop. apply (lockstep_map (grew
      (if negb (String.eqb (FLAGS_efile_update FLAGS) EmptyString) then 1 else 0)));
      [done|].
    intros w x Hg.
    destruct (grew_quiet _ w x (emit EvBarrier x) [EvBarrier] Hg eq_refl eq_refl)
      as (es & E & B).
    exists es. split; [exact E|].
    rewrite B. by destruct (String.eqb _ _).
  - apply invariant_FinishARound; [|by intros; eapply grew_quiet].
    apply (lockstep_map (λ w x, w = x) (grew 0)).
    + by apply Forall_Forall2_diag, Forall_forall.
    + intros w x <-. unfold Query_begin, InitChannels.
      eapply grew_quiet; [apply grew_refl| |].
      * simpl. by rewrite <- !app_assoc.
      * done.
Qed.

(** ** The rounds of the message manager as [Query] drives them *)

(** Where a worker stands with respect to the rounds of the manager. *)
Inductive phase := Idle | InRound.

(** One call, seen from the manager: rounds are opened when none is open and
    closed when one is; messages are enqueued and handlers run inside a
    round; [ToTerminate] is asked between rounds. *)
Definition round_step (p : phase) (e : event (value_t := value_t)) : option phase :=
  match e, p with
  | EvStartARound, Idle => Some InRound
  | EvStartARound, InRound => None
  | EvFinishARound, InRound => Some Idle
  | EvFinishARound, Idle => None
  | EvSync _ _, Idle => None
  | EvProcess _ _, Idle => None
  | EvToTerminate _, InRound => None
  | _, _ => Some p
  end.

Fixpoint round_run (p : phase) (es : list (event (value_t := value_t))) : option phase :=
  match es with
  | [] => Some p
  | e :: es =>
      match round_step p e with
      | Some p' => round_run p' es
      | None => None
      end
  end.

(** [w] continues the trace of [w0] with calls that take the manager from
    phase [p] to phase [q]. *)
Definition ran (p q : phase) (w0 w : worker (value_t := value_t)) : Prop :=
  ∃ es, trace w = trace w0 ++ es ∧ round_run p es = Some q.

Lemma round_run_app p q es1 es2 :
  round_run p es1 = Some q → round_run p (es1 ++ es2) = round_run q es2.
Proof.
  revert p. induction es1 as [|e es1 IH]; intros p; simpl; [by intros [= ->]|].
  destruct (round_step p e); [apply IH|done].
Qed.

Lemma round_run_stays (P : event (value_t := value_t) → Prop) p es :
  (∀ e, P e → round_step p e = Some p) → Forall P es → round_run p es = Some p.
Proof.
  intros HP. induction 1 as [|e es He _ IH]; [done|]. simpl. by rewrite (HP e He).
Qed.

Lemma round_run_map_stays {A : Type} (f : A → event (value_t := value_t)) p l :
  (∀ x, round_step p (f x) = Some p) → round_run p (map f l) = Some p.
Proof.
  intros Hf. apply (round_run_stays (λ e, round_step p e = Some p)); [done|].
  apply Forall_fmap, Forall_forall. intros x _. apply Hf.
Qed.

Lemma ran_refl p w : ran p p w w.
Proof. exists []. by rewrite app_nil_r. Qed.

Lemma ran_step p q r w0 w w' es :
  ran p q w0 w → trace w' = trace w ++ es → round_run q es = Some r → ran p r w0 w'.
Proof.
  intros (es0 & E0 & R0) E R. exists (es0 ++ es).
  split; [by rewrite E, E0, app_assoc|]. by rewrite (round_run_app _ _ _ _ R0).
Qed.

Lemma ran_same p q w0 w w' : ran p q w0 w → trace w' = trace w → ran p q w0 w'.
Proof.
  intros H E. apply (ran_step p q q w0 w w' []); [done|by rewrite app_nil_r|done].
Qed.

Lemma coordinator_log_ran p q text w0 w :
  ran p q w0 w → ran p q w0 (coordinator_log text w).
Proof.
  intros H. destruct (coordinator_log_trace text w) as (logs & E & F).
  eapply ran_step; [done..|]. eapply round_run_stays; [|done].
  intros ? (? & ? & ->). by destruct q.
Qed.

Lemma batch_round_ran p w0 w :
  ran p Idle w0 w → ran p InRound w0 (batch_round FLAGS w).
Proof.
  intros H. rewrite batch_round_unfold. cbv zeta.
  destruct (batch_round_computed_trace w) as (es & E & F).
  destruct (ForEach_send_delta (next_modified_ (app_ (batch_round_computed w)))
              (OuterVertices (fragment_ w)) (batch_round_computed w))
    as (_ & _ & _ & _ & Ht & _).
  set (w2 := ForEach _ _ send_delta _) in *.
  assert (ran p InRound w0 w2) as H2.
  { eapply ran_step; [exact H|rewrite Ht, E; by rewrite <- app_assoc|].
    simpl. erewrite round_run_app; [by apply round_run_map_stays|].
    eapply round_run_stays; [|done]. by intros []. }
  case_decide; [|done]. by eapply ran_step.
Qed.

Lemma reset_round_ran p w0 w : ran p Idle w0 w → ran p InRound w0 (reset_round w).
Proof.
  intros H. eapply ran_step; [exact H|apply reset_round_trace|].
  simpl. unfold reset_round_calls.
  erewrite round_run_app; by apply round_run_map_stays.
Qed.

Lemma reset_round_end_ran p w0 w :
  ran p Idle w0 w → ran p Idle w0 (reset_round_end w).
Proof.
  intros H. unfold reset_round_end. case_decide; simpl.
  - by eapply ran_step.
  - by eapply ran_same.
Qed.

Lemma reset_loop_ran p fuel (ws0 ws ws' : list (worker (value_t := value_t))) :
  Forall2 (ran p Idle) ws0 ws → reset_loop fuel ws = Ok ws' →
  Forall2 (ran p Idle) ws0 ws'.
Proof.
  revert ws. induction fuel as [|fuel IH]; intros ws H; simpl; [done|].
  set (b := forallb _ _).
  assert (Forall2 (ran p Idle) ws0
            (map (emit (EvToTerminate b))
               (map reset_round_end (FinishARound (map reset_round ws))))) as Hstep.
  { apply invariant_map; [|by intros; eapply ran_step].
    apply invariant_map; [|by intros; apply reset_round_end_ran].
    apply (lockstep_FinishARound (ran p InRound)); [|by intros; eapply ran_step].
    apply (lockstep_map (ran p Idle)); [done|]. by intros; apply reset_round_ran. }
  destruct b; [by intros [= <-]|]. by apply IH.
Qed.

Lemma kickoff_round_ran p w0 w : ran p Idle w0 w → ran p InRound w0 (kickoff_round w).
Proof.
  intros H. rewrite kickoff_round_unfold.
  destruct (ForEach_send_delta (next_modified (frame (kickoff_computed w)))
              (outer_vertices (frame w)) (kickoff_computed w))
    as (_ & _ & _ & _ & Ht & _).
  destruct (foldl_trace_ext is_compute (λ w u, kickoff_compute u w)
              (inner_vertices (frame w)) (StartARound w)) as (es & E & F).
  { intros; apply kickoff_compute_trace. }
  eapply ran_step; [exact H| |].
  - rewrite Ht. unfold kickoff_computed. rewrite E. simpl.
    by rewrite <- !app_assoc.
  - simpl. erewrite round_run_app; [by apply round_run_map_stays|].
    eapply round_run_stays; [|done]. by intros ? (? & ? & ? & ->).
Qed.

Lemma deltaCompute_ran p fuel (ws0 ws ws' : list (worker (value_t := value_t))) :
  Forall2 (ran p Idle) ws0 ws → deltaCompute FLAGS fuel ws = Ok ws' →
  Forall2 (ran p Idle) ws0 ws'.
Proof.
  intros H. unfold deltaCompute.
  destruct (rmapM _ ws) as [ws1| |] eqn:Hseed; simpl; [|done..].
  destruct (reset_loop fuel ws1) as [ws2| |] eqn:Hloop; simpl; [|done..].
  intros [= <-]. apply rmapM_Forall2 in Hseed.
  assert (Forall2 (ran p Idle) ws0 ws1) as H1.
  { apply Forall2_same_length_lookup in H as [Hl H].
    apply Forall2_same_length_lookup in Hseed as [Hl1 Hseed].
    apply Forall2_same_length_lookup. split; [congruence|].
    intros i x0 w1 H0 Hw1.
    destruct (lookup_lt_is_Some_2 ws i) as [w Hw].
    { rewrite <- Hl. by eapply lookup_lt_Some. }
    destruct (deltaCompute_seed_result _ _ (Hseed _ _ _ Hw Hw1))
      as (_ & _ & _ & logs & E & F).
    eapply ran_step; [by eapply H|done|].
    eapply round_run_stays; [|done]. by intros ? (? & ? & ->). }
  apply invariant_map; [|by intros; eapply ran_same].
  apply (lockstep_FinishARound (ran p InRound)); [|by intros; eapply ran_step].
  apply (lockstep_map (ran p Idle)); [by eapply reset_loop_ran|].
  intros x0 w Hw. apply kickoff_round_ran.
  eapply (ran_step p Idle Idle x0 (deltaCompute_count w) _ [EvBuild; EvAppInit]);
    [| |done].
  - unfold deltaCompute_count. do 2 apply coordinator_log_ran.
    by eapply ran_step.
  - unfold deltaCompute_rebuild. simpl. by rewrite <- app_assoc.
Qed.

Lemma batch_rounds_ran p (ws0 ws : list (worker (value_t := value_t))) :
  Forall2 (ran p Idle) ws0 ws →
  Forall2 (ran p Idle) ws0 (ToTerminate (FinishARound (map (batch_round FLAGS) ws))).2.
Proof.
  intros H.
  apply invariant_ToTerminate; [|by intros; eapply ran_step].
  apply (lockstep_FinishARound (ran p InRound)); [|by intros; eapply ran_step].
  apply (lockstep_map (ran p Idle)); [done|]. by intros; apply batch_round_ran.
Qed.

Lemma Query_loop_ran p fuel batch_stage
    (ws0 ws ws' : list (worker (value_t := value_t))) :
  Forall2 (ran p Idle) ws0 ws →
  Query_loop FLAGS fuel batch_stage ws = Ok ws' →
  Forall2 (ran p Idle) ws0 ws'.
Proof.
  revert batch_stage ws.
  induction fuel as [|fuel IH]; intros batch_stage ws H; simpl; [done|].
  pose proof (batch_rounds_ran p ws0 ws H) as Hround. simpl in Hround.
  set (b := forallb _ _) in *.
  set (ws1 := map (emit (EvToTerminate b)) _) in *.
  destruct b.
  - destruct batch_stage; simpl.
    + destruct (negb _) eqn:Hflag.
      * destruct (deltaCompute FLAGS fuel _) as [ws2| |] eqn:Hdc; simpl; [|done..].
        intros Hloop. eapply deltaCompute_ran in Hdc.
        2:{ apply invariant_map; [exact Hround|].
            by intros; apply coordinator_log_ran. }
        apply (IH false) in Hloop; [done|].
        apply invariant_map; [done|]. by intros; eapply ran_same.
      * intros [= <-].
        apply invariant_map; [|by intros; eapply ran_step].
        apply invariant_map; [done|]. by intros; apply coordinator_log_ran.
    + intros [= <-].
      apply invariant_map; [done|]. by intros; apply coordinator_log_ran.
  - apply IH. apply invariant_map; [done|]. by intros; eapply ran_same.
Qed.

(** X11. [Query] drives the message manager in well-formed rounds: on every
    worker, among the calls [Query] makes, [StartARound] and [FinishARound]
    alternate (a round is never opened inside another, and never closed
    before it is opened), every [SyncStateOnOuterVertex] and every handler
    call falls inside a round, [ToTerminate] is asked between rounds only,
    and [Query] returns with no round open. *)
Theorem Query_opens_and_closes_rounds_in_turn
    fuel (ws ws' : list (worker (value_t := value_t))) :
  Query FLAGS fuel ws = Ok ws' →
  Forall2 (λ w w', ∃ es, trace w' = trace w ++ es ∧ round_run Idle es = Some Idle)
    ws ws'.
Proof.
  unfold Query.
  destruct (Query_loop _ _ _ _) as [ws1| |] eqn:Hloop; simpl; [|done..].
  intros [= <-].
  eapply (Query_loop_ran Idle _ _ ws) in Hloop.
  - apply (lockstep_map (ran Idle Idle)); [done|].
    intros w x Hg. by apply (ran_step Idle Idle Idle w x _ [EvBarrier] Hg).
  - apply (lockstep_FinishARound (ran Idle InRound)); [|by intros; eapply ran_step].
    apply (lockstep_map (λ w x, w = x)).
    + by apply Forall_Forall2_diag, Forall_forall.
    + intros w x <-. unfold Query_begin, InitChannels.
      apply (ran_step Idle Idle InRound w w _
               [EvBarrier; EvAppInit; EvStart; EvStartARound; EvInitChannels]
               (ran_refl Idle w)); [|done].
      simpl. by rewrite <- !app_assoc.
Qed.

(** ** The messages between the reset loop and the resumed batch loop *)

Lemma reset_round_inbox w : inbox (messages_ (reset_round w)) = [].
Proof.
  unfold reset_round.
  rewrite (ForEach_preserved (λ w, inbox (messages_ w))); [|done].
  rewrite (ForEach_preserved (λ w, inbox (messages_ w))); [|done].
  simpl. unfold reset_process, take_inbox.
  by rewrite (foldl_preserved (λ w, inbox (messages_ w))).
Qed.

Lemma reset_round_end_messages w :
  inbox (messages_ (reset_round_end w)) = inbox (messages_ w) ∧
  outbox (messages_ (reset_round_end w)) = outbox (messages_ w) ∧
  to_terminate (messages_ (reset_round_end w)) = to_terminate (messages_ w).
Proof. unfold reset_round_end. by case_decide. Qed.

Lemma forallb_reset_round_end (ws : list (worker (value_t := value_t))) :
  forallb (λ w, to_terminate (messages_ w)) (map reset_round_end ws) =
  forallb (λ w, to_terminate (messages_ w)) ws.
Proof.
  induction ws as [|x ws IH]; [done|].
  change (to_terminate (messages_ (reset_round_end x)) &&
          forallb (λ w, to_terminate (messages_ w)) (map reset_round_end ws) =
          to_terminate (messages_ x) &&
          forallb (λ w, to_terminate (messages_ w)) ws).
  rewrite IH. by destruct (reset_round_end_messages x) as (_ & _ & ->).
Qed.

(** When the reset loop is left, nothing is delivered and nothing enqueued. *)
Lemma reset_loop_leaves_no_message fuel (ws ws' : list (worker (value_t := value_t))) :
  reset_loop fuel ws = Ok ws' →
  Forall (λ w', inbox (messages_ w') = [] ∧ outbox (messages_ w') = []) ws'.
Proof.
  revert ws. induction fuel as [|fuel IH]; intros ws; simpl; [done|].
  set (b := forallb _ _).
  destruct b eqn:Hb; [|apply IH].
  intros [= <-]. apply Forall_forall. intros w' Hw'.
  apply list_elem_of_fmap in Hw' as (we & -> & Hwe).
  apply list_elem_of_fmap in Hwe as (wf & -> & Hwf).
  apply list_elem_of_lookup in Hwf as (i & Hi).
  assert (∃ w, ws !! i = Some w) as (w & Hw).
  { apply lookup_lt_is_Some_2. apply lookup_lt_Some in Hi.
    unfold FinishARound in Hi. by rewrite length_imap, length_map in Hi. }
  assert (map reset_round ws !! i = Some (reset_round w)) as Hr
    by by rewrite list_lookup_fmap, Hw.
  assert (Forall (λ w, active w = false) (map reset_round ws)) as Hq.
  { apply (ToTerminate_FinishARound_true _ (reset_round w));
      [|by eapply list_elem_of_lookup_2].
    simpl. rewrite <- forallb_reset_round_end. exact Hb. }
  destruct (FinishARound_quiet_inbox _ _ _ _ Hq Hr Hi) as (Hin & _ & _).
  destruct (FinishARound_lookup_parts _ _ _ Hr) as (wf' & Hi' & _ & _ & _ & _ & _ & Ho & _).
  rewrite Hi in Hi'. injection Hi' as <-.
  destruct (reset_round_end_messages wf) as (Hin' & Ho' & _).
  change (inbox (messages_ (reset_round_end wf)) = [] ∧
          outbox (messages_ (reset_round_end wf)) = []).
  rewrite Hin', Ho', Hin, Ho. split; [apply reset_round_inbox|done].
Qed.

(** X12. The reset loop is left with no invalidation message pending: on
    every worker nothing delivered is waiting for a handler and nothing is
    enqueued, whatever the frontier the last round left. *)
Theorem reset_phase_leaves_no_invalidation_message
    fuel (ws ws' : list (worker (value_t := value_t))) :
  reset_phase FLAGS fuel ws = Ok ws' →
  Forall (λ w', inbox (messages_ w') = [] ∧ outbox (messages_ w') = []) ws'.
Proof.
  unfold reset_phase.
  destruct (rmapM _ ws) as [ws1| |]; simpl; [|done..].
  apply reset_loop_leaves_no_message.
Qed.

(** A payload that is a [DependencyData]. *)
Definition is_delta (msg : option (DependencyData value_t)) : Prop :=
  ∃ d, msg = Some d.

Lemma deliver_to_payloads fid frag
    (sent : list (fid_t * vid_t * option (DependencyData value_t))) :
  Forall (λ m, is_delta m.2) sent →
  Forall (λ m, is_delta m.2) (deliver_to fid frag sent).
Proof.
  induction 1 as [|[[dst gid] msg] sent Hm _ IH]; [constructor|].
  unfold deliver_to in *. simpl.
  destruct (decide (dst = fid)); [|exact IH].
  destruct (Gid2Vertex frag gid); simpl; [|exact IH]. by constructor.
Qed.

Lemma kickoff_compute_messages u w :
  messages_ (kickoff_compute u w) = messages_ w.
Proof. unfold kickoff_compute. by destruct (value_ne _ _). Qed.

Lemma kickoff_round_messages w :
  inbox (messages_ (kickoff_round w)) = inbox (messages_ w) ∧
  Forall (λ m, is_delta m.2) (outbox (messages_ (kickoff_round w))).
Proof.
  rewrite kickoff_round_unfold.
  destruct (ForEach_send_delta (next_modified (frame (kickoff_computed w)))
              (outer_vertices (frame w)) (kickoff_computed w))
    as (_ & _ & _ & _ & _ & Ho & Hi & _).
  rewrite Ho, Hi. unfold kickoff_computed.
  rewrite (foldl_preserved messages_); [|intros; apply kickoff_compute_messages].
  split; [done|]. simpl.
  apply Forall_fmap, Forall_forall. intros v _. by eexists.
Qed.

Lemma concat_outbox_payloads (ws : list (worker (value_t := value_t))) :
  Forall (λ w, Forall (λ m, is_delta m.2) (outbox (messages_ w))) ws →
  Forall (λ m, is_delta m.2) (concat (map (λ w, outbox (messages_ w)) ws)).
Proof.
  induction 1 as [|w ws Hw _ IH]; simpl; [constructor|]. by apply Forall_app.
Qed.

(** X13. What [deltaCompute] leaves for the handler of the resumed batch
    loop are deltas of the kickoff round only: every payload delivered to a
    worker when [deltaCompute] returns is a [DependencyData], none is the
    empty payload of the reset loop, and nothing is left enqueued. *)
Theorem deltaCompute_delivers_only_the_deltas_of_the_kickoff_round
    fuel (ws ws' : list (worker (value_t := value_t))) :
  deltaCompute FLAGS fuel ws = Ok ws' →
  Forall (λ w', Forall (λ m, is_delta m.2) (inbox (messages_ w')) ∧
                outbox (messages_ w') = []) ws'.
Proof.
  unfold deltaCompute.
  destruct (rmapM _ ws) as [ws1| |]; simpl; [|done..].
  destruct (reset_loop fuel ws1) as [ws2| |] eqn:Hloop; simpl; [|done..].
  intros [= <-]. apply reset_loop_leaves_no_message in Hloop.
  set (ws3 := map _ ws2).
  assert (Forall (λ w, inbox (messages_ w) = [] ∧
                       Forall (λ m, is_delta m.2) (outbox (messages_ w))) ws3) as H3.
  { subst ws3. apply Forall_fmap. eapply Forall_impl; [exact Hloop|].
    intros w2 [Hin _]. unfold compose.
    destruct (kickoff_round_messages (deltaCompute_rebuild (deltaCompute_count w2)))
      as [-> Ho].
    split; [|exact Ho].
    unfold deltaCompute_rebuild, deltaCompute_count. simpl.
    by rewrite !coordinator_log_messages. }
  apply Forall_fmap, Forall_forall. intros wf Hwf. unfold compose.
  apply list_elem_of_lookup in Hwf as (i & Hi).
  unfold FinishARound in Hi. rewrite list_lookup_imap in Hi.
  destruct (ws3 !! i) as [w3|] eqn:Hw3; [|done]. simpl in Hi. injection Hi as <-.
  unfold kickoff_end. simpl.
  rewrite Forall_forall in H3.
  destruct (H3 w3) as [Hin Ho]; [by eapply list_elem_of_lookup_2|].
  rewrite Hin. simpl. split; [|done].
  apply deliver_to_payloads, concat_outbox_payloads, Forall_forall.
  intros x Hx. by apply H3.
Qed.
End Properties.

(** * The properties on the two runs *)

Section Concrete.
#[local] Open Scope N_scope.
#[local] Instance shortest_paths_from_1 : TraversalApp N := SSSP.kernel 1.
Import Examples.

Lemma is_ok_workers_of {value_t} (r : result (list (worker (value_t := value_t)))) :
  is_ok r = true → r = Ok (workers_of r).
Proof. by destruct r. Qed.

(** C1. On the chain 1 → 2 → 3 → 4 → 5 with the edge 2 → 3 deleted
    (scenario S5), [Query] on the graph and the update ends with the values
    0, 1, identity, 3, 4 and one reset vertex, whereas [Query] on the updated
    graph with an empty update ends with 0, 1, identity, identity, identity:
    the incremental run differs from the batch run at the vertices 4 and 5. *)
Theorem incremental_run_differs_from_batch_run_on_the_chain :
  is_ok Chain.incremental = true ∧
  is_ok Chain.from_scratch = true ∧
  Chain.inner_values Chain.incremental =
    [[0; 1; SSSP.infinity; 3; 4]] ∧
  Chain.inner_values Chain.from_scratch =
    [[0; 1; SSSP.infinity; SSSP.infinity; SSSP.infinity]] ∧
  map (λ w, size (reset_vertices (frame w))) (workers_of Chain.incremental) = [1%nat].
Proof. vm_compute. done. Qed.

(** The worker of the chain when the reset loop is entered. *)
Definition chain_worker : worker (value_t := N) :=
  default (new_worker (K := SSSP.kernel 1) 0 (fragment_of Chain.graph))
    (Chain.seeded !! 0%nat).

(** C3, on the chain: the first reset round marks vertex 4, finishes the
    round and only then votes. *)
Lemma reset_round_votes_after_FinishARound_witness :
  Chain.seeded !! 0%nat = Some chain_worker ∧
  (0 < size (next_modified (frame (reset_round chain_worker))))%nat ∧
  ∃ w', map reset_round_end (FinishARound (map reset_round Chain.seeded)) !! 0%nat
        = Some w' ∧
        trace w' = trace chain_worker ++ EvStartARound ::
                   (reset_round_calls chain_worker ++
                    [EvFinishARound; EvForceContinue]) ∧
        (EvForceContinue ∉ reset_round_calls chain_worker) ∧
        (EvFinishARound ∉ reset_round_calls chain_worker).
Proof.
  assert (H1 : Chain.seeded !! 0%nat = Some chain_worker) by (vm_compute; reflexivity).
  assert (H2 : (0 < size (next_modified (frame (reset_round chain_worker))))%nat)
    by (vm_compute; lia).
  exact (conj H1 (conj H2
    (reset_round_votes_after_FinishARound Chain.seeded 0 chain_worker H1 H2))).
Defined.

(** The consequence on the chain, with [ToTerminate] reporting what
    [FinishARound] saw: the reset loop is left after its first round, with
    vertex 4 in the frontier and the vertices 4 and 5 not cleared. *)
Lemma reset_loop_leaves_the_chain_after_one_round :
  let ws' := workers_of (reset_loop 20 Chain.seeded) in
  is_ok (reset_loop 20 Chain.seeded) = true ∧
  map (λ w, elements (reset_vertices (frame w))) ws' = [[2%nat]] ∧
  map (λ w, elements (curr_modified (frame w))) ws' = [[3%nat]] ∧
  map (λ w, map (values_ (app_ w)) (InnerVertices (fragment_ w))) ws' =
    [[0; 1; SSSP.infinity; 3; 4]].
Proof. vm_compute. done. Qed.

(** With the vote cast before [FinishARound], as section 4.6 words it and as
    the batch loop does, the reset loop clears the vertices 3, 4 and 5 of the
    chain (scenario S5: reset count 3) and is left with an empty frontier. *)
Lemma reset_loop_as_specified_clears_the_chain :
  let ws' := workers_of (reset_loop_as_specified 20 Chain.seeded) in
  is_ok (reset_loop_as_specified 20 Chain.seeded) = true ∧
  map (λ w, size (reset_vertices (frame w))) ws' = [3%nat] ∧
  map (λ w, elements (curr_modified (frame w))) ws' = [[]] ∧
  map (λ w, map (values_ (app_ w)) (InnerVertices (fragment_ w))) ws' =
    [[0; 1; SSSP.infinity; SSSP.infinity; SSSP.infinity]].
Proof. vm_compute. done. Qed.

(** The two workers of the mirror run when [deltaCompute] is entered. *)
Definition mirror_worker0 : worker (value_t := N) :=
  default (new_worker 0 (fragment_of Mirror.graph0)) (Mirror.before_reset !! 0%nat).

Definition mirror_worker1 : worker (value_t := N) :=
  default (new_worker 1 (fragment_of Mirror.graph1)) (Mirror.before_reset !! 1%nat).

Definition mirror_seeded0 : worker (value_t := N) :=
  match deltaCompute_seed Mirror.FLAGS mirror_worker0 with
  | Ok w => w
  | _ => mirror_worker0
  end.

(** C4, on worker 0 of the mirror run: the deleted edge s → a seeds a. *)
Lemma seeding_inserts_exactly_the_children_of_deleted_parent_edges_witness :
  deltaCompute_seed Mirror.FLAGS mirror_worker0 = Ok mirror_seeded0 ∧
  elements (curr_modified (frame mirror_seeded0)) = [0%nat] ∧
  messages_ mirror_seeded0 = messages_ mirror_worker0.
Proof.
  assert (H : deltaCompute_seed Mirror.FLAGS mirror_worker0 = Ok mirror_seeded0)
    by (vm_compute; reflexivity).
  split; [exact H|]. split; [vm_compute; reflexivity|].
  exact (proj1 (proj2 (proj2
    (seeding_inserts_exactly_the_children_of_deleted_parent_edges
       Mirror.FLAGS mirror_worker0 mirror_seeded0 H)))).
Defined.

(** Worker 1 of the mirror run when the reset loop is left. *)
Definition mirror_reset1 : worker (value_t := N) :=
  default mirror_worker1 (Mirror.after_reset !! 1%nat).

(** C2 (amended), on the mirror run: worker 1 has cleared v (handle 1), so v
    is an inner vertex and its value is the identity element. *)
Lemma reset_phase_clears_the_invalidated_vertices_witness :
  reset_phase Mirror.FLAGS 20 Mirror.before_reset = Ok Mirror.after_reset ∧
  1%nat ∈ InnerVertices (fragment_ mirror_worker1) ∧
  values_ (app_ mirror_reset1) 1%nat = GetIdentityElement.
Proof.
  assert (H : reset_phase Mirror.FLAGS 20 Mirror.before_reset = Ok Mirror.after_reset).
  { unfold Mirror.after_reset. apply is_ok_workers_of. vm_compute. reflexivity. }
  assert (H1 : Mirror.before_reset !! 1%nat = Some mirror_worker1)
    by (vm_compute; reflexivity).
  assert (H1' : Mirror.after_reset !! 1%nat = Some mirror_reset1)
    by (vm_compute; reflexivity).
  assert (Hd : ∀ v, v ∈ InnerVertices (fragment_ mirror_worker1) →
                    v ∉ OuterVertices (fragment_ mirror_worker1)).
  { intros v Hv Ho. vm_compute in Hv, Ho.
    apply list_elem_of_In in Hv, Ho. simpl in Hv, Ho.
    destruct Ho as [<-|[]]. destruct Hv as [[=]|[[=]|[]]]. }
  assert (Hin : 1%nat ∈ reset_vertices (frame mirror_reset1)).
  { apply elem_of_elements. vm_compute. left. }
  pose proof (reset_phase_clears_the_invalidated_vertices Mirror.FLAGS 20
                Mirror.before_reset Mirror.after_reset H) as HT.
  apply Forall2_same_length_lookup in HT. destruct HT as [_ HT].
  specialize (HT 1%nat mirror_worker1 mirror_reset1 H1 H1').
  cbv zeta in HT. destruct (HT Hd) as (es & _ & Hcl & _).
  destruct (Hcl 1%nat Hin) as (Hi & Hv & _).
  exact (conj H (conj Hi Hv)).
Defined.

(** C2, as worded, fails on the mirror run.  Worker 1 owns v (gid 3, handle
    1), whose recorded parent is the source s (gid 1), a root, and the edge
    s → v is not deleted; worker 0 mirrors v with a as the recorded parent,
    clears a (the child of the deleted edge s → a) and names v in an
    invalidation message; worker 1 clears v. *)
Lemma reset_clears_a_vertex_whose_parent_chain_avoids_deleted_edges :
  reset_phase Mirror.FLAGS 20 Mirror.before_reset = Ok Mirror.after_reset ∧
  parent_of Mirror.before_reset 3 = Some 1 ∧
  ¬ reset_subtree_sound Mirror.deleted_edges Mirror.before_reset Mirror.after_reset.
Proof.
  split.
  { unfold Mirror.after_reset. apply is_ok_workers_of. vm_compute. reflexivity. }
  split; [vm_compute; reflexivity|].
  intros Hsound.
  destruct (Hsound 1%nat mirror_worker1 mirror_reset1 1%nat) as [_ Hkept].
  - vm_compute. reflexivity.
  - vm_compute. reflexivity.
  - vm_compute. apply list_elem_of_In. right. by left.
  - apply Hkept.
    + apply (reaches_root_up _ _ 3 1).
      * vm_compute. reflexivity.
      * intros Hin. apply list_elem_of_In in Hin. simpl in Hin.
        destruct Hin as [[=]|[]].
      * apply (reaches_root_here _ _ 1 SSSP.no_parent); vm_compute; reflexivity.
    + apply elem_of_elements. vm_compute. left.
Qed.

(** Worker 0 of the mirror run when the reset loop is left. *)
Definition mirror_reset0 : worker (value_t := N) :=
  default mirror_worker0 (Mirror.after_reset !! 0%nat).

(** C6, on worker 0 of the mirror run: the new fragment mirrors v (handle 1),
    which lies outside the old inner range, and the kernel's [Init] leaves
    the identity delta on it. *)
Lemma rebuild_carries_inner_state_and_discards_outer_deltas_witness :
  fragment_ (deltaCompute_rebuild mirror_reset0) = Build (builder (frame mirror_reset0)) ∧
  (∀ v, v ∈ OuterVertices (Build (builder (frame mirror_reset0))) →
        value (deltas_ (app_ (deltaCompute_rebuild mirror_reset0)) v) =
        GetIdentityElement).
Proof.
  assert (H1 : ∀ v, v ∈ OuterVertices (Build (builder (frame mirror_reset0))) →
            value (deltas_ (Init (Build (builder (frame mirror_reset0)))) v) =
            GetIdentityElement).
  { intros v Hv. vm_compute in Hv. apply list_elem_of_In in Hv.
    destruct Hv as [<-|[]]. vm_compute. reflexivity. }
  assert (H2 : ∀ v, v ∈ OuterVertices (Build (builder (frame mirror_reset0))) →
            v ∉ inner_vertices (frame mirror_reset0)).
  { intros v Hv. vm_compute in Hv. apply list_elem_of_In in Hv.
    destruct Hv as [<-|[]]. intros Hin. vm_compute in Hin.
    apply list_elem_of_In in Hin. destruct Hin as [[=]|[]]. }
  pose proof (rebuild_carries_inner_state_and_discards_outer_deltas
                mirror_reset0 H1 H2) as HT.
  cbv zeta in HT. destruct HT as (Hf & _ & _ & _ & _ & Ho & _).
  exact (conj Hf Ho).
Defined.

(** C8, on the mirror run without an update file. *)
Lemma Query_without_update_file_is_the_batch_phase_witness :
  FLAGS_efile_update Mirror.FLAGS_no_update = EmptyString ∧
  Query Mirror.FLAGS_no_update 20 Mirror.workers =
    rbind (batch_phase Mirror.FLAGS_no_update 20
             (FinishARound (map Query_begin Mirror.workers)))
      (λ wsb, Ok (map (λ w, emit EvBarrier
                              (emit (EvLog ERROR missing_update)
                                 (coordinator_log "Batch time" w))) wsb)).
Proof.
  assert (H : FLAGS_efile_update Mirror.FLAGS_no_update = EmptyString) by reflexivity.
  pose proof (Query_without_update_file_is_the_batch_phase
                Mirror.FLAGS_no_update 20 Mirror.workers H) as HT.
  cbv zeta in HT. destruct HT as [HQ _].
  exact (conj H HQ).
Defined.

(** C9, on the mirror run: the workers start with nothing delivered. *)
Lemma Query_runs_an_empty_round_first_witness :
  Forall (λ w : worker (value_t := N), inbox (messages_ w) = []) Mirror.workers ∧
  ∀ fuel, Query Mirror.FLAGS fuel Mirror.workers =
          rbind (Query_loop Mirror.FLAGS fuel true
                   (FinishARound (map Query_begin Mirror.workers)))
            (λ ws, Ok (map (emit EvBarrier) ws)).
Proof.
  assert (H : Forall (λ w : worker (value_t := N), inbox (messages_ w) = [])
                Mirror.workers) by (repeat constructor).
  pose proof (Query_runs_an_empty_round_first Mirror.FLAGS Mirror.workers H) as HT.
  cbv zeta in HT. destruct HT as [HQ _].
  exact (conj H HQ).
Defined.

(** The workers of the mirror run when [deltaCompute] returns. *)
Definition mirror_rebuilt : list (worker (value_t := N)) :=
  workers_of (deltaCompute Mirror.FLAGS 20 Mirror.before_reset).

(** C10, on the mirror run: the first round of the resumed loop. *)
Lemma resumed_batch_rounds_use_the_new_fragment_witness :
  deltaCompute Mirror.FLAGS 20 Mirror.before_reset = Ok mirror_rebuilt ∧
  length Mirror.before_reset =
  length (Nat.iter 1 (batch_iteration Mirror.FLAGS) (map round_end mirror_rebuilt)).
Proof.
  assert (H : deltaCompute Mirror.FLAGS 20 Mirror.before_reset = Ok mirror_rebuilt).
  { unfold mirror_rebuilt. apply is_ok_workers_of. vm_compute. reflexivity. }
  pose proof (resumed_batch_rounds_use_the_new_fragment Mirror.FLAGS 20
                Mirror.before_reset mirror_rebuilt 1 H) as HT.
  apply Forall2_length in HT. exact (conj H HT).
Defined.

End Concrete.

(** * The further properties on the two runs *)

Section ConcreteRuns.
#[local] Open Scope N_scope.
#[local] Existing Instance shortest_paths_from_1.
Import Examples.

(** X2, on the chain after the batch phase: the deleted edges 2 → 3 and
    1 → 2 in either order. *)
Lemma seeding_is_independent_of_the_order_of_deleted_edges_witness :
  [(2, 3); (1, 2)] ≡ₚ [(1, 2); (2, 3)] ∧
  seed_edges (fragment_ chain_worker) (app_ chain_worker) [(2, 3); (1, 2)] ∅ =
  seed_edges (fragment_ chain_worker) (app_ chain_worker) [(1, 2); (2, 3)] ∅.
Proof.
  assert (H : [(2, 3); (1, 2)] ≡ₚ [(1, 2); (2, 3)]) by apply perm_swap.
  exact (conj H (seeding_is_independent_of_the_order_of_deleted_edges
                   (fragment_ chain_worker) (app_ chain_worker)
                   [(2, 3); (1, 2)] [(1, 2); (2, 3)] ∅ H)).
Defined.

(** X3, on worker 0 of the mirror run: handle 1 is a mirror, not an inner
    vertex. *)
Lemma batch_round_writes_values_only_on_the_inner_frontier_witness :
  (1%nat ∉ InnerVertices (fragment_ mirror_worker0)) ∧
  values_ (app_ (batch_round Mirror.FLAGS mirror_worker0)) 1%nat =
  values_ (app_ mirror_worker0) 1%nat.
Proof.
  assert (H : 1%nat ∉ InnerVertices (fragment_ mirror_worker0)).
  { intros Hin. vm_compute in Hin. apply list_elem_of_In in Hin.
    destruct Hin as [[=]|[]]. }
  exact (conj H (batch_round_writes_values_only_on_the_inner_frontier
                   Mirror.FLAGS mirror_worker0 1%nat (or_introl H))).
Defined.

(** The workers of the mirror run when the batch loop is left. *)
Definition mirror_batch_end : list (worker (value_t := N)) :=
  workers_of (batch_phase Mirror.FLAGS 20
                (FinishARound (map Query_begin Mirror.workers))).

(** X4, on the mirror run. *)
Lemma batch_phase_ends_with_no_frontier_and_no_message_witness :
  batch_phase Mirror.FLAGS 20 (FinishARound (map Query_begin Mirror.workers)) =
    Ok mirror_batch_end ∧
  Forall (λ w' : worker (value_t := N),
            next_modified_ (app_ w') = ∅ ∧ inbox (messages_ w') = [])
    mirror_batch_end.
Proof.
  assert (H : batch_phase Mirror.FLAGS 20
                (FinishARound (map Query_begin Mirror.workers)) =
              Ok mirror_batch_end).
  { unfold mirror_batch_end. apply is_ok_workers_of. vm_compute. reflexivity. }
  exact (conj H (batch_phase_ends_with_no_frontier_and_no_message
                   Mirror.FLAGS 20 (FinishARound (map Query_begin Mirror.workers))
                   mirror_batch_end H)).
Defined.

(** A worker on the chain with no frontier. *)
Definition idle_worker : worker (value_t := N) :=
  set_app (set_curr_modified_ ∅ (Init (fragment_of Chain.graph)))
    (new_worker 0 (fragment_of Chain.graph)).

(** X5, on the idle worker. *)
Lemma batch_phase_on_idle_workers_ends_after_one_round_witness :
  Forall (λ w : worker (value_t := N),
            curr_modified_ (app_ w) = ∅ ∧ inbox (messages_ w) = []) [idle_worker] ∧
  ∃ ws', batch_phase Chain.FLAGS 1 [idle_worker] = Ok ws' ∧
         Forall2 (λ w w' : worker (value_t := N),
                    app_ w' = set_next_modified_ ∅ (app_ w) ∧
                    fragment_ w' = fragment_ w ∧
                    trace w' = trace w ++
                               [EvStartARound; EvFinishARound; EvToTerminate true])
                 [idle_worker] ws'.
Proof.
  assert (H : Forall (λ w : worker (value_t := N),
                        curr_modified_ (app_ w) = ∅ ∧ inbox (messages_ w) = [])
                [idle_worker]).
  { constructor; [split; reflexivity|constructor]. }
  exact (conj H (batch_phase_on_idle_workers_ends_after_one_round
                   Chain.FLAGS 0 [idle_worker] H)).
Defined.

(** An update that deletes 1 → 3, an edge the chain does not have. *)
Definition FLAGS_foreign_edge : flags :=
  {| FLAGS_cilk := false; FLAGS_directed := true; FLAGS_efile_update := "update.e";
     inc_fragment_builder := λ frag _ _,
       {| GetDeletedEdgesGid := [(1, 3)]; Build := frag |} |}.

(** The worker of the chain when the batch loop is left. *)
Definition chain_after_batch : worker (value_t := N) :=
  default (new_worker 0 (fragment_of Chain.graph))
    (after_batch Chain.FLAGS 1 20 Chain.workers !! 0%nat).

(** X7, on the chain: vertex 3 records 2 as its parent, so the deleted edge
    1 → 3 seeds nothing. *)
Lemma reset_phase_without_seeds_changes_nothing_witness :
  ∃ ws', reset_phase FLAGS_foreign_edge 1 [chain_after_batch] = Ok ws' ∧
         Forall2 (λ w w' : worker (value_t := N),
                    app_ w' = app_ w ∧ fragment_ w' = fragment_ w ∧
                    reset_vertices (frame w') = ∅ ∧
                    curr_modified (frame w') = ∅) [chain_after_batch] ws'.
Proof.
  assert (H : Forall (λ w : worker (value_t := N),
                inbox (messages_ w) = [] ∧
                ∀ edge, edge ∈ GetDeletedEdgesGid
                                 (inc_fragment_builder FLAGS_foreign_edge (fragment_ w)
                                    (FLAGS_directed FLAGS_foreign_edge)
                                    (FLAGS_efile_update FLAGS_foreign_edge)) →
                        ¬ untranslatable (fragment_ w) edge ∧
                        ∀ v, ¬ seeds (fragment_ w) (app_ w) edge v)
              [chain_after_batch]).
  { constructor; [|constructor]. split; [vm_compute; reflexivity|].
    intros edge He. simpl in He. apply list_elem_of_singleton in He. subst edge.
    split.
    - intros (_ & _ & [Hn|Hn]); vm_compute in Hn; discriminate Hn.
    - intros v (_ & _ & Hv & Hp). vm_compute in Hv. injection Hv as <-.
      vm_compute in Hp. discriminate Hp. }
  exact (reset_phase_without_seeds_changes_nothing FLAGS_foreign_edge 0
           [chain_after_batch] H).
Defined.

(** X8, on the mirror run. *)
Lemma deltaCompute_changes_an_inner_value_only_by_clearing_it_witness :
  deltaCompute Mirror.FLAGS 20 Mirror.before_reset = Ok mirror_rebuilt ∧
  Forall2 (λ w w' : worker (value_t := N),
             ∀ v, v ∈ InnerVertices (fragment_ w) →
                  values_ (app_ w') v = values_ (app_ w) v ∨
                  values_ (app_ w') v = GetIdentityElement)
    Mirror.before_reset mirror_rebuilt.
Proof.
  assert (H : deltaCompute Mirror.FLAGS 20 Mirror.before_reset = Ok mirror_rebuilt).
  { unfold mirror_rebuilt. apply is_ok_workers_of. vm_compute. reflexivity. }
  pose proof (deltaCompute_changes_an_inner_value_only_by_clearing_it
                Mirror.FLAGS 20 Mirror.before_reset mirror_rebuilt H) as HT.
  split; [exact H|].
  eapply Forall2_impl; [exact HT|]. intros w w' (_ & Hv & _). exact Hv.
Defined.

(** The worker of the chain when [deltaCompute] is entered and when it
    returns. *)
Definition chain_rebuilt : list (worker (value_t := N)) :=
  workers_of (deltaCompute Chain.FLAGS 20 [chain_after_batch]).

(** X9, on the chain. *)
Lemma the_frontier_of_Init_is_dropped_after_deltaCompute_witness :
  deltaCompute Chain.FLAGS 20 [chain_after_batch] = Ok chain_rebuilt ∧
  Forall (λ w' : worker (value_t := N),
            curr_modified_ (app_ w') = curr_modified_ (Init (fragment_ w')))
    chain_rebuilt.
Proof.
  assert (H : deltaCompute Chain.FLAGS 20 [chain_after_batch] = Ok chain_rebuilt).
  { unfold chain_rebuilt. apply is_ok_workers_of. vm_compute. reflexivity. }
  pose proof (the_frontier_of_Init_is_dropped_after_deltaCompute
                Chain.FLAGS 20 [chain_after_batch] chain_rebuilt H) as HT.
  split; [exact H|].
  eapply Forall_impl; [exact HT|]. intros w' [Hc _]. exact Hc.
Defined.

(** X10, on the chain with its update. *)
Lemma Query_builds_the_fragment_once_iff_an_update_is_configured_witness :
  Query Chain.FLAGS 20 Chain.workers = Ok (workers_of Chain.incremental) ∧
  Forall2 (λ w w' : worker (value_t := N),
             ∃ es, trace w' = trace w ++ es ∧ builds es = 1%nat)
    Chain.workers (workers_of Chain.incremental).
Proof.
  assert (H : Query Chain.FLAGS 20 Chain.workers = Ok (workers_of Chain.incremental)).
  { unfold Chain.incremental. apply is_ok_workers_of. vm_compute. reflexivity. }
  pose proof (Query_builds_the_fragment_once_iff_an_update_is_configured
                Chain.FLAGS 20 Chain.workers (workers_of Chain.incremental) H) as HT.
  exact (conj H HT).
Defined.

(** The workers of the mirror run without an update file when [Query]
    returns. *)
Definition mirror_batch_only : list (worker (value_t := N)) :=
  workers_of (Query Mirror.FLAGS_no_update 20 Mirror.workers).

(** X11, on the mirror run without an update file. *)
Lemma Query_opens_and_closes_rounds_in_turn_witness :
  Query Mirror.FLAGS_no_update 20 Mirror.workers = Ok mirror_batch_only ∧
  length Mirror.workers = length mirror_batch_only.
Proof.
  assert (H : Query Mirror.FLAGS_no_update 20 Mirror.workers = Ok mirror_batch_only).
  { unfold mirror_batch_only. apply is_ok_workers_of. vm_compute. reflexivity. }
  pose proof (Query_opens_and_closes_rounds_in_turn
                Mirror.FLAGS_no_update 20 Mirror.workers mirror_batch_only H) as HT.
  apply Forall2_length in HT. exact (conj H HT).
Defined.

(** X12, on the mirror run. *)
Lemma reset_phase_leaves_no_invalidation_message_witness :
  reset_phase Mirror.FLAGS 20 Mirror.before_reset = Ok Mirror.after_reset ∧
  Forall (λ w' : worker (value_t := N),
            inbox (messages_ w') = [] ∧ outbox (messages_ w') = [])
    Mirror.after_reset.
Proof.
  assert (H : reset_phase Mirror.FLAGS 20 Mirror.before_reset = Ok Mirror.after_reset).
  { unfold Mirror.after_reset. apply is_ok_workers_of. vm_compute. reflexivity. }
  pose proof (reset_phase_leaves_no_invalidation_message
                Mirror.FLAGS 20 Mirror.before_reset Mirror.after_reset H) as HT.
  exact (conj H HT).
Defined.

(** X13, on the mirror run. *)
Lemma deltaCompute_delivers_only_the_deltas_of_the_kickoff_round_witness :
  deltaCompute Mirror.FLAGS 20 Mirror.before_reset = Ok mirror_rebuilt ∧
  Forall (λ w' : worker (value_t := N),
            Forall (λ m, is_delta m.2) (inbox (messages_ w')) ∧
            outbox (messages_ w') = [])
    mirror_rebuilt.
Proof.
  assert (H : deltaCompute Mirror.FLAGS 20 Mirror.before_reset = Ok mirror_rebuilt).
  { unfold mirror_rebuilt. apply is_ok_workers_of. vm_compute. reflexivity. }
  pose proof (deltaCompute_delivers_only_the_deltas_of_the_kickoff_round
                Mirror.FLAGS 20 Mirror.before_reset mirror_rebuilt H) as HT.
  exact (conj H HT).
Defined.

End ConcreteRuns.
